(** * Tag propagation over linked Contentful content

    A shallow embedding of the crawl and apply engines of the Contentful
    tag-propagation app (the sidebar location [Sidebar.tsx] and the dialog
    location), with the properties its specification states about them.

    Layout: the JavaScript value model and the helpers of the sidebar, the
    link extractor (on JSON trees and on object graphs), the root resolver,
    the tag resolver, the promise pool, the crawl and the apply run; each
    module gives the embedding first and the theorems over it after. *)

From Stdlib Require Import List String Ascii ZArith Bool Lia Arith PeanoNat.
From Stdlib Require Import Permutation DecimalString Sorted.
Import ListNotations.

Local Open Scope string_scope.
Local Open Scope list_scope.

Set Warnings "-register-all".

(* ================================================================== *)
(** * JavaScript values *)

(** The values the app reads are the JSON documents of the Content
    Management API, reached through [any]-typed property chains.  A number
    is an integer here (fractions and NaN are left out); an object is its
    list of own enumerable properties in key order, the first binding of a
    key being the one a lookup sees. *)
Inductive jsval : Type :=
| JUndef
| JNull
| JBool (b : bool)
| JNum (n : Z)
| JStr (s : string)
| JArr (xs : list jsval)
| JObj (kvs : list (string * jsval)).

(** [!value] is [negb (truthy value)]. *)
Definition truthy (v : jsval) : bool :=
  match v with
  | JUndef | JNull => false
  | JBool b => b
  | JNum n => negb (n =? 0)%Z
  | JStr s => negb (s =? "")
  | JArr _ | JObj _ => true
  end.

Definition index_key (n : nat) : string :=
  NilEmpty.string_of_uint (Nat.to_uint n).

Fixpoint indexed_from (n : nat) (xs : list jsval) : list (string * jsval) :=
  match xs with
  | [] => []
  | x :: rest => (index_key n, x) :: indexed_from (S n) rest
  end.

(** Own enumerable properties: those of an object, the indices of an array. *)
Definition own_props (v : jsval) : list (string * jsval) :=
  match v with
  | JObj kvs => kvs
  | JArr xs => indexed_from 0 xs
  | _ => []
  end.

Fixpoint assoc (k : string) (kvs : list (string * jsval)) : jsval :=
  match kvs with
  | [] => JUndef
  | (k', v) :: rest => if k' =? k then v else assoc k rest
  end.

(** [v?.[k]]: undefined on null and undefined, the property otherwise.  The
    keys the app reads from strings and numbers are never ones they have. *)
Definition prop (k : string) (v : jsval) : jsval := assoc k (own_props v).

(** [Object.keys(v)]. *)
Definition keys (v : jsval) : list string := map fst (own_props v).

(** [a ?? b]. *)
Definition nullish (a b : jsval) : jsval :=
  match a with
  | JUndef | JNull => b
  | _ => a
  end.

(** [typeof v === 'object'] (true of null too). *)
Definition is_object (v : jsval) : bool :=
  match v with
  | JNull | JArr _ | JObj _ => true
  | _ => false
  end.

Definition is_str (s : string) (v : jsval) : bool :=
  match v with
  | JStr s' => s' =? s
  | _ => false
  end.

(** A JavaScript [Set<string>] and the keys of a [Map]: insertion ordered,
    without repetition. *)
Definition JSet := list string.

Definition set_has (x : string) (s : JSet) : bool :=
  existsb (String.eqb x) s.

Definition set_add (x : string) (s : JSet) : JSet :=
  if set_has x s then s else s ++ [x].

(** [Array.from(new Set(xs))]. *)
Definition set_of_list (xs : list string) : JSet :=
  fold_left (fun s x => set_add x s) xs [].

(** [hay.includes(needle)] on strings. *)
Fixpoint includes (needle hay : string) : bool :=
  String.prefix needle hay ||
  match hay with
  | EmptyString => false
  | String _ rest => includes needle rest
  end.

(** The white space [trim] removes, as far as one-byte characters go. *)
Definition is_space (c : ascii) : bool :=
  match nat_of_ascii c with
  | 9 | 10 | 11 | 12 | 13 | 32 => true
  | _ => false
  end.

(** [s.trim()] is truthy when [s] holds a character that is not white space. *)
Fixpoint has_visible (s : string) : bool :=
  match s with
  | EmptyString => false
  | String c rest => negb (is_space c) || has_visible rest
  end.

(* ================================================================== *)
(** * Link extraction *)

(** The [out] argument of [deepExtractLinks]. *)
Record LinkSets : Type := mkLinkSets { entryIds : JSet; assetIds : JSet }.

Definition noLinks : LinkSets := mkLinkSets [] [].

(** [value?.sys?.[k]]. *)
Definition sys_prop (k : string) (value : jsval) : jsval :=
  prop k (prop "sys" value).

Definition isEntryLink (value : jsval) : bool :=
  is_str "Link" (sys_prop "type" value)
  && is_str "Entry" (sys_prop "linkType" value)
  && truthy (sys_prop "id" value).

Definition isAssetLink (value : jsval) : bool :=
  is_str "Link" (sys_prop "type" value)
  && is_str "Asset" (sys_prop "linkType" value)
  && truthy (sys_prop "id" value).

(** [set.add(id)] for the id of a link.  Both link types declare the id a
    string and the guards only test that it is truthy; a truthy id of
    another type has no counterpart in a set of strings and adds nothing. *)
Definition add_id (id : jsval) (s : JSet) : JSet :=
  match id with
  | JStr i => set_add i s
  | _ => s
  end.

Definition addEntry (id : jsval) (out : LinkSets) : LinkSets :=
  mkLinkSets (add_id id (entryIds out)) (assetIds out).

Definition addAsset (id : jsval) (out : LinkSets) : LinkSets :=
  mkLinkSets (entryIds out) (add_id id (assetIds out)).

(** [deepExtractLinks(value, out)] on a JSON tree.  The loop over
    [Object.keys(value)] reads [value[k]] for each key in turn, which are the
    property values in order ([keys_values] below). *)
Fixpoint deepExtractLinks (value : jsval) (out : LinkSets) {struct value}
  : LinkSets :=
  if negb (truthy value) then out
  else if isEntryLink value then addEntry (sys_prop "id" value) out
  else if isAssetLink value then addAsset (sys_prop "id" value) out
  else
    match value with
    | JArr xs =>
        (fix each (l : list jsval) (o : LinkSets) : LinkSets :=
           match l with
           | [] => o
           | v :: rest => each rest (deepExtractLinks v o)
           end) xs out
    | JObj kvs =>
        (fix each (l : list (string * jsval)) (o : LinkSets) : LinkSets :=
           match l with
           | [] => o
           | (_, v) :: rest => each rest (deepExtractLinks v o)
           end) kvs out
    | _ => out
    end.

(** The two loops of [deepExtractLinks] as folds. *)
Definition extractEach (vs : list jsval) (out : LinkSets) : LinkSets :=
  fold_left (fun o v => deepExtractLinks v o) vs out.


(** An entry link, and a value that holds it under [n] arrays. *)
Definition entryLink (id : string) : jsval :=
  JObj [("sys", JObj [("type", JStr "Link"); ("linkType", JStr "Entry");
                      ("id", JStr id)])].

Definition assetLink (id : string) : jsval :=
  JObj [("sys", JObj [("type", JStr "Link"); ("linkType", JStr "Asset");
                      ("id", JStr id)])].

Fixpoint nested (n : nat) (v : jsval) : jsval :=
  match n with
  | 0 => v
  | S m => JArr [nested m v]
  end.

(* ================================================================== *)
(** * Link extraction over an object graph *)

(** [deepExtractLinks] takes [any]: at run time its argument is a reference
    into the heap, and objects may refer to one another in a cycle, which no
    JSON tree does.  Here a value is a primitive or a reference, the heap maps
    addresses to arrays and objects, and the walk counts its recursion depth
    down from a budget: [None] is a walk whose recursion outran the budget. *)
Module ObjectGraph.

Inductive hval : Type :=
| HUndef
| HNull
| HBool (b : bool)
| HNum (n : Z)
| HStr (s : string)
| HRef (a : nat).

Inductive hobj : Type :=
| HArray (xs : list hval)
| HObject (kvs : list (string * hval)).

Definition heap := list hobj.













(** The JSON tree [t] is what the heap holds at [v]. *)
Inductive represents (h : heap) : hval -> jsval -> Prop :=
| rep_undef : represents h HUndef JUndef
| rep_null : represents h HNull JNull
| rep_bool b : represents h (HBool b) (JBool b)
| rep_num n : represents h (HNum n) (JNum n)
| rep_str s : represents h (HStr s) (JStr s)
| rep_arr a xs ys :
    nth_error h a = Some (HArray xs) ->
    Forall2 (represents h) xs ys ->
    represents h (HRef a) (JArr ys)
| rep_obj a kvs kvs' :
    nth_error h a = Some (HObject kvs) ->
    map fst kvs = map fst kvs' ->
    Forall2 (represents h) (map snd kvs) (map snd kvs') ->
    represents h (HRef a) (JObj kvs').


(** A link two arrays deep, laid out in the heap. *)
Definition deepLinkHeap : heap :=
  [HArray [HRef 1]; HArray [HRef 2]; HObject [("sys", HRef 3)];
   HObject [("type", HStr "Link"); ("linkType", HStr "Entry");
            ("id", HStr "e1")]].

End ObjectGraph.

(* ================================================================== *)
(** * Configuration, results and the helpers of the sidebar *)

(** [String(v)]. *)
Fixpoint js_String (v : jsval) : string :=
  match v with
  | JUndef => "undefined"
  | JNull => "null"
  | JBool true => "true"
  | JBool false => "false"
  | JNum n => NilEmpty.string_of_int (Z.to_int n)
  | JStr s => s
  | JArr xs =>
      String.concat ","
        (map (fun x => match x with
                       | JUndef | JNull => ""
                       | _ => js_String x
                       end) xs)
  | JObj _ => "[object Object]"
  end.

Inductive TagMatchMode : Type := ByName | ById.

Record InstallConfig : Type := mkInstallConfig {
  excludedContentTypes : list string;
  includeAssetsByDefault : bool;
  preservePublishStateByDefault : bool;
  tagMatchMode : TagMatchMode;
  maxTraversalDepth : Z;
  requestConcurrency : Z;
  rootContentTypes : list string;
  locationLinkFieldIds : list string
}.

(** The outcome of an awaited call: the value it resolves to, or the value
    it throws. *)
Inductive result (A : Type) : Type :=
| Ok (a : A)
| Throw (e : jsval).
Arguments Ok {A} a.
Arguments Throw {A} e.

(** A loop that may still be running when its budget of iterations ends:
    [None] is a run the budget cut short. *)
Definition bind {A B : Type} (m : option (result A))
  (k : A -> option (result B)) : option (result B) :=
  match m with
  | Some (Ok a) => k a
  | Some (Throw e) => Some (Throw e)
  | None => None
  end.

(** [Map.set]/[obj[k] = v] on a keyed list: in place when the key is there,
    at the end otherwise. *)
Fixpoint map_set {V : Type} (k : string) (v : V) (m : list (string * V))
  : list (string * V) :=
  match m with
  | [] => [(k, v)]
  | (k', v') :: rest =>
      if k' =? k then (k, v) :: rest else (k', v') :: map_set k v rest
  end.

Fixpoint map_get {V : Type} (k : string) (m : list (string * V)) : option V :=
  match m with
  | [] => None
  | (k', v) :: rest => if k' =? k then Some v else map_get k rest
  end.

(** [getLocalizedFieldValue(field, locale)]. *)
Definition getLocalizedFieldValue (field : jsval) (locale : string) : jsval :=
  if negb (truthy field) || negb (is_object field) then JUndef
  else
    match prop locale field with
    | JUndef =>
        match keys field with
        | k0 :: _ => prop k0 field
        | [] => JUndef
        end
    | v => v
    end.

(** [typeof v === 'string' && v.trim()]. *)
Definition visible_string (v : jsval) : option string :=
  match v with
  | JStr s => if has_visible s then Some s else None
  | _ => None
  end.

(** [getEntryTitle(entry, locale)]; the title of an entry without a usable
    field is its id, or a dash when it has none. *)
Definition getEntryTitle (entry : jsval) (locale : string) : jsval :=
  let fields := nullish (prop "fields" entry) (JObj []) in
  let fix firstOf (candidates : list string) : jsval :=
    match candidates with
    | [] => nullish (sys_prop "id" entry) (JStr "—")
    | key :: rest =>
        match visible_string (getLocalizedFieldValue (prop key fields) locale)
        with
        | Some s => JStr s
        | None => firstOf rest
        end
    end in
  firstOf ["internalName"; "title"; "name"; "headline"].

(** The ids among [tags.map(t => t?.sys?.id)] that are non-empty strings. *)
Definition string_ids (tags : list jsval) : list string :=
  flat_map (fun t => match sys_prop "id" t with
                     | JStr i => if i =? "" then [] else [i]
                     | _ => []
                     end) tags.

(** [getTagIdsFromMetadata(entity)]. *)
Definition getTagIdsFromMetadata (entity : jsval) : list string :=
  match prop "tags" (prop "metadata" entity) with
  | JArr tags => string_ids tags
  | _ => []
  end.

(* ================================================================== *)
(** * Root resolver *)

(** Page size of every listing. *)
Definition limit : nat := 100.

(** The repository's answer to one [entry.getMany] query, for a content
    type, a link field, the anchor and an offset: the [items] of the page
    (none when the response has no [items]), or the value thrown. *)
Definition EntryQuery := string -> string -> string -> nat -> result (list jsval).

(** The test of the [catch] block on the thrown value. *)
Definition isUnknownField (e : jsval) : bool :=
  includes "No field with id"
    (js_String (nullish (prop "message" e) (JStr ""))).

(** The body of [for (const item of items)]: both sets take the id. *)
Definition addRoot (st : JSet * JSet) (item : jsval) : JSet * JSet :=
  let id := sys_prop "id" item in
  if truthy id then (add_id id (fst st), add_id id (snd st)) else st.

(** The [while (true)] loop for one content type and one link field;
    [page skip] is the answer to the query at offset [skip] and [st] holds
    [rootEntryIds] and [ctRootIds]. *)
Fixpoint pageLoop (fuel : nat) (page : nat -> result (list jsval))
  (skip : nat) (st : JSet * JSet) : option (result (JSet * JSet)) :=
  match fuel with
  | 0 => None
  | S fuel' =>
      match page skip with
      | Ok items =>
          if (List.length items =? 0)%nat then Some (Ok st)
          else
            let st' := fold_left addRoot items st in
            if (List.length items <? limit)%nat then Some (Ok st')
            else pageLoop fuel' page (skip + limit) st'
      | Throw e =>
          if isUnknownField e then Some (Ok st) else Some (Throw e)
      end
  end.

(** [for (const fieldId of config.locationLinkFieldIds)]. *)
Fixpoint fieldLoop (fuel : nat) (getMany : EntryQuery) (locationId ct : string)
  (fieldIds : list string) (st : JSet * JSet)
  : option (result (JSet * JSet)) :=
  match fieldIds with
  | [] => Some (Ok st)
  | fieldId :: rest =>
      bind (pageLoop fuel (getMany ct fieldId locationId) 0 st)
           (fieldLoop fuel getMany locationId ct rest)
  end.

(** [for (const ct of config.rootContentTypes)]; the state is
    [rootEntryIds] and [perContentType]. *)
Fixpoint typeLoop (fuel : nat) (getMany : EntryQuery) (locationId : string)
  (fieldIds cts : list string) (st : JSet * list (string * nat))
  : option (result (JSet * list (string * nat))) :=
  match cts with
  | [] => Some (Ok st)
  | ct :: rest =>
      bind (fieldLoop fuel getMany locationId ct fieldIds (fst st, []))
           (fun r => typeLoop fuel getMany locationId fieldIds rest
                       (fst r, map_set ct (List.length (snd r)) (snd st)))
  end.

(** [findRootPagesForLocation(sdk, locationId, config)], each pagination
    loop within [fuel] pages. *)
Definition findRootPagesForLocation (fuel : nat) (getMany : EntryQuery)
  (locationId : string) (config : InstallConfig)
  : option (result (JSet * list (string * nat))) :=
  typeLoop fuel getMany locationId (locationLinkFieldIds config)
           (rootContentTypes config) ([], []).

(* ================================================================== *)
(** * Tag resolver *)

(** The body of [for (const t of items)] in [getAllTagsByName]. *)
Definition addTagName (byName : list (string * string)) (t : jsval)
  : list (string * string) :=
  match sys_prop "id" t, prop "name" t with
  | JStr id, JStr name => map_set name id byName
  | _, _ => byName
  end.

(** [getAllTagsByName(sdk)]: [page skip] is the answer of [tag.getMany] at
    offset [skip]; nothing is caught. *)
Fixpoint getAllTagsByName (fuel : nat) (page : nat -> result (list jsval))
  (skip : nat) (byName : list (string * string))
  : option (result (list (string * string))) :=
  match fuel with
  | 0 => None
  | S fuel' =>
      match page skip with
      | Ok items =>
          let byName' := fold_left addTagName items byName in
          if (List.length items <? limit)%nat then Some (Ok byName')
          else getAllTagsByName fuel' page (skip + limit) byName'
      | Throw e => Some (Throw e)
      end
  end.

(** The loop of [resolveTargetTagIds] over the distinct names. *)
Fixpoint lookupNames (cache : list (string * string)) (names : list string)
  (tagIds missing : list string) : list string * list string :=
  match names with
  | [] => (tagIds, missing)
  | name :: rest =>
      match map_get name cache with
      | Some id =>
          if id =? "" then lookupNames cache rest tagIds (missing ++ [name])
          else lookupNames cache rest (tagIds ++ [id]) missing
      | None => lookupNames cache rest tagIds (missing ++ [name])
      end
  end.

(** [resolveTargetTagIds(sdk, tagMatchMode, tagNamesOrIds, tagNameCache)]:
    the cache goes in and comes out; the result is [tagIds] and [missing]. *)
Definition resolveTargetTagIds (fuel : nat) (page : nat -> result (list jsval))
  (mode : TagMatchMode) (tagNamesOrIds : list string)
  (cache : option (list (string * string)))
  : option (result (list string * list string
                    * option (list (string * string)))) :=
  let uniq := set_of_list (filter (fun s => negb (s =? "")) tagNamesOrIds) in
  match mode with
  | ById => Some (Ok (uniq, [], cache))
  | ByName =>
      bind (match cache with
            | Some c => Some (Ok c)
            | None => getAllTagsByName fuel page 0 []
            end)
           (fun c =>
              let r := lookupNames c uniq [] [] in
              Some (Ok (fst r, snd r, Some c)))
  end.

(** The repository serves the full pages [ps], one after the other, from
    offset [skip] on. *)
Fixpoint servesPages (page : nat -> result (list jsval)) (skip : nat)
  (ps : list (list jsval)) : Prop :=
  match ps with
  | [] => True
  | p :: rest =>
      page skip = Ok p /\ List.length p = limit /\
      servesPages page (skip + limit) rest
  end.

(** A repository for the examples: home pages linked through [location]
    fill one page and a bit, the field [locations] does not exist on home
    pages, and queries for any other content type fail. *)
Definition sampleItem (id : string) : jsval :=
  JObj [("sys", JObj [("id", JStr id)])].

Definition sampleQuery : EntryQuery :=
  fun ct fieldId _ skip =>
    if ct =? "pageHome" then
      if fieldId =? "location" then
        if (skip =? 0)%nat then Ok (repeat (sampleItem "h1") limit)
        else if (skip =? limit)%nat then Ok [sampleItem "h2"]
        else Ok []
      else Throw (JObj [("message", JStr "No field with id locations")])
    else Throw (JObj [("message", JStr "Rate limit exceeded")]).

Definition sampleConfig : InstallConfig :=
  mkInstallConfig ["teaser"] true true ByName 2 2
                  ["pageHome"; "pageEvent"] ["location"; "locations"].

(* ================================================================== *)
(** * The promise pool *)

(** An [async] worker runs from one [await] to the next without
    interruption, and other code runs only while it waits.  A call of the
    worker is therefore a sequence of steps on the state it shares with the
    other calls: after each step the call is waiting on an awaited promise
    (with what it needs to go on, a [W]), has fulfilled its own promise with
    an [R], or has rejected it. *)
Inductive wstatus (W R : Type) : Type :=
| Pending (k : W)
| Fulfilled (r : R)
| Failed (e : jsval).
Arguments Pending {W R} k.
Arguments Fulfilled {W R} r.
Arguments Failed {W R} e.

(** One of the [runners]: inside [await worker(items[myIdx])], past the end
    of its loop, or out of it by the exception the [await] raised. *)
Inductive runner (W R : Type) : Type :=
| Awaiting (myIdx : nat) (w : wstatus W R)
| Finished
| Thrown (e : jsval).
Arguments Awaiting {W R} myIdx w.
Arguments Finished {W R}.
Arguments Thrown {W R} e.

(** The state of one call of [promisePool]: the cursor [idx], the [results]
    array (a hole is [None]), the runners, the state the worker calls share,
    and the first rejection [Promise.all] saw.  [started] lists the indices
    [worker] was called on, in call order; the code keeps no such list, it
    is here to state which items were processed. *)
Record pool (W R St : Type) : Type := mkPool {
  idx : nat;
  results : list (option R);
  runners : list (runner W R);
  shared : St;
  rejection : option jsval;
  started : list nat
}.
Arguments mkPool {W R St}.
Arguments idx {W R St}.
Arguments results {W R St}.
Arguments runners {W R St}.
Arguments shared {W R St}.
Arguments rejection {W R St}.
Arguments started {W R St}.

(** [xs[i] = x]. *)
Fixpoint set_nth {A : Type} (i : nat) (x : A) (xs : list A) : list A :=
  match xs, i with
  | [], _ => []
  | _ :: rest, 0 => x :: rest
  | y :: rest, S j => y :: set_nth j x rest
  end.

Section PromisePool.
Context {T W R St : Type}.
(** [worker(item)] up to its first [await], and from one [await] on. *)
Variable start : T -> St -> St * wstatus W R.
Variable resume : W -> St -> St * wstatus W R.
Variable items : list T.

(** The loop test and, when it holds, [myIdx = idx++] and the call of the
    worker. *)
Definition claim (p : pool W R St) : pool W R St * runner W R :=
  match nth_error items (idx p) with
  | Some item =>
      let (s, w) := start item (shared p) in
      (mkPool (S (idx p)) (results p) (runners p) s (rejection p)
              (started p ++ [idx p]),
       Awaiting (idx p) w)
  | None => (p, Finished)
  end.

(** [new Array(n).fill(0).map(async () => ...)]: each runner in turn runs
    to its first [await]. *)
Fixpoint spawn (n : nat) (p : pool W R St) : pool W R St :=
  match n with
  | 0 => p
  | S m =>
      let (p', r) := claim p in
      spawn m (mkPool (idx p') (results p') (runners p' ++ [r]) (shared p')
                      (rejection p') (started p'))
  end.

Definition set_runner (r : nat) (x : runner W R) (p : pool W R St)
  : pool W R St :=
  mkPool (idx p) (results p) (set_nth r x (runners p)) (shared p)
         (rejection p) (started p).

(** The promise runner [r] waits on settles, or the worker call it waits on
    goes on by one step. *)
Definition step (r : nat) (p : pool W R St) : pool W R St :=
  match nth_error (runners p) r with
  | Some (Awaiting i (Pending k)) =>
      let (s, w) := resume k (shared p) in
      set_runner r (Awaiting i w)
        (mkPool (idx p) (results p) (runners p) s (rejection p) (started p))
  | Some (Awaiting i (Fulfilled v)) =>
      let (p', x) :=
        claim (mkPool (idx p) (set_nth i (Some v) (results p)) (runners p)
                      (shared p) (rejection p) (started p)) in
      set_runner r x p'
  | Some (Awaiting i (Failed e)) =>
      set_runner r (Thrown e)
        (mkPool (idx p) (results p) (runners p) (shared p)
                (match rejection p with
                 | Some e0 => Some e0
                 | None => Some e
                 end) (started p))
  | _ => p
  end.

(** The pool after the runners were started with [max(1, concurrency)]
    runners, and after the events of a schedule, each naming the runner
    that moves. *)
Definition poolStart (concurrency : Z) (s0 : St) : pool W R St :=
  spawn (Z.to_nat (Z.max 1 concurrency))
        (mkPool 0 (repeat None (List.length items)) [] s0 None []).

Definition runSchedule (sched : list nat) (p : pool W R St) : pool W R St :=
  fold_left (fun q r => step r q) sched p.

Definition isFinished (x : runner W R) : bool :=
  match x with
  | Finished => true
  | _ => false
  end.

Definition isAwaiting (x : runner W R) : bool :=
  match x with
  | Awaiting _ _ => true
  | _ => false
  end.

(** [await Promise.all(runners)]: rejected with the first rejection, resolved
    once every runner has finished, pending otherwise. *)
Definition outcome (p : pool W R St) : option (result (list (option R))) :=
  match rejection p with
  | Some e => Some (Throw e)
  | None =>
      if forallb isFinished (runners p) then Some (Ok (results p)) else None
  end.

(** [promisePool(items, concurrency, worker)] under a schedule. *)
Definition promisePool (sched : list nat) (concurrency : Z) (s0 : St)
  : pool W R St :=
  runSchedule sched (poolStart concurrency s0).

(** No runner is waiting any more. *)
Definition quiescent (p : pool W R St) : bool :=
  forallb (fun x => negb (isAwaiting x)) (runners p).

(** The schedule that always moves the first runner that waits. *)
Fixpoint firstAwaiting (xs : list (runner W R)) : option nat :=
  match xs with
  | [] => None
  | x :: rest =>
      if isAwaiting x then Some 0 else option_map S (firstAwaiting rest)
  end.

Fixpoint drive (fuel : nat) (p : pool W R St) : pool W R St :=
  match fuel with
  | 0 => p
  | S fuel' =>
      match firstAwaiting (runners p) with
      | Some r => drive fuel' (step r p)
      | None => p
      end
  end.

End PromisePool.

(** A bound on what is left to do in a pool whose worker calls make a
    bounded number of steps: [wsize k] bounds the steps a waiting call still
    makes, [bound] those of a call just made. *)
Section PoolPotential.
Context {T W R St : Type}.
Variable wsize : W -> nat.
Variable bound : nat.
Variable items : list T.

Definition runnerCost (x : runner W R) : nat :=
  match x with
  | Awaiting _ (Pending k) => wsize k + 2
  | Awaiting _ _ => 1
  | _ => 0
  end.

Definition potential (p : pool W R St) : nat :=
  list_sum (map runnerCost (runners p))
  + (List.length items - idx p) * (bound + 2).

End PoolPotential.

(** What the calls in flight have yet to add to a counter of the shared
    state, when [owed k] is what the call waiting with [k] adds before it
    settles. *)
Definition owedRunner {W R : Type} (owed : W -> nat) (x : runner W R) : nat :=
  match x with
  | Awaiting _ (Pending k) => owed k
  | _ => 0
  end.

(** What a call holds for the item [t] it was made on: [J] while it waits,
    [Q] of the value it fulfils with. *)
Definition tracks {T W R : Type} (J : T -> W -> Prop) (Q : T -> R -> Prop)
  (t : T) (w : wstatus W R) : Prop :=
  match w with
  | Pending k => J t k
  | Fulfilled r => Q t r
  | Failed _ => True
  end.

(** The invariants of a pool: the cursor against the call log and the
    finished runners, and the results and the calls in flight against the
    items they belong to. *)
Section PoolInvariants.
Context {T W R St : Type}.
Variable items : list T.

Definition cursorInv (p : pool W R St) : Prop :=
  started p = seq 0 (idx p) /\
  idx p <= List.length items /\
  (forall x, In x (runners p) -> isFinished x = true ->
             idx p = List.length items) /\
  List.length (results p) = List.length items.

Variable J : T -> W -> Prop.
Variable Q : T -> R -> Prop.

Definition resultsInv (p : pool W R St) : Prop :=
  List.length (results p) = List.length items /\
  (forall i w, In (Awaiting i w) (runners p) ->
               exists t, nth_error items i = Some t /\ tracks J Q t w) /\
  (forall i v, nth_error (results p) i = Some (Some v) ->
               exists t, nth_error items i = Some t /\ Q t v) /\
  (forall i, i < idx p ->
             (exists v, nth_error (results p) i = Some (Some v)) \/
             (exists w, In (Awaiting i w) (runners p)) \/
             (exists e, In (Thrown e) (runners p))).

End PoolInvariants.

(** Two workers for the examples, on items that are strings: each call
    waits once; the first then fulfils for every item, the second rejects
    for the item [a]. *)
Definition waitOnce (item : string) (s : unit) : unit * wstatus string unit :=
  (s, Pending item).


Definition rejectsOnA (item : string) (s : unit)
  : unit * wstatus string unit :=
  if item =? "a" then (s, Failed (JStr "a failed")) else (s, Fulfilled tt).

(* ================================================================== *)
(** * The crawl *)

(** The rows of a scan; [kind] is the type of the row. *)
Inductive ExcludedReason : Type := ReasonLocation | ReasonExcludedContentType.

Record EntryScanRow : Type := mkEntryScanRow {
  entryId : string;
  contentType : jsval;
  entryTitle : jsval;
  entryExcluded : bool;
  excludedReason : option ExcludedReason;
  entryExistingTagIds : list string;
  entryMissingTagIds : list string
}.

Record AssetScanRow : Type := mkAssetScanRow {
  assetId : string;
  assetTitle : string;
  assetExcluded : bool;
  assetExistingTagIds : list string;
  assetMissingTagIds : list string
}.

Record ScanSummary : Type := mkScanSummary {
  roots : list string;
  targetTagIds : list string;
  missingTargetTagsByName : list string;
  entries : list EntryScanRow;
  assets : list AssetScanRow
}.

(** An element of the queue; its [type] is always [Entry]. *)
Record QItem : Type := mkQItem { qid : string; depth : nat }.

(** The local state of [traverseDescendants].  [dispatched] lists the
    queue elements whose callback passed the visited test, in that order:
    for each visited entry the [depth] its callback holds.  The code keeps
    these depths in the closures of the callbacks only. *)
Record CrawlState : Type := mkCrawlState {
  visitedEntries : JSet;
  visitedAssets : JSet;
  entryRows : list (string * EntryScanRow);
  queue : list QItem;
  dispatched : list QItem
}.

(** [xs.includes(v)] for a list of strings and any value. *)
Definition includes_val (v : jsval) (xs : list string) : bool :=
  match v with
  | JStr s => set_has s xs
  | _ => false
  end.

(** [targetTagIds.filter((t) => !existing.includes(t))]. *)
Definition missingTags (targetTagIds existing : list string) : list string :=
  filter (fun t => negb (set_has t existing)) targetTagIds.

(** Drawing the elements of a list one at a time, the next one at the
    place the schedule names (counted among those that are left, the first
    one when the schedule has run out): every order of completion of the
    requests of a wave, and nothing else. *)
Fixpoint remove_nth {A : Type} (n : nat) (l : list A) : list A :=
  match l, n with
  | [], _ => []
  | _ :: rest, 0 => rest
  | x :: rest, S m => x :: remove_nth m rest
  end.

Fixpoint drawN {A : Type} (n : nat) (choices : list nat) (l : list A)
  : list A :=
  match n with
  | 0 => []
  | S n' =>
      match l with
      | [] => []
      | x :: _ =>
          let c := match choices with
                   | [] => 0
                   | c :: _ => c mod List.length l
                   end in
          nth c l x :: drawN n' (tl choices) (remove_nth c l)
      end
  end.

Definition completionOrder {A : Type} (choices : list nat) (l : list A)
  : list A :=
  drawN (List.length l) choices l.

Section Crawl.
(** The repository: what [entry.get] and [asset.get] settle with. *)
Variable getEntry : string -> result jsval.
Variable getAsset : string -> result jsval.
Variable locale : string.
Variable config : InstallConfig.
Variable targets : list string.

(** [(entry as any)?.sys?.contentType?.sys?.id ?? 'unknown']. *)
Definition contentTypeOf (entry : jsval) : jsval :=
  nullish (sys_prop "id" (sys_prop "contentType" entry)) (JStr "unknown").

Definition isExcludedCt (ct : jsval) : bool :=
  includes_val ct (excludedContentTypes config).

Definition isLocationCt (ct : jsval) : bool := is_str "location" ct.

Definition isExcluded (entry : jsval) : bool :=
  isExcludedCt (contentTypeOf entry) || isLocationCt (contentTypeOf entry).

(** The row the batch callback records for a fetched entry. *)
Definition entryRow (id : string) (entry : jsval) : EntryScanRow :=
  let ct := contentTypeOf entry in
  let excluded := isExcludedCt ct || isLocationCt ct in
  let reason := if isLocationCt ct then Some ReasonLocation
                else if isExcludedCt ct then Some ReasonExcludedContentType
                else None in
  let existing := getTagIdsFromMetadata entry in
  let missing := missingTags targets existing in
  mkEntryScanRow id ct (getEntryTitle entry locale) excluded reason existing
                 (if excluded then [] else missing).

(** The links of an entry: the loop over [Object.keys(fields)]. *)
Definition linksOf (entry : jsval) : LinkSets :=
  let fields := nullish (prop "fields" entry) (JObj []) in
  fold_left (fun out fieldId =>
               deepExtractLinks
                 (getLocalizedFieldValue (prop fieldId fields) locale) out)
            (keys fields) noLinks.

(** [depth >= config.maxTraversalDepth]. *)
Definition depthReached (d : nat) : bool :=
  (maxTraversalDepth config <=? Z.of_nat d)%Z.

(** The loop [for (const nextEntryId of out.entryIds)]. *)
Definition enqueueLinks (d : nat) (ids : list string) (st : CrawlState)
  : CrawlState :=
  fold_left (fun s next =>
               if set_has next (visitedEntries s) then s
               else mkCrawlState (visitedEntries s) (visitedAssets s)
                                 (entryRows s)
                                 (queue s ++ [mkQItem next (S d)])
                                 (dispatched s))
            ids st.

(** The loop [for (const assetId of out.assetIds)]. *)
Definition addAssets (ids : list string) (st : CrawlState) : CrawlState :=
  mkCrawlState (visitedEntries st)
               (fold_left (fun s a => set_add a s) ids (visitedAssets st))
               (entryRows st) (queue st) (dispatched st).

(** The batch callback from the point where [entry.get] has resolved with
    [entry]. *)
Definition visit (item : QItem) (entry : jsval) (st : CrawlState)
  : CrawlState :=
  let st1 := mkCrawlState (visitedEntries st) (visitedAssets st)
               (map_set (qid item) (entryRow (qid item) entry) (entryRows st))
               (queue st) (dispatched st) in
  if isExcluded entry then st1
  else if depthReached (depth item) then st1
  else
    let out := linksOf entry in
    let st2 := enqueueLinks (depth item) (entryIds out) st1 in
    if includeAssetsByDefault config then addAssets (assetIds out) st2
    else st2.

(** The batch callback up to its [await], for the items of the batch in
    turn: an item whose id was visited is dropped, the others are marked
    and their requests sent. *)
Fixpoint dispatch (batch : list QItem) (st : CrawlState)
  : CrawlState * list QItem :=
  match batch with
  | [] => (st, [])
  | item :: rest =>
      if set_has (qid item) (visitedEntries st) then dispatch rest st
      else
        let st' := mkCrawlState (set_add (qid item) (visitedEntries st))
                     (visitedAssets st) (entryRows st) (queue st)
                     (dispatched st ++ [item]) in
        let (st'', sent) := dispatch rest st' in
        (st'', item :: sent)
  end.

(** The requests complete in some order; the first that fails rejects
    [Promise.all], and with it the crawl. *)
Fixpoint complete (order : list QItem) (st : CrawlState)
  : result CrawlState :=
  match order with
  | [] => Ok st
  | item :: rest =>
      match getEntry (qid item) with
      | Ok entry => complete rest (visit item entry st)
      | Throw e => Throw e
      end
  end.

(** [Math.max(1, config.requestConcurrency)]. *)
Definition batchSize : nat := Z.to_nat (Z.max 1 (requestConcurrency config)).

(** One turn of [while (queue.length)]. *)
Definition wave (choices : list nat) (st : CrawlState) : result CrawlState :=
  let batch := firstn batchSize (queue st) in
  let st0 := mkCrawlState (visitedEntries st) (visitedAssets st)
               (entryRows st) (skipn batchSize (queue st)) (dispatched st) in
  let (st1, sent) := dispatch batch st0 in
  complete (completionOrder choices sent) st1.

(** The loop, with the schedule of each wave; [None] when [fuel] waves did
    not empty the queue. *)
Fixpoint crawlLoop (fuel : nat) (schedule : nat -> list nat) (n : nat)
  (st : CrawlState) : option (result CrawlState) :=
  match fuel with
  | 0 => None
  | S fuel' =>
      match queue st with
      | [] => Some (Ok st)
      | _ :: _ =>
          bind (Some (wave (schedule n) st))
               (crawlLoop fuel' schedule (S n))
      end
  end.

Definition initialState (rootEntryIds : list string) : CrawlState :=
  mkCrawlState [] [] [] (map (fun id => mkQItem id 0) rootEntryIds) [].

(** The worker of the asset pool: one request, then the row. *)
Definition assetRow (id : string) (asset : jsval) : AssetScanRow :=
  let fields := prop "fields" asset in
  let title :=
    nullish
      (nullish (getLocalizedFieldValue (prop "title" fields) locale)
               (prop "fileName"
                     (getLocalizedFieldValue (prop "file" fields) locale)))
      (JStr id) in
  let existing := getTagIdsFromMetadata asset in
  mkAssetScanRow id (js_String (nullish title (JStr id))) false existing
                 (missingTags targets existing).

Definition assetStart (id : string) (s : unit)
  : unit * wstatus string AssetScanRow :=
  (s, Pending id).

Definition assetResume (id : string) (s : unit)
  : unit * wstatus string AssetScanRow :=
  match getAsset id with
  | Ok asset => (s, Fulfilled (assetRow id asset))
  | Throw e => (s, Failed e)
  end.

(** [for (const r of assets) assetRows.set(r.id, r)]; reading [r.id] of a
    hole is a type error. *)
Fixpoint collectAssets (res : list (option AssetScanRow))
  (rows : list (string * AssetScanRow))
  : result (list (string * AssetScanRow)) :=
  match res with
  | [] => Ok rows
  | Some r :: rest => collectAssets rest (map_set (assetId r) r rows)
  | None :: rest => Throw (JStr "TypeError")
  end.

(** The part after the loop: the assets, when they are wanted and there are
    some, go through the pool under the schedule [asched]. *)
Definition loadAssets (asched : list nat) (st : CrawlState)
  : option (result (list (string * AssetScanRow))) :=
  if includeAssetsByDefault config
     && negb (List.length (visitedAssets st) =? 0)%nat
  then
    let p := promisePool assetStart assetResume (visitedAssets st) asched
                         (requestConcurrency config) tt in
    match outcome p with
    | Some (Ok res) => Some (collectAssets res [])
    | Some (Throw e) => Some (Throw e)
    | None => None
    end
  else Some (Ok []).

(** [traverseDescendants(sdk, locale, config, rootEntryIds, targetTagIds)]
    under a schedule for the waves and one for the asset pool. *)
Definition traverseDescendants (fuel : nat) (schedule : nat -> list nat)
  (asched : list nat) (rootEntryIds : list string)
  : option (result ScanSummary) :=
  bind (crawlLoop fuel schedule 0 (initialState rootEntryIds))
       (fun st =>
          bind (loadAssets asched st)
               (fun assetRows =>
                  Some (Ok (mkScanSummary rootEntryIds targets []
                              (map snd (entryRows st))
                              (map snd assetRows))))).

End Crawl.

(** Entries and assets for the examples: an entry of a content type whose
    one field links to entries and assets, and an asset with tags. *)
Definition tagLink (id : string) : jsval :=
  JObj [("sys", JObj [("type", JStr "Link"); ("linkType", JStr "Tag");
                      ("id", JStr id)])].

Definition sampleEntry (ct : string) (tags links media : list string) : jsval :=
  JObj [("sys", JObj [("contentType", JObj [("sys", JObj [("id", JStr ct)])]);
                      ("publishedVersion", JNum 3)]);
        ("fields",
         JObj [("body", JObj [("en-US",
                               JArr (map entryLink links
                                     ++ map assetLink media))])]);
        ("metadata", JObj [("tags", JArr (map tagLink tags))])].

Definition sampleAsset (tags : list string) : jsval :=
  JObj [("sys", JObj [("publishedVersion", JNum 1)]);
        ("fields", JObj [("title", JObj [("en-US", JStr "A picture")])]);
        ("metadata", JObj [("tags", JArr (map tagLink tags))])].

Definition notFound : jsval := JObj [("message", JStr "The resource could not be found.")].

(** The scenario of the specification: [R1] links to [R2], of an excluded
    type, and to [R3]; [R3] links to the asset [M1]; [R2] holds a link too. *)
Definition scenarioEntries : string -> result jsval :=
  fun id =>
    if id =? "R1" then Ok (sampleEntry "page" [] ["R2"; "R3"] [])
    else if id =? "R2" then Ok (sampleEntry "teaser" [] ["R9"] ["M9"])
    else if id =? "R3" then Ok (sampleEntry "page" ["t1"] [] ["M1"])
    else Throw notFound.

Definition scenarioAssets : string -> result jsval :=
  fun id => if id =? "M1" then Ok (sampleAsset []) else Throw notFound.

Definition scenarioConfig : InstallConfig :=
  mkInstallConfig ["teaser"] true true ByName 5 4 [] [].

(** Three roots, two requests at a time, depth limit 2: [R1] links to [C],
    [C] and [R3] link to [X], and [X] links to [Y]. *)
Definition raceEntries : string -> result jsval :=
  fun id =>
    if id =? "R1" then Ok (sampleEntry "page" [] ["C"] [])
    else if id =? "R2" then Ok (sampleEntry "page" [] [] [])
    else if id =? "R3" then Ok (sampleEntry "page" [] ["X"] [])
    else if id =? "C" then Ok (sampleEntry "page" [] ["X"] [])
    else if id =? "X" then Ok (sampleEntry "page" [] ["Y"] [])
    else if id =? "Y" then Ok (sampleEntry "page" [] [] [])
    else Throw notFound.

Definition raceConfig : InstallConfig :=
  mkInstallConfig [] false true ByName 2 2 [] [].

(** All requests of a wave complete in the order they were sent; in the
    second wave of the other schedule the second request completes first. *)
Definition inOrder : nat -> list nat := fun _ => [].

Definition secondFirst : nat -> list nat :=
  fun n => if (n =? 1)%nat then [1] else [].

(** The link graph the crawl walks, and what it keeps true of its state. *)
Section CrawlGraph.
Variable getEntry : string -> result jsval.
Variable locale : string.
Variable config : InstallConfig.
Variable targets : list string.
Variable rootEntryIds : list string.

(** [reach d id]: [id] is [d] links away from a root, along entries that
    the repository serves and that are not excluded. *)
Inductive reach : nat -> string -> Prop :=
| reach_root id : In id rootEntryIds -> reach 0 id
| reach_link d p e c :
    reach d p -> getEntry p = Ok e -> isExcluded config e = false ->
    In c (entryIds (linksOf locale e)) ->
    reach (S d) c.

(** A depth the crawl gives to an element of the queue: that of a root, or
    one within the limit. *)
Definition withinDepth (d : nat) : Prop :=
  d = 0 \/ (Z.of_nat d <= maxTraversalDepth config)%Z.

(** The entries the crawl would put on the queue after [id]. *)
Definition children (id : string) : list string :=
  match getEntry id with
  | Ok e => if isExcluded config e then [] else entryIds (linksOf locale e)
  | Throw _ => []
  end.

(** The number of queue elements that can come of one at [id] with [n]
    levels left below it. *)
Fixpoint treeSize (n : nat) (id : string) : nat :=
  match n with
  | 0 => 1
  | S m => 1 + list_sum (map (treeSize m) (children id))
  end.

(** The levels left below an element of the queue. *)
Definition levelsLeft (q : QItem) : nat :=
  Z.to_nat (maxTraversalDepth config - Z.of_nat (depth q)).

Definition queueWork (q : list QItem) : nat :=
  list_sum (map (fun x => treeSize (levelsLeft x) (qid x)) q).

Definition crawlInv (st : CrawlState) : Prop :=
  NoDup (map fst (entryRows st)) /\
  (forall id row,
      In (id, row) (entryRows st) ->
      In id (visitedEntries st) /\
      exists entry d,
        getEntry id = Ok entry /\
        row = entryRow locale config targets id entry /\
        reach d id /\ withinDepth d) /\
  (forall q, In q (queue st) -> reach (depth q) (qid q) /\ withinDepth (depth q)) /\
  (forall a,
      In a (visitedAssets st) ->
      exists p entry d,
        reach d p /\ getEntry p = Ok entry /\
        isExcluded config entry = false /\
        depthReached config d = false /\
        In a (assetIds (linksOf locale entry))).

(** Between two waves every visited entry has its row, and every root is
    visited or still queued. *)
Definition settledInv (st : CrawlState) : Prop :=
  (forall id, In id (visitedEntries st) -> In id (map fst (entryRows st))) /\
  (forall id, In id rootEntryIds ->
              In id (visitedEntries st) \/ In id (map qid (queue st))).

(** [reachFrom x m c]: [m] links lead from [x] to [c], along entries that
    the repository serves and that are not excluded. *)
Inductive reachFrom : string -> nat -> string -> Prop :=
| reachFrom_here x : reachFrom x 0 x
| reachFrom_step x e y m c :
    getEntry x = Ok e -> isExcluded config e = false ->
    In y (entryIds (linksOf locale e)) ->
    reachFrom y m c ->
    reachFrom x (S m) c.

(** A path of [m] links from an element at depth [k] that the depth limit
    lets the crawl follow to its end. *)
Definition okPath (k m : nat) : Prop :=
  m = 0 \/ (Z.of_nat (k + m) <= maxTraversalDepth config)%Z.

Definition leDepth (a b : QItem) : Prop := depth a <= depth b.

(** What the crawl keeps true when the requests of a wave complete in the
    order they were sent.  [done] are the elements whose callback has run
    to its end and [pending] those whose request is out.  An element of the
    frontier is live when its request is out, or when it is queued and its
    id not visited.  [c] is resolved within [n] when it was dispatched at a
    depth of at most [n], or a live element of the frontier leads to it
    within [n]. *)
Definition frontierLive (pending : list QItem) (st : CrawlState) (x : QItem)
  : Prop :=
  In x pending \/ (In x (queue st) /\ ~ In (qid x) (visitedEntries st)).

Definition covered (pending : list QItem) (st : CrawlState) (c : string)
  (n : nat) : Prop :=
  exists x m,
    frontierLive pending st x /\ reachFrom (qid x) m c /\
    depth x + m <= n /\ okPath (depth x) m.

Definition settledAt (done : list QItem) (c : string) (n : nat) : Prop :=
  exists y, In y done /\ qid y = c /\ depth y <= n.

Definition resolved (done pending : list QItem) (st : CrawlState)
  (c : string) (n : nat) : Prop :=
  settledAt done c n \/ covered pending st c n.

Definition bfsInv (done pending : list QItem) (st : CrawlState) : Prop :=
  dispatched st = done ++ pending /\
  visitedEntries st = map qid (dispatched st) /\
  StronglySorted leDepth (done ++ pending ++ queue st) /\
  (forall a b, In a (pending ++ queue st) -> In b (pending ++ queue st) ->
               depth b <= depth a + 1) /\
  (forall r m c, In r rootEntryIds -> reachFrom r m c -> okPath 0 m ->
                 resolved done pending st c m) /\
  (forall y m c, In y done -> reachFrom (qid y) m c -> okPath (depth y) m ->
                 resolved done pending st c (depth y + m)).

(** The log of dispatched elements, under every completion order: one
    element for each visited id, each at a depth at which the links lead
    to it. *)
Definition logInv (st : CrawlState) : Prop :=
  visitedEntries st = map qid (dispatched st) /\
  NoDup (visitedEntries st) /\
  (forall y, In y (dispatched st) ->
             reach (depth y) (qid y) /\ withinDepth (depth y)).

End CrawlGraph.

(** The ids of the entry rows of a returned inventory. *)
Definition inventoryIds (r : option (result ScanSummary))
  : option (list string) :=
  match r with
  | Some (Ok s) => Some (map entryId (entries s))
  | _ => None
  end.



(** The state after the first [n] waves, while they succeed. *)
Fixpoint runWaves (getEntry : string -> result jsval) (locale : string)
  (config : InstallConfig) (targets : list string)
  (schedule : nat -> list nat) (from n : nat) (st : CrawlState)
  : result CrawlState :=
  match n with
  | 0 => Ok st
  | S m =>
      match wave getEntry locale config targets (schedule from) st with
      | Ok st' => runWaves getEntry locale config targets schedule (S from) m st'
      | Throw e => Throw e
      end
  end.

Definition queueOf (r : result CrawlState) : list QItem :=
  match r with
  | Ok st => queue st
  | Throw _ => []
  end.

(** The elements a finished crawl dispatched, each with the depth it was
    given. *)
Definition logOf (r : option (result CrawlState)) : list QItem :=
  match r with
  | Some (Ok st) => dispatched st
  | _ => []
  end.

(* ================================================================== *)
(** * The apply run of the dialog *)

(** [makeTagLink(id)]. *)
Definition makeTagLink (id : string) : jsval :=
  JObj [("sys", JObj [("type", JStr "Link"); ("linkType", JStr "Tag");
                      ("id", JStr id)])].

(** [Array.isArray(entity?.metadata?.tags) ? entity.metadata.tags : []]. *)
Definition existingLinks (entity : jsval) : list jsval :=
  match prop "tags" (prop "metadata" entity) with
  | JArr tags => tags
  | _ => []
  end.

(** [existing.map((t) => t?.sys?.id).filter(Boolean)]. *)
Definition existingIdsOf (existing : list jsval) : list jsval :=
  filter truthy (map (sys_prop "id") existing).

(** [existingIds.includes(tagId)]. *)
Definition hasTag (existingIds : list jsval) (tagId : string) : bool :=
  existsb (is_str tagId) existingIds.

(** [mergedLinks]: the existing links, then a link for each target id the
    existing ids did not include. *)
Definition mergedLinks (existing : list jsval) (targetTagIds : list string)
  : list jsval :=
  existing
  ++ map makeTagLink
       (filter (fun tagId => negb (hasTag (existingIdsOf existing) tagId))
               targetTagIds).

(** [{...v}]: the own properties of [v], none for null and undefined.  The
    API serves objects; the index properties a string would spread into are
    left out. *)
Definition spread (v : jsval) : list (string * jsval) := own_props v.

(** The second argument of [update]:
    [{...entity, metadata: {...entity.metadata, tags: mergedLinks}}]. *)
Definition taggedEntity (entity : jsval) (targetTagIds : list string) : jsval :=
  JObj (map_set "metadata"
          (JObj (map_set "tags"
                   (JArr (mergedLinks (existingLinks entity) targetTagIds))
                   (spread (prop "metadata" entity))))
          (spread entity)).

(** The rows of the dialog, as far as [onApply] reads them. *)
Record DialogRow : Type := mkDialogRow {
  rowId : string;
  rowExcluded : bool;
  willAdd : bool
}.

(** One collection of an [ApplySummary]. *)
Record Tally : Type := mkTally {
  selected : nat;
  updated : nat;
  republished : nat;
  skippedExcluded : nat;
  skippedAlreadyOk : nat;
  failed : nat
}.

Record ApplySummary : Type := mkApplySummary {
  entriesTally : Tally;
  assetsTally : Tally
}.

(** The three calls the worker makes for an item of one collection, as the
    repository answers them. *)
Record Cma : Type := mkCma {
  cmaGet : string -> result jsval;
  cmaUpdate : string -> jsval -> result jsval;
  cmaPublish : string -> jsval -> result jsval
}.

(** [new Map(rows.map((r) => [r.id, r]))]. *)
Definition rowsById (rows : list DialogRow) : list (string * DialogRow) :=
  fold_left (fun m r => map_set (rowId r) r m) rows [].

(** [ids.filter((id) => { const row = byId.get(id);
    return row && !row.excluded && row.willAdd; })]. *)
Definition actionableIds (byId : list (string * DialogRow))
  (ids : list string) : list string :=
  filter (fun id => match map_get id byId with
                    | Some row => negb (rowExcluded row) && willAdd row
                    | None => false
                    end) ids.

(** Where a worker call waits: for [get], for [update] (having seen
    whether the item was published), or for [publish]. *)
Inductive ApplyWait : Type :=
| AwaitGet (id : string)
| AwaitUpdate (id : string) (wasPublished : bool) (payload : jsval)
| AwaitPublish (id : string) (updatedEntity : jsval).

Definition addUpdated (t : Tally) : Tally :=
  mkTally (selected t) (S (updated t)) (republished t) (skippedExcluded t)
          (skippedAlreadyOk t) (failed t).

Definition addRepublished (t : Tally) : Tally :=
  mkTally (selected t) (updated t) (S (republished t)) (skippedExcluded t)
          (skippedAlreadyOk t) (failed t).

Definition addSkippedExcluded (t : Tally) : Tally :=
  mkTally (selected t) (updated t) (republished t) (S (skippedExcluded t))
          (skippedAlreadyOk t) (failed t).

Definition addFailed (t : Tally) : Tally :=
  mkTally (selected t) (updated t) (republished t) (skippedExcluded t)
          (skippedAlreadyOk t) (S (failed t)).

Section ApplyWorker.
Variable cma : Cma.
Variable byId : list (string * DialogRow).
Variable targetTagIds : list string.
Variable preservePublishState : bool.

(** The state the worker calls of one pool share: the tally of the
    collection and the count of processed items. *)
Definition ApplyState : Type := Tally * nat.

(** The [catch] and [finally] blocks: one more failed, one more processed,
    and the promise of the call fulfils. *)
Definition caught (s : ApplyState) : ApplyState * wstatus ApplyWait unit :=
  ((addFailed (fst s), S (snd s)), Fulfilled tt).

(** The worker up to [await get]. *)
Definition applyStart (id : string) (s : ApplyState)
  : ApplyState * wstatus ApplyWait unit :=
  match map_get id byId with
  | Some row =>
      if rowExcluded row
      then ((addSkippedExcluded (fst s), S (snd s)), Fulfilled tt)
      else (s, Pending (AwaitGet id))
  | None => (s, Pending (AwaitGet id))
  end.

(** The worker from one [await] to the next.  Reading [entity.metadata] of
    null or undefined is a type error, caught like any failure. *)
Definition applyResume (k : ApplyWait) (s : ApplyState)
  : ApplyState * wstatus ApplyWait unit :=
  match k with
  | AwaitGet id =>
      match cmaGet cma id with
      | Ok entity =>
          match entity with
          | JUndef | JNull => caught s
          | _ =>
              (s, Pending (AwaitUpdate id
                             (truthy (sys_prop "publishedVersion" entity))
                             (taggedEntity entity targetTagIds)))
          end
      | Throw _ => caught s
      end
  | AwaitUpdate id wasPublished payload =>
      match cmaUpdate cma id payload with
      | Ok updatedEntity =>
          let s' := (addUpdated (fst s), snd s) in
          if preservePublishState && wasPublished
          then (s', Pending (AwaitPublish id updatedEntity))
          else ((fst s', S (snd s')), Fulfilled tt)
      | Throw _ => caught s
      end
  | AwaitPublish id updatedEntity =>
      match cmaPublish cma id updatedEntity with
      | Ok _ => ((addRepublished (fst s), S (snd s)), Fulfilled tt)
      | Throw _ => caught s
      end
  end.

(** [promisePool(ids, 4, worker)] for one collection, started on a tally
    with [selected] set, when there are ids; the tally when the pool has
    resolved. *)
Definition applyCollection (sched : list nat) (ids : list string)
  : option (result Tally) :=
  let t0 := mkTally (List.length ids) 0 0 0 0 0 in
  match ids with
  | [] => Some (Ok t0)
  | _ :: _ =>
      let p := promisePool applyStart applyResume ids sched 4 (t0, 0) in
      match outcome p with
      | Some (Ok _) => Some (Ok (fst (shared p)))
      | Some (Throw e) => Some (Throw e)
      | None => None
      end
  end.

(** What one worker call adds to a count that goes up by [cu] with each
    update, [cr] with each republish, [cs] with each excluded item skipped
    and [cf] with each failure: from a place where the call waits, and from
    its start. *)
Section Weights.
Variables cu cr cs cf : nat.

Definition owedFromPublish (id : string) (updatedEntity : jsval) : nat :=
  match cmaPublish cma id updatedEntity with
  | Ok _ => cr
  | Throw _ => cf
  end.

Definition owedFromUpdate (id : string) (wasPublished : bool)
  (payload : jsval) : nat :=
  match cmaUpdate cma id payload with
  | Ok updatedEntity =>
      cu + (if preservePublishState && wasPublished
            then owedFromPublish id updatedEntity
            else 0)
  | Throw _ => cf
  end.

Definition owedFromGet (id : string) : nat :=
  match cmaGet cma id with
  | Ok entity =>
      match entity with
      | JUndef | JNull => cf
      | _ => owedFromUpdate id (truthy (sys_prop "publishedVersion" entity))
                            (taggedEntity entity targetTagIds)
      end
  | Throw _ => cf
  end.

Definition owedFrom (k : ApplyWait) : nat :=
  match k with
  | AwaitGet id => owedFromGet id
  | AwaitUpdate id wasPublished payload =>
      owedFromUpdate id wasPublished payload
  | AwaitPublish id updatedEntity => owedFromPublish id updatedEntity
  end.

Definition contribOf (id : string) : nat :=
  match map_get id byId with
  | Some row => if rowExcluded row then cs else owedFromGet id
  | None => owedFromGet id
  end.

End Weights.

End ApplyWorker.

(** The invocation parameters [onApply] reads, and the state of the dialog. *)
Record DialogPayload : Type := mkDialogPayload {
  payloadTargetTagIds : list string;
  contentRows : list DialogRow;
  mediaRows : list DialogRow
}.

(** How a call of [onApply] ends: with an error message set, with the
    status that nothing needs an update, or with the summary; [StillRunning]
    is a run whose schedules ended before its pools had resolved. *)
Inductive ApplyOutcome : Type :=
| ApplyError (msg : string)
| NothingToUpdate
| Done (summary : ApplySummary)
| StillRunning.

(** [e?.message ?? String(e)], as a string. *)
Definition thrownMessage (e : jsval) : string :=
  js_String (nullish (prop "message" e) (JStr (js_String e))).

(** [onApply()], with the schedules of its two pools. *)
Definition onApply (entryCma assetCma : Cma) (p : DialogPayload)
  (selectedContentIds selectedMediaIds : list string)
  (preservePublishState : bool) (esched asched : list nat) : ApplyOutcome :=
  if (List.length (payloadTargetTagIds p) =? 0)%nat then
    ApplyError "No valid Contentful Tag IDs were resolved. Nothing to apply."
  else if (List.length selectedContentIds + List.length selectedMediaIds =? 0)%nat
  then ApplyError "Nothing selected."
  else
    let contentById := rowsById (contentRows p) in
    let mediaById := rowsById (mediaRows p) in
    let actionableContentIds := actionableIds contentById selectedContentIds in
    let actionableMediaIds := actionableIds mediaById selectedMediaIds in
    if (List.length actionableContentIds =? 0)%nat
       && (List.length actionableMediaIds =? 0)%nat
    then NothingToUpdate
    else
      match applyCollection entryCma contentById (payloadTargetTagIds p)
                            preservePublishState esched actionableContentIds
      with
      | Some (Ok entriesT) =>
          match applyCollection assetCma mediaById (payloadTargetTagIds p)
                                preservePublishState asched actionableMediaIds
          with
          | Some (Ok assetsT) => Done (mkApplySummary entriesT assetsT)
          | Some (Throw e) => ApplyError (thrownMessage e)
          | None => StillRunning
          end
      | Some (Throw e) => ApplyError (thrownMessage e)
      | None => StillRunning
      end.

(** A repository for the examples: every item is published, every [get]
    and [update] succeeds, and [publish] fails for the item [E2]. *)
Definition sampleCma : Cma :=
  mkCma (fun id => Ok (sampleEntry "page" ["t0"] [] []))
        (fun _ payload => Ok payload)
        (fun id _ => if id =? "E2"
                     then Throw (JObj [("message", JStr "Validation error")])
                     else Ok JNull).

Definition sampleDialog : DialogPayload :=
  mkDialogPayload ["t1"]
    [mkDialogRow "E1" false true; mkDialogRow "E2" false true;
     mkDialogRow "E3" false false; mkDialogRow "E4" true false]
    [mkDialogRow "M1" false true].

(* ================================================================== *)
(** * Further definitions: the rest of the two locations *)

(** [stopsAt value l]: the walk of [deepExtractLinks] over [value] comes to
    the link object [l] and stops there: [l] is [value] itself, or the walk
    comes to it from an element of the array, or a property value of the
    object, that [value] is, [value] being no link. *)
Inductive stopsAt : jsval -> jsval -> Prop :=
| stops_here l :
    isEntryLink l || isAssetLink l = true -> stopsAt l l
| stops_in_array xs x l :
    isEntryLink (JArr xs) || isAssetLink (JArr xs) = false ->
    In x xs -> stopsAt x l -> stopsAt (JArr xs) l
| stops_in_object kvs kv l :
    isEntryLink (JObj kvs) || isAssetLink (JObj kvs) = false ->
    In kv kvs -> stopsAt (snd kv) l -> stopsAt (JObj kvs) l.

(** The sets [b] hold what the sets [a] hold, without repetition when [a]
    had none. *)
Definition growsTo (a b : LinkSets) : Prop :=
  incl (entryIds a) (entryIds b) /\ incl (assetIds a) (assetIds b) /\
  (NoDup (entryIds a) -> NoDup (entryIds b)) /\
  (NoDup (assetIds a) -> NoDup (assetIds b)).

(** A worker for the examples: each call waits once and then fulfils with
    its item marked. *)
Definition markStart (item : string) (s : unit) : unit * wstatus string string :=
  (s, Pending item).

Definition markResume (item : string) (s : unit) : unit * wstatus string string :=
  (s, Fulfilled (item ++ "!")%string).

(** What the crawl keeps true of the asset set: it holds the assets linked
    from every entry in [done] that was expanded. *)
Definition assetsInv (getEntry : string -> result jsval) (locale : string)
  (config : InstallConfig) (done : list QItem) (st : CrawlState) : Prop :=
  forall y e a,
    In y done -> getEntry (qid y) = Ok e ->
    isExcluded config e = false -> depthReached config (depth y) = false ->
    In a (assetIds (linksOf locale e)) ->
    In a (visitedAssets st).

(** [get] serves the item with a [publishedVersion]: it was published when
    the worker read it. *)
Definition servedPublished (cma : Cma) (id : string) : bool :=
  match cmaGet cma id with
  | Ok entity => truthy (sys_prop "publishedVersion" entity)
  | Throw _ => false
  end.

(** Some query for a content type among [cts] and a link field among
    [fieldIds] was answered with an item whose id is the string [id]. *)
Definition servedBy (getMany : EntryQuery) (locationId : string)
  (cts fieldIds : list string) (id : string) : Prop :=
  exists ct f skip items item,
    In ct cts /\ In f fieldIds /\
    getMany ct f locationId skip = Ok items /\
    In item items /\ sys_prop "id" item = JStr id.

(** How the two sets of the root resolver, [rootEntryIds] and [ctRootIds],
    change over a loop: both only grow, without repetition, by ids that
    come [from] the repository, and the second stays within the first. *)
Definition rootsGrow (from : string -> Prop) (st st' : JSet * JSet) : Prop :=
  incl (fst st) (fst st') /\ incl (snd st) (snd st') /\
  (NoDup (fst st) -> NoDup (fst st')) /\
  (NoDup (snd st) -> NoDup (snd st')) /\
  (forall id, In id (fst st') -> In id (fst st) \/ from id) /\
  (forall id, In id (snd st') -> In id (snd st) \/ from id) /\
  (incl (snd st) (fst st) -> incl (snd st') (fst st')).

(** A configuration with one root content type, for the examples. *)
Definition homeConfig : InstallConfig :=
  mkInstallConfig [] true true ByName 2 2 ["pageHome"] ["location"; "locations"].

(** A tag as [tag.getMany] lists it, and a listing for the examples: one
    short page on which the name [News] comes twice. *)
Definition sampleTag (id name : string) : jsval :=
  JObj [("sys", JObj [("id", JStr id)]); ("name", JStr name)].

Definition sampleTagPage : nat -> result (list jsval) :=
  fun skip =>
    if (skip =? 0)%nat
    then Ok [sampleTag "t1" "News"; sampleTag "t2" "Sport"; sampleTag "t3" "News"]
    else Ok [].

(* ================================================================== *)
(** * Strings: [trim] and [split] *)

(** A string is the sequence of the bytes of its UTF-8 encoding.  These
    are the encodings of the code points [trim] removes, the WhiteSpace and
    LineTerminator code points of ECMAScript: TAB, LF, VT, FF, CR, SP,
    U+00A0, U+1680, U+2000 to U+200A, U+2028, U+2029, U+202F, U+205F,
    U+3000 and U+FEFF. *)
Definition bytes (codes : list nat) : string :=
  string_of_list_ascii (map ascii_of_nat codes).

Definition whiteSpace : list string :=
  [bytes [9]; bytes [10]; bytes [11]; bytes [12]; bytes [13]; bytes [32];
   bytes [194; 160]; bytes [225; 154; 128];
   bytes [226; 128; 128]; bytes [226; 128; 129]; bytes [226; 128; 130];
   bytes [226; 128; 131]; bytes [226; 128; 132]; bytes [226; 128; 133];
   bytes [226; 128; 134]; bytes [226; 128; 135]; bytes [226; 128; 136];
   bytes [226; 128; 137]; bytes [226; 128; 138];
   bytes [226; 128; 168]; bytes [226; 128; 169]; bytes [226; 128; 175];
   bytes [226; 129; 159]; bytes [227; 128; 128]; bytes [239; 187; 191]].

(** [s] without the prefix [p], when it has it. *)
Fixpoint dropPrefix (p s : string) : option string :=
  match p, s with
  | EmptyString, _ => Some s
  | String a p', String b s' => if Ascii.eqb a b then dropPrefix p' s' else None
  | String _ _, EmptyString => None
  end.

(** [s] without the white space code point it starts with, if any. *)
Fixpoint stripOneOf (codes : list string) (s : string) : option string :=
  match codes with
  | [] => None
  | w :: rest =>
      match dropPrefix w s with
      | Some r => Some r
      | None => stripOneOf rest s
      end
  end.

Definition stripSpace (s : string) : option string := stripOneOf whiteSpace s.

(** [s.trimStart()]: at most one code point goes with each byte of [s]. *)
Fixpoint trimStartN (n : nat) (s : string) : string :=
  match n with
  | 0 => s
  | S n' =>
      match stripSpace s with
      | Some r => trimStartN n' r
      | None => s
      end
  end.

Definition trimStart (s : string) : string := trimStartN (String.length s) s.

(** [s.trimEnd()]: the string up to the point from which all is white
    space. *)
Fixpoint trimEnd (s : string) : string :=
  match s with
  | EmptyString => EmptyString
  | String c rest =>
      if trimStart s =? "" then EmptyString else String c (trimEnd rest)
  end.

(** [s.trim()]. *)
Definition trim (s : string) : string := trimEnd (trimStart s).

(** [s.split(re)] for a regular expression [re] that matches one
    character, those [sep] holds of. *)
Fixpoint split (sep : ascii -> bool) (s : string) : list string :=
  match s with
  | EmptyString => [EmptyString]
  | String c rest =>
      if sep c then EmptyString :: split sep rest
      else
        match split sep rest with
        | piece :: pieces => String c piece :: pieces
        | [] => [String c EmptyString]
        end
  end.

(** The class [[\n,]]. *)
Definition isCsvSeparator (c : ascii) : bool :=
  Ascii.eqb c "010"%char || Ascii.eqb c ","%char.

(** [parseCsv(value)]; [None] is an argument that is undefined. *)
Definition parseCsv (value : option string) : list string :=
  match value with
  | None => []
  | Some s =>
      if s =? "" then []
      else filter (fun piece => negb (piece =? ""))
                  (map trim (split isCsvSeparator s))
  end.

(** [xs.join(',')]. *)
Definition joinCsv (xs : list string) : string := String.concat "," xs.

(** No character of [s] is a separator. *)
Fixpoint separatorFree (s : string) : bool :=
  match s with
  | EmptyString => true
  | String c rest => negb (isCsvSeparator c) && separatorFree rest
  end.

(** A string that is white space from end to end. *)
Inductive spaces : string -> Prop :=
| spaces_none : spaces EmptyString
| spaces_more w s : In w whiteSpace -> spaces s -> spaces (w ++ s)%string.

(** What [parseCsv] returns: not empty, trimmed, without separator. *)
Definition cleanCsvItem (e : string) : Prop :=
  e <> "" /\ trim e = e /\ separatorFree e = true.

(* ================================================================== *)
(** * Location tags *)

(** [typeof value === 'string' && value.trim()], for the localized value of
    the field [tag] of an entry. *)
Definition tagValueOf (locale : string) (entry : jsval) : option string :=
  match getLocalizedFieldValue (prop "tag" (prop "fields" entry)) locale with
  | JStr s => if trim s =? "" then None else Some s
  | _ => None
  end.

(** What one turn of the loop of [resolveLocationTagsByIds] finds for an
    id: the tag of the entry, or nothing when the request fails or the
    entry has no tag. *)
Definition locationTag (getEntry : string -> result jsval) (locale : string)
  (id : string) : option string :=
  match getEntry id with
  | Ok entry => tagValueOf locale entry
  | Throw _ => None
  end.

(** The loop [for (const id of locationIds)], on [tags] and [notFound]. *)
Fixpoint locationTagsLoop (getEntry : string -> result jsval) (locale : string)
  (ids tags notFound : list string) : list string * list string :=
  match ids with
  | [] => (tags, notFound)
  | id :: rest =>
      match getEntry id with
      | Ok entry =>
          match tagValueOf locale entry with
          | Some value =>
              locationTagsLoop getEntry locale rest (tags ++ [value]) notFound
          | None =>
              locationTagsLoop getEntry locale rest tags (notFound ++ [id])
          end
      | Throw _ =>
          locationTagsLoop getEntry locale rest tags (notFound ++ [id])
      end
  end.

(** [resolveLocationTagsByIds(sdk, locationIds, locale)]: the distinct tags
    and the ids without one. *)
Definition resolveLocationTagsByIds (getEntry : string -> result jsval)
  (locationIds : list string) (locale : string) : JSet * list string :=
  let r := locationTagsLoop getEntry locale locationIds [] [] in
  (set_of_list (fst r), snd r).

(** Locations for the examples: [L1] and [L3] have the tag [Berlin], [L2]
    has a blank tag, and any other id is not served. *)
Definition sampleLocation (tag : string) : jsval :=
  JObj [("sys", JObj [("id", JStr "loc")]);
        ("fields", JObj [("tag", JObj [("en-US", JStr tag)])])].

Definition sampleLocations : string -> result jsval :=
  fun id =>
    if (id =? "L1") || (id =? "L3") then Ok (sampleLocation "Berlin")
    else if id =? "L2" then Ok (sampleLocation "  ")
    else Throw notFound.

(* ================================================================== *)
(** * The dialog: rows and selection *)

(** [toggleId(list, id)]. *)
Definition toggleId (ids : list string) (id : string) : list string :=
  if set_has id ids then filter (fun x => negb (x =? id)) ids
  else ids ++ [id].

(** [rows.filter((r) => !r.excluded && r.willAdd)]: the rows the dialog
    lists, each with a checkbox. *)
Definition actionableRows (rows : list DialogRow) : list DialogRow :=
  filter (fun r => negb (rowExcluded r) && willAdd r) rows.

(** [actionableRows.map((r) => r.id)]: the initial selection, and what
    [Select all] selects. *)
Definition selectableIds (rows : list DialogRow) : list string :=
  map rowId (actionableRows rows).

(** What the user does to the selection of one column: [Select all],
    [Clear], or the checkbox of the [i]th listed row. *)
Inductive UiEvent : Type :=
| SelectAll
| ClearAll
| ToggleRow (i : nat).

(** The handlers [setSelected...Ids(...)] of the three controls. *)
Definition onUiEvent (rows : list DialogRow) (selected : list string)
  (ev : UiEvent) : list string :=
  match ev with
  | SelectAll => selectableIds rows
  | ClearAll => []
  | ToggleRow i =>
      match nth_error (actionableRows rows) i with
      | Some r => toggleId selected (rowId r)
      | None => selected
      end
  end.

(** The selection after a sequence of events, from the initial one. *)
Definition selectionAfter (rows : list DialogRow) (events : list UiEvent)
  : list string :=
  fold_left (onUiEvent rows) events (selectableIds rows).

(** The rows [openDetailsDialog] makes of the entries of a scan. *)
Record ContentRow : Type := mkContentRow {
  crId : string;
  crTitle : jsval;
  crContentType : jsval;
  crExcluded : bool;
  crExcludedReason : option ExcludedReason;
  crWillAdd : bool;
  crAlreadyOk : bool
}.

(** The callback of [.map((e) => ({...}))]. *)
Definition contentRowOf (e : EntryScanRow) : ContentRow :=
  mkContentRow (entryId e) (entryTitle e) (contentType e) (entryExcluded e)
    (excludedReason e)
    (negb (entryExcluded e) && (0 <? List.length (entryMissingTagIds e))%nat)
    (negb (entryExcluded e) && (List.length (entryMissingTagIds e) =? 0)%nat).

(** The callback of [.filter((r) => ...)] with its set [seen]: the first
    row of each id. *)
Fixpoint firstOfEachId (seen : JSet) (rows : list ContentRow)
  : list ContentRow :=
  match rows with
  | [] => []
  | r :: rest =>
      if set_has (crId r) seen then firstOfEachId seen rest
      else r :: firstOfEachId (set_add (crId r) seen) rest
  end.

(** [contentRows] of [openDetailsDialog].  The order [sort] gives with the
    comparator [localeCompare] is that of the collation of the browser;
    [sorted] stands for the array it returns. *)
Definition contentRowsOf (sorted : list EntryScanRow -> list EntryScanRow)
  (entries : list EntryScanRow) : list ContentRow :=
  firstOfEachId [] (map contentRowOf (sorted entries)).

(** What the dialog reads of such a row. *)
Definition asDialogRow (r : ContentRow) : DialogRow :=
  mkDialogRow (crId r) (crExcluded r) (crWillAdd r).

(** Two rows of a scan for the examples: the first misses a tag, the
    second is excluded. *)
Definition sampleScanRows : list EntryScanRow :=
  [mkEntryScanRow "R1" (JStr "page") (JStr "Home") false None [] ["t1"];
   mkEntryScanRow "R2" (JStr "teaser") (JStr "Teaser") true
                  (Some ReasonExcludedContentType) [] []].

(** The requests a waiting worker call of the apply run still makes. *)
Definition applyStepsLeft (k : ApplyWait) : nat :=
  match k with
  | AwaitGet _ => 3
  | AwaitUpdate _ _ _ => 2
  | AwaitPublish _ _ => 1
  end.

(* ================================================================== *)
(** * Properties of the value model and of link extraction *)

Lemma set_has_In (x : string) (s : JSet) : set_has x s = true <-> In x s.
Proof.
  unfold set_has. rewrite existsb_exists. split.
  - intros [y [Hy He]]. apply String.eqb_eq in He. now subst.
  - intros H. exists x. split; [assumption | apply String.eqb_refl].
Qed.

Lemma set_has_false (x : string) (s : JSet) : set_has x s = false <-> ~ In x s.
Proof.
  rewrite <- set_has_In. destruct (set_has x s); split; intros; congruence.
Qed.

Lemma set_add_In (x y : string) (s : JSet) :
  In y (set_add x s) <-> y = x \/ In y s.
Proof.
  unfold set_add. destruct (set_has x s) eqn:E.
  - apply set_has_In in E. split; [tauto | intros [-> | H]; assumption].
  - rewrite in_app_iff. simpl. split; intros H.
    + destruct H as [H | [H | []]]; [right | left]; auto.
    + destruct H as [H | H]; [right; left; auto | left; assumption].
Qed.

Lemma set_add_NoDup (x : string) (s : JSet) : NoDup s -> NoDup (set_add x s).
Proof.
  intros H. unfold set_add. destruct (set_has x s) eqn:E; [assumption |].
  apply set_has_false in E.
  apply NoDup_rev in H. rewrite <- (rev_involutive (s ++ [x])).
  apply NoDup_rev. rewrite rev_app_distr. simpl. constructor.
  - now rewrite <- in_rev.
  - assumption.
Qed.

Lemma set_add_incl (x : string) (s : JSet) : incl s (set_add x s).
Proof. intros y H. apply set_add_In. now right. Qed.

Lemma set_of_list_fold_In (xs : list string) (acc : JSet) (y : string) :
  In y (fold_left (fun s x => set_add x s) xs acc) <-> In y xs \/ In y acc.
Proof.
  revert acc. induction xs as [| x xs IH]; intros acc; simpl.
  - tauto.
  - rewrite IH, set_add_In. intuition congruence.
Qed.

Lemma set_of_list_fold_NoDup (xs : list string) (acc : JSet) :
  NoDup acc -> NoDup (fold_left (fun s x => set_add x s) xs acc).
Proof.
  revert acc. induction xs as [| x xs IH]; intros acc H; simpl; [assumption |].
  apply IH, set_add_NoDup, H.
Qed.

Lemma set_of_list_In (xs : list string) (y : string) :
  In y (set_of_list xs) <-> In y xs.
Proof. unfold set_of_list. rewrite set_of_list_fold_In. simpl. tauto. Qed.

Lemma set_of_list_NoDup (xs : list string) : NoDup (set_of_list xs).
Proof. apply set_of_list_fold_NoDup. constructor. Qed.

(** Structural induction on values, with the elements of an array and the
    property values of an object as induction hypotheses. *)
Lemma jsval_rect' (P : jsval -> Prop) :
  P JUndef -> P JNull -> (forall b, P (JBool b)) -> (forall n, P (JNum n)) ->
  (forall s, P (JStr s)) ->
  (forall xs, Forall P xs -> P (JArr xs)) ->
  (forall kvs, Forall (fun kv => P (snd kv)) kvs -> P (JObj kvs)) ->
  forall v, P v.
Proof.
  intros Hu Hn Hb Hz Hs Ha Ho.
  fix IH 1. intros [| | b | n | s | xs | kvs].
  - exact Hu.
  - exact Hn.
  - apply Hb.
  - apply Hz.
  - apply Hs.
  - apply Ha. induction xs as [| x xs IHxs]; constructor;
      [apply IH | exact IHxs].
  - apply Ho. induction kvs as [| [k x] kvs IHkvs]; constructor;
      [apply IH | exact IHkvs].
Qed.

Lemma deepExtractLinks_eq (value : jsval) (out : LinkSets) :
  deepExtractLinks value out =
  if negb (truthy value) then out
  else if isEntryLink value then addEntry (sys_prop "id" value) out
  else if isAssetLink value then addAsset (sys_prop "id" value) out
  else match value with
       | JArr xs => extractEach xs out
       | JObj kvs => extractEach (map snd kvs) out
       | _ => out
       end.
Proof.
  destruct value as [| | b | n | s | xs | kvs]; try reflexivity.
  simpl. destruct (isEntryLink (JObj kvs)); [reflexivity |].
  destruct (isAssetLink (JObj kvs)); [reflexivity |].
  unfold extractEach. revert out.
  induction kvs as [| [k x] kvs IH]; intros out; simpl;
    [reflexivity | apply IH].
Qed.

(** With distinct keys, reading [value[k]] for every key of an object gives
    its property values in order. *)
Lemma keys_values (kvs : list (string * jsval)) :
  NoDup (map fst kvs) ->
  map (fun k => prop k (JObj kvs)) (keys (JObj kvs)) = map snd kvs.
Proof.
  unfold prop, keys. simpl.
  induction kvs as [| [k v] kvs IH]; intros H; simpl; [reflexivity |].
  inversion H as [| ? ? Hk Hrest]; subst.
  rewrite String.eqb_refl. f_equal.
  rewrite <- (IH Hrest). apply map_ext_in.
  intros k' Hin. destruct (String.eqb_spec k k') as [-> | _];
    [contradiction | reflexivity].
Qed.


Lemma extractEach_app (xs ys : list jsval) (out : LinkSets) :
  extractEach (xs ++ ys) out = extractEach ys (extractEach xs out).
Proof. unfold extractEach. apply fold_left_app. Qed.

(** A link is found under any number of arrays: the walk has no depth
    limit of its own. *)
Lemma deepExtractLinks_nested (n : nat) (out : LinkSets) :
  deepExtractLinks (nested n (entryLink "e1")) out = addEntry (JStr "e1") out.
Proof.
  induction n as [| n IH]; [reflexivity |].
  simpl nested. rewrite deepExtractLinks_eq. simpl. exact IH.
Qed.

(* ================================================================== *)
(** * Properties of link extraction over an object graph *)

Module ObjectGraphFacts.
Import ObjectGraph.

Section Representation.
Variable h : heap.












End Representation.


Lemma deepLinkHeap_represents :
  represents deepLinkHeap (HRef 0) (nested 2 (entryLink "e1")).
Proof.
  repeat (econstructor; try reflexivity).
Qed.



End ObjectGraphFacts.

(* ================================================================== *)
(** * Properties of the root resolver *)

Section RootResolver.
Variable getMany : EntryQuery.
Variable locationId : string.

Lemma pageLoop_unknown_field (fuel skip : nat) (page : nat -> result (list jsval))
  (e : jsval) (st : JSet * JSet) :
  page skip = Throw e -> isUnknownField e = true ->
  pageLoop (S fuel) page skip st = Some (Ok st).
Proof. intros Hp He. simpl. now rewrite Hp, He. Qed.

Lemma pageLoop_other_failure (fuel skip : nat)
  (page : nat -> result (list jsval)) (e : jsval) (st : JSet * JSet) :
  page skip = Throw e -> isUnknownField e = false ->
  pageLoop (S fuel) page skip st = Some (Throw e).
Proof. intros Hp He. simpl. now rewrite Hp, He. Qed.

(** The loop runs through the full pages and hands the rest of its budget
    to the page after them. *)
Lemma pageLoop_full_pages (page : nat -> result (list jsval))
  (ps : list (list jsval)) :
  forall (fuel skip : nat) (st : JSet * JSet),
    servesPages page skip ps ->
    pageLoop (List.length ps + fuel) page skip st
    = pageLoop fuel page (skip + List.length ps * limit)
        (fold_left addRoot (List.concat ps) st).
Proof.
  induction ps as [| p ps IH]; intros fuel skip st Hs; simpl.
  - now rewrite Nat.add_0_r.
  - destruct Hs as [Hp [Hlen Hrest]]. rewrite Hp, Hlen.
    change (limit =? 0)%nat with false. rewrite Nat.ltb_irrefl.
    rewrite (IH fuel (skip + limit) _ Hrest), fold_left_app.
    f_equal. unfold limit. lia.
Qed.

Lemma pageLoop_short_page (fuel skip : nat) (page : nat -> result (list jsval))
  (items : list jsval) (st : JSet * JSet) :
  page skip = Ok items -> List.length items < limit ->
  pageLoop (S fuel) page skip st = Some (Ok (fold_left addRoot items st)).
Proof.
  intros Hp Hlen. simpl. rewrite Hp.
  destruct (Nat.eqb_spec (List.length items) 0) as [E | _].
  - destruct items; [reflexivity | discriminate].
  - apply Nat.ltb_lt in Hlen. now rewrite Hlen.
Qed.

Lemma pageLoop_stops_on_short_page (page : nat -> result (list jsval))
  (ps : list (list jsval)) (last : list jsval) (fuel : nat)
  (st : JSet * JSet) :
  servesPages page 0 ps ->
  page (List.length ps * limit) = Ok last -> List.length last < limit ->
  List.length ps < fuel ->
  pageLoop fuel page 0 st
  = Some (Ok (fold_left addRoot (List.concat ps ++ last) st)).
Proof.
  intros Hs Hp Hlen Hfuel.
  replace fuel with (List.length ps + S (fuel - S (List.length ps))) by lia.
  rewrite (pageLoop_full_pages page ps _ 0 st Hs). simpl Nat.add.
  rewrite (pageLoop_short_page _ _ page last _ Hp Hlen).
  now rewrite fold_left_app.
Qed.

Lemma pageLoop_failure_after_pages (page : nat -> result (list jsval))
  (ps : list (list jsval)) (e : jsval) (fuel : nat) (st : JSet * JSet) :
  servesPages page 0 ps ->
  page (List.length ps * limit) = Throw e ->
  List.length ps < fuel ->
  pageLoop fuel page 0 st
  = Some (if isUnknownField e
          then Ok (fold_left addRoot (List.concat ps) st)
          else Throw e).
Proof.
  intros Hs Hp Hfuel.
  replace fuel with (List.length ps + S (fuel - S (List.length ps))) by lia.
  rewrite (pageLoop_full_pages page ps _ 0 st Hs). simpl Nat.add.
  simpl. rewrite Hp. now destruct (isUnknownField e).
Qed.

Lemma fieldLoop_app (fuel : nat) (ct : string) (fs1 fs2 : list string) :
  forall st : JSet * JSet,
    fieldLoop fuel getMany locationId ct (fs1 ++ fs2) st
    = bind (fieldLoop fuel getMany locationId ct fs1 st)
           (fieldLoop fuel getMany locationId ct fs2).
Proof.
  induction fs1 as [| f fs1 IH]; intros st; simpl; [reflexivity |].
  destruct (pageLoop fuel (getMany ct f locationId) 0 st) as [[st' | e] |];
    simpl; [apply IH | reflexivity | reflexivity].
Qed.

Lemma typeLoop_app (fuel : nat) (fieldIds cts1 cts2 : list string) :
  forall st : JSet * list (string * nat),
    typeLoop fuel getMany locationId fieldIds (cts1 ++ cts2) st
    = bind (typeLoop fuel getMany locationId fieldIds cts1 st)
           (typeLoop fuel getMany locationId fieldIds cts2).
Proof.
  induction cts1 as [| ct cts1 IH]; intros st; simpl; [reflexivity |].
  destruct (fieldLoop fuel getMany locationId ct fieldIds (fst st, []))
    as [[r | e] |]; simpl; [apply IH | reflexivity | reflexivity].
Qed.

(** A value thrown by the loop of one combination is what the resolver
    throws. *)
Lemma resolver_propagates (fuel : nat) (config : InstallConfig)
  (cts1 cts2 fs1 fs2 : list string) (ct f : string)
  (r1 : JSet * list (string * nat)) (st1 : JSet * JSet) (e : jsval) :
  rootContentTypes config = cts1 ++ ct :: cts2 ->
  locationLinkFieldIds config = fs1 ++ f :: fs2 ->
  typeLoop fuel getMany locationId (locationLinkFieldIds config) cts1 ([], [])
  = Some (Ok r1) ->
  fieldLoop fuel getMany locationId ct fs1 (fst r1, []) = Some (Ok st1) ->
  pageLoop fuel (getMany ct f locationId) 0 st1 = Some (Throw e) ->
  findRootPagesForLocation fuel getMany locationId config = Some (Throw e).
Proof.
  intros Hcts Hfs H1 H2 H3. unfold findRootPagesForLocation.
  rewrite Hcts, typeLoop_app, H1. simpl.
  rewrite Hfs, fieldLoop_app, H2. simpl.
  now rewrite H3.
Qed.

End RootResolver.

Example findRootPagesForLocation_sample :
  findRootPagesForLocation 3 sampleQuery "loc1"
    (mkInstallConfig [] true true ByName 2 2 ["pageHome"]
                     ["location"; "locations"])
  = Some (Ok (["h1"; "h2"], [("pageHome", 2)])).
Proof. vm_compute. reflexivity. Qed.

(** C8.  In anchor mode, for every content type and link field: a query
    that fails with the unknown-field condition ends the combination without
    a match and without an error; a query that fails in any other way, on a
    page the loop reaches, makes the root resolver throw that failure; and
    the loop reads on past every full page and stops at the first short
    one, having taken the ids of exactly those pages. *)
Theorem findRootPagesForLocation_failures_and_pagination
  (getMany : EntryQuery) (locationId : string) :
  (forall (ct f : string) (fuel : nat) (e : jsval) (st : JSet * JSet),
      getMany ct f locationId 0 = Throw e -> isUnknownField e = true ->
      pageLoop (S fuel) (getMany ct f locationId) 0 st = Some (Ok st)) /\
  (forall (ct f : string) (fuel : nat) (config : InstallConfig)
          (cts1 cts2 fs1 fs2 : list string)
          (r1 : JSet * list (string * nat)) (st1 : JSet * JSet)
          (ps : list (list jsval)) (e : jsval),
      rootContentTypes config = cts1 ++ ct :: cts2 ->
      locationLinkFieldIds config = fs1 ++ f :: fs2 ->
      typeLoop fuel getMany locationId (locationLinkFieldIds config) cts1
               ([], []) = Some (Ok r1) ->
      fieldLoop fuel getMany locationId ct fs1 (fst r1, []) = Some (Ok st1) ->
      servesPages (getMany ct f locationId) 0 ps ->
      getMany ct f locationId (List.length ps * limit) = Throw e ->
      isUnknownField e = false ->
      List.length ps < fuel ->
      findRootPagesForLocation fuel getMany locationId config
      = Some (Throw e)) /\
  (forall (ct f : string) (fuel : nat) (ps : list (list jsval))
          (last : list jsval) (st : JSet * JSet),
      servesPages (getMany ct f locationId) 0 ps ->
      getMany ct f locationId (List.length ps * limit) = Ok last ->
      List.length last < limit ->
      List.length ps < fuel ->
      pageLoop fuel (getMany ct f locationId) 0 st
      = Some (Ok (fold_left addRoot (List.concat ps ++ last) st))).
Proof.
  split; [| split].
  - intros ct f fuel e st Hq He. now apply pageLoop_unknown_field with e.
  - intros ct f fuel config cts1 cts2 fs1 fs2 r1 st1 ps e
           Hcts Hfs H1 H2 Hs Hq He Hfuel.
    apply (resolver_propagates getMany locationId fuel config
             cts1 cts2 fs1 fs2 ct f r1 st1 e Hcts Hfs H1 H2).
    rewrite (pageLoop_failure_after_pages _ ps e fuel st1 Hs Hq Hfuel).
    now rewrite He.
  - intros ct f fuel ps last st Hs Hq Hlen Hfuel.
    now apply pageLoop_stops_on_short_page.
Qed.

Lemma findRootPagesForLocation_failures_and_pagination_witness :
  pageLoop 1 (sampleQuery "pageHome" "locations" "loc1") 0 (["h1"], ["h1"])
  = Some (Ok (["h1"], ["h1"])) /\
  findRootPagesForLocation 3 sampleQuery "loc1" sampleConfig
  = Some (Throw (JObj [("message", JStr "Rate limit exceeded")])) /\
  pageLoop 3 (sampleQuery "pageHome" "location" "loc1") 0 ([], [])
  = Some (Ok (["h1"; "h2"], ["h1"; "h2"])).
Proof.
  pose proof (findRootPagesForLocation_failures_and_pagination
                sampleQuery "loc1") as [Hunknown [Hother Hpages]].
  split; [| split].
  - apply (Hunknown "pageHome" "locations" 0
             (JObj [("message", JStr "No field with id locations")]));
      reflexivity.
  - apply (Hother "pageEvent" "location" 3 sampleConfig
             ["pageHome"] [] [] ["locations"]
             (["h1"; "h2"], [("pageHome", 2)]) (["h1"; "h2"], []) []);
      try reflexivity; try exact I; simpl; lia.
  - apply (Hpages "pageHome" "location" 3
             [repeat (sampleItem "h1") limit] [sampleItem "h2"] ([], [])).
    + simpl. repeat split; reflexivity.
    + reflexivity.
    + unfold limit. simpl. lia.
    + simpl. lia.
Defined.

(* ================================================================== *)
(** * Properties of the tag resolver *)

Lemma lookupNames_nonempty (cache : list (string * string))
  (names : list string) :
  forall tagIds missing : list string,
    ~ In "" tagIds ->
    ~ In "" (fst (lookupNames cache names tagIds missing)).
Proof.
  induction names as [| name names IH]; intros tagIds missing Hne; simpl;
    [assumption |].
  destruct (map_get name cache) as [id |]; [| now apply IH].
  destruct (String.eqb_spec id "") as [-> | Hid]; [now apply IH |].
  apply IH. rewrite in_app_iff. simpl. intuition congruence.
Qed.

(** The target tag ids the scan hands to the dialog hold no empty id, and
    in id mode they are distinct and none is reported missing. *)
Lemma resolveTargetTagIds_ids (fuel : nat) (page : nat -> result (list jsval))
  (mode : TagMatchMode) (tagNamesOrIds tagIds missing : list string)
  (cache cache' : option (list (string * string))) :
  resolveTargetTagIds fuel page mode tagNamesOrIds cache
  = Some (Ok (tagIds, missing, cache')) ->
  ~ In "" tagIds /\
  (mode = ById -> NoDup tagIds /\ missing = [] /\ cache' = cache).
Proof.
  unfold resolveTargetTagIds. destruct mode.
  - intros H. split; [| discriminate].
    destruct (match cache with
              | Some c => Some (Ok c)
              | None => getAllTagsByName fuel page 0 []
              end) as [[c | e] |]; simpl in H; try discriminate.
    injection H as <- _ _. apply lookupNames_nonempty. intros [].
  - intros [= <- <- <-]. split.
    + rewrite set_of_list_In, filter_In. intros [_ H]. discriminate.
    + intros _. split; [apply set_of_list_NoDup | auto].
Qed.

(* ================================================================== *)
(** * Properties of the promise pool *)

Lemma set_nth_length {A : Type} (i : nat) (x : A) (xs : list A) :
  List.length (set_nth i x xs) = List.length xs.
Proof.
  revert i. induction xs as [| y xs IH]; intros [| i]; simpl; auto.
Qed.

Lemma set_nth_In {A : Type} (i : nat) (x z : A) (xs : list A) :
  In z (set_nth i x xs) -> z = x \/ In z xs.
Proof.
  revert i. induction xs as [| y xs IH]; intros [| i]; simpl; auto.
  - intros [<- | H]; auto.
  - intros [<- | H]; auto. destruct (IH i H); auto.
Qed.

Lemma set_nth_same {A : Type} (i : nat) (x y : A) (xs : list A) :
  nth_error xs i = Some y -> nth_error (set_nth i x xs) i = Some x.
Proof.
  revert i. induction xs as [| z xs IH]; intros [| i]; simpl;
    try discriminate; auto.
Qed.

Lemma set_nth_other {A : Type} (i j : nat) (x : A) (xs : list A) :
  i <> j -> nth_error (set_nth i x xs) j = nth_error xs j.
Proof.
  revert i j. induction xs as [| z xs IH]; intros [| i] [| j] H; simpl;
    auto; try congruence.
Qed.

(** Replacing the runner at [r] changes a sum over the runners by the
    difference of the two summands. *)
Lemma set_nth_sum {A : Type} (f : A -> nat) (r : nat) (x y : A) (xs : list A) :
  nth_error xs r = Some y ->
  list_sum (map f (set_nth r x xs)) + f y = list_sum (map f xs) + f x.
Proof.
  revert r. induction xs as [| z xs IH]; intros [| r]; simpl;
    try discriminate.
  - intros [= ->]. lia.
  - intros H. specialize (IH r H). lia.
Qed.

Lemma In_set_nth_keep {A : Type} (r : nat) (x y z : A) (xs : list A) :
  In x xs -> nth_error xs r = Some y -> x = y \/ In x (set_nth r z xs).
Proof.
  intros Hin Hr. destruct (In_nth_error _ _ Hin) as [j Hj].
  destruct (Nat.eq_dec r j) as [-> | Hne].
  - left. congruence.
  - right. apply nth_error_In with j. now rewrite set_nth_other.
Qed.

Lemma nth_error_set_nth {A : Type} (i j : nat) (a b : A) (xs : list A) :
  nth_error (set_nth i a xs) j = Some b ->
  (j = i /\ b = a) \/ nth_error xs j = Some b.
Proof.
  intros H. destruct (Nat.eq_dec i j) as [-> | Hne].
  - destruct (nth_error xs j) as [y |] eqn:E.
    + rewrite (set_nth_same _ a y _ E) in H. left. split; congruence.
    + apply nth_error_None in E. rewrite <- (set_nth_length j a xs) in E.
      apply nth_error_None in E. congruence.
  - right. now rewrite set_nth_other in H.
Qed.

Lemma set_nth_keeps_some {A : Type} (i j : nat) (a b : A) (xs : list A) :
  nth_error xs j = Some b ->
  exists c, nth_error (set_nth i a xs) j = Some c /\ (c = b \/ (j = i /\ c = a)).
Proof.
  intros H. destruct (Nat.eq_dec i j) as [-> | Hne].
  - exists a. split; [now apply set_nth_same with b | right; now split].
  - exists b. split; [now rewrite set_nth_other | now left].
Qed.

Lemma Forall2_pointwise {A B : Type} (P : A -> B -> Prop) (xs : list A) :
  forall ys : list B,
    List.length xs = List.length ys ->
    (forall i x, nth_error xs i = Some x ->
                 exists y, nth_error ys i = Some y /\ P x y) ->
    Forall2 P xs ys.
Proof.
  induction xs as [| x xs IH]; intros [| y ys] Hlen H; simpl in Hlen;
    try discriminate; constructor.
  - destruct (H 0 x eq_refl) as [y' [[= <-] Hp]]. exact Hp.
  - apply IH; [lia |]. intros i x' Hx. exact (H (S i) x' Hx).
Qed.

Section PoolFacts.
Context {T W R St : Type}.
Variable start : T -> St -> St * wstatus W R.
Variable resume : W -> St -> St * wstatus W R.
Variable items : list T.

Local Abbreviation claim' := (claim start items).
Local Abbreviation step' := (step start resume items).
Local Abbreviation spawn' := (spawn start items).
Local Abbreviation poolStart' := (poolStart start items).
Local Abbreviation promisePool' := (promisePool start resume items).

(** A property of pools that holds of the empty pool, and still holds after
    a runner is added and after any event, holds of every pool a schedule
    leads to. *)
Lemma pool_induction (P : pool W R St -> Prop) (concurrency : Z) (s0 : St) :
  P (mkPool 0 (repeat None (List.length items)) [] s0 None []) ->
  (forall p, P p ->
     let (p', x) := claim' p in
     P (mkPool (idx p') (results p') (runners p' ++ [x]) (shared p')
               (rejection p') (started p'))) ->
  (forall p r, P p -> P (step' r p)) ->
  forall sched, P (promisePool' sched concurrency s0).
Proof.
  intros H0 Hclaim Hstep sched. unfold promisePool.
  assert (Hs : P (poolStart' concurrency s0)).
  { unfold poolStart.
    generalize (Z.to_nat (Z.max 1 concurrency)) as n.
    generalize dependent (mkPool (W:=W) (R:=R) 0
                            (repeat None (List.length items)) [] s0 None []).
    intros p Hp n. revert p Hp.
    induction n as [| n IH]; intros p Hp; simpl; [assumption |].
    specialize (Hclaim p Hp). destruct (claim' p) as [p' x]. now apply IH. }
  revert Hs. generalize (poolStart' concurrency s0) as p.
  unfold runSchedule.
  induction sched as [| r sched IH]; intros p Hp; simpl; [assumption |].
  apply IH, Hstep, Hp.
Qed.

Local Abbreviation cursorInv' := (cursorInv (W:=W) (R:=R) (St:=St) items).

Lemma claim_cursor (p : pool W R St) :
  cursorInv' p ->
  cursorInv' (fst (claim' p)) /\
  (isFinished (snd (claim' p)) = true ->
   idx (fst (claim' p)) = List.length items) /\
  idx p <= idx (fst (claim' p)) /\
  runners (fst (claim' p)) = runners p /\
  results (fst (claim' p)) = results p.
Proof.
  intros [Hs [Hle [Hfin Hres]]]. unfold claim.
  destruct (nth_error items (idx p)) as [item |] eqn:E.
  - destruct (start item (shared p)) as [s w]. simpl.
    assert (Hlt : idx p < List.length items)
      by (apply nth_error_Some; congruence).
    split; [| split; [| split; [| split]]].
    + unfold cursorInv. simpl. split; [| split; [| split]].
      * rewrite Hs. symmetry. exact (seq_S (idx p) 0).
      * lia.
      * intros x Hx Hf. specialize (Hfin x Hx Hf). lia.
      * assumption.
    + discriminate.
    + lia.
    + reflexivity.
    + reflexivity.
  - simpl. apply nth_error_None in E.
    split; [| split; [| split; [| split]]]; try reflexivity; try lia.
    unfold cursorInv. auto.
Qed.

Lemma cursor_invariant (sched : list nat) (concurrency : Z) (s0 : St) :
  cursorInv' (promisePool' sched concurrency s0).
Proof.
  apply pool_induction.
  - unfold cursorInv. simpl.
    split; [reflexivity | split; [lia | split]];
      [intros x [] | apply repeat_length].
  - intros p Hp. destruct (claim_cursor p Hp) as [Hc [Hf [Hmono [Hr Hres]]]].
    destruct (claim' p) as [p' x]. simpl in *.
    destruct Hc as [Hs [Hle [Hfin Hlen]]].
    unfold cursorInv. simpl. repeat split; try assumption.
    intros y Hy Hfy. apply in_app_iff in Hy. destruct Hy as [Hy | [<- | []]].
    + now apply (Hfin y).
    + now apply Hf.
  - intros p r Hp. unfold step.
    destruct (nth_error (runners p) r) as [[i [k | v | e] | | e] |] eqn:E;
      try assumption.
    + destruct (resume k (shared p)) as [s w].
      destruct Hp as [Hs [Hle [Hfin Hlen]]].
      unfold cursorInv, set_runner. simpl. repeat split; try assumption.
      intros y Hy Hfy. apply set_nth_In in Hy. destruct Hy as [-> | Hy];
        [discriminate | now apply (Hfin y)].
    + set (q := mkPool (idx p) (set_nth i (Some v) (results p)) (runners p)
                       (shared p) (rejection p) (started p)).
      assert (Hq : cursorInv' q).
      { destruct Hp as [Hs [Hle [Hfin Hlen]]]. unfold cursorInv, q. simpl.
        repeat split; try assumption. now rewrite set_nth_length. }
      destruct (claim_cursor q Hq) as [Hc [Hf [Hmono [Hr Hres]]]].
      destruct (claim' q) as [p' x]. simpl in *.
      destruct Hc as [Hs [Hle [Hfin Hlen]]].
      unfold cursorInv, set_runner. simpl. repeat split; try assumption.
      intros y Hy Hfy. apply set_nth_In in Hy. destruct Hy as [-> | Hy].
      * now apply Hf.
      * now apply (Hfin y).
    + destruct Hp as [Hs [Hle [Hfin Hlen]]].
      unfold cursorInv, set_runner. simpl. repeat split; try assumption.
      intros y Hy Hfy. apply set_nth_In in Hy. destruct Hy as [-> | Hy];
        [discriminate | now apply (Hfin y)].
Qed.

(** There are [max(1, concurrency)] runners, at every moment. *)
Lemma runners_count (sched : list nat) (concurrency : Z) (s0 : St) :
  List.length (runners (promisePool' sched concurrency s0))
  = Z.to_nat (Z.max 1 concurrency).
Proof.
  unfold promisePool, poolStart.
  assert (Hspawn : forall n p,
             List.length (runners (spawn' n p)) = List.length (runners p) + n).
  { induction n as [| n IH]; intros p; simpl; [lia |].
    unfold claim.
    destruct (nth_error items (idx p)) as [item |].
    - destruct (start item (shared p)) as [s w]. rewrite IH. simpl.
      rewrite length_app. simpl. lia.
    - rewrite IH. simpl. rewrite length_app. simpl. lia. }
  assert (Hstep : forall r p,
             List.length (runners (step' r p)) = List.length (runners p)).
  { intros r p. unfold step.
    destruct (nth_error (runners p) r) as [[i [k | v | e] | | e] |];
      try reflexivity.
    - destruct (resume k (shared p)) as [s w]. simpl. apply set_nth_length.
    - unfold claim. simpl.
      destruct (nth_error items (idx p)) as [item |].
      + destruct (start item (shared p)) as [s w]. simpl.
        apply set_nth_length.
      + simpl. apply set_nth_length.
    - simpl. apply set_nth_length. }
  generalize (spawn' (Z.to_nat (Z.max 1 concurrency))
                (mkPool 0 (repeat None (List.length items)) [] s0 None []))
    (Hspawn (Z.to_nat (Z.max 1 concurrency))
            (mkPool 0 (repeat None (List.length items)) [] s0 None [])).
  simpl. intros p Hp. rewrite <- Hp. clear Hp.
  unfold runSchedule. revert p.
  induction sched as [| r sched IH]; intros p; simpl; [reflexivity |].
  now rewrite IH, Hstep.
Qed.

(** The same induction, with the events told apart: a runner is started
    on an item or with nothing left to claim; a worker call goes on by one
    step; a runner whose call fulfilled claims the next item or finishes; a
    runner whose call rejected is thrown out of its loop. *)
Lemma pool_cases (P : pool W R St -> Prop) (concurrency : Z) (s0 : St) :
  P (mkPool 0 (repeat None (List.length items)) [] s0 None []) ->
  (forall p item s w,
      P p -> nth_error items (idx p) = Some item ->
      start item (shared p) = (s, w) ->
      P (mkPool (S (idx p)) (results p) (runners p ++ [Awaiting (idx p) w]) s
                (rejection p) (started p ++ [idx p]))) ->
  (forall p,
      P p -> nth_error items (idx p) = None ->
      P (mkPool (idx p) (results p) (runners p ++ [Finished]) (shared p)
                (rejection p) (started p))) ->
  (forall p r i k s w,
      P p -> nth_error (runners p) r = Some (Awaiting i (Pending k)) ->
      resume k (shared p) = (s, w) ->
      P (mkPool (idx p) (results p) (set_nth r (Awaiting i w) (runners p)) s
                (rejection p) (started p))) ->
  (forall p r i v item s w,
      P p -> nth_error (runners p) r = Some (Awaiting i (Fulfilled v)) ->
      nth_error items (idx p) = Some item ->
      start item (shared p) = (s, w) ->
      P (mkPool (S (idx p)) (set_nth i (Some v) (results p))
                (set_nth r (Awaiting (idx p) w) (runners p)) s
                (rejection p) (started p ++ [idx p]))) ->
  (forall p r i v,
      P p -> nth_error (runners p) r = Some (Awaiting i (Fulfilled v)) ->
      nth_error items (idx p) = None ->
      P (mkPool (idx p) (set_nth i (Some v) (results p))
                (set_nth r Finished (runners p)) (shared p)
                (rejection p) (started p))) ->
  (forall p r i e,
      P p -> nth_error (runners p) r = Some (Awaiting i (Failed e)) ->
      P (mkPool (idx p) (results p) (set_nth r (Thrown e) (runners p))
                (shared p)
                (match rejection p with
                 | Some e0 => Some e0
                 | None => Some e
                 end) (started p))) ->
  forall sched, P (promisePool' sched concurrency s0).
Proof.
  intros H0 Hspawn Hidle Hresume Hnext Hfinish Hthrow.
  apply pool_induction; [assumption | |].
  - intros p Hp. unfold claim.
    destruct (nth_error items (idx p)) as [item |] eqn:E.
    + destruct (start item (shared p)) as [s w] eqn:Es. simpl.
      now apply Hspawn with item.
    + now apply Hidle.
  - intros p r Hp. unfold step.
    destruct (nth_error (runners p) r) as [[i [k | v | e] | | e] |] eqn:E;
      try assumption.
    + destruct (resume k (shared p)) as [s w] eqn:Es.
      unfold set_runner. simpl. eapply Hresume; eassumption.
    + unfold claim. simpl.
      destruct (nth_error items (idx p)) as [item |] eqn:Ei.
      * destruct (start item (shared p)) as [s w] eqn:Es.
        unfold set_runner. simpl. eapply Hnext; eassumption.
      * unfold set_runner. simpl. eapply Hfinish; eassumption.
    + unfold set_runner. simpl. eapply Hthrow; eassumption.
Qed.

(** [Promise.all] has seen a rejection exactly when a runner was thrown
    out of its loop. *)
Lemma thrown_rejection (sched : list nat) (concurrency : Z) (s0 : St) :
  let p := promisePool' sched concurrency s0 in
  (forall e, In (Thrown e) (runners p) -> rejection p <> None) /\
  (rejection p <> None -> exists e, In (Thrown e) (runners p)).
Proof.
  apply pool_cases; simpl.
  - split; [intros e [] | congruence].
  - intros p item s w [H1 H2] _ _. split.
    + intros e He. apply in_app_iff in He.
      destruct He as [He | [He | []]]; [eauto | discriminate].
    + intros Hr. destruct (H2 Hr) as [e He]. exists e.
      apply in_app_iff. now left.
  - intros p [H1 H2] _. split.
    + intros e He. apply in_app_iff in He.
      destruct He as [He | [He | []]]; [eauto | discriminate].
    + intros Hr. destruct (H2 Hr) as [e He]. exists e.
      apply in_app_iff. now left.
  - intros p r i k s w [H1 H2] Hn _. split.
    + intros e He. apply set_nth_In in He.
      destruct He as [He | He]; [discriminate | eauto].
    + intros Hr. destruct (H2 Hr) as [e He]. exists e.
      destruct (In_nth_error _ _ He) as [j Hj].
      apply nth_error_In with j. rewrite set_nth_other; [assumption |].
      intros ->. congruence.
  - intros p r i v item s w [H1 H2] Hn _ _. split.
    + intros e He. apply set_nth_In in He.
      destruct He as [He | He]; [discriminate | eauto].
    + intros Hr. destruct (H2 Hr) as [e He]. exists e.
      destruct (In_nth_error _ _ He) as [j Hj].
      apply nth_error_In with j. rewrite set_nth_other; [assumption |].
      intros ->. congruence.
  - intros p r i v [H1 H2] Hn _. split.
    + intros e He. apply set_nth_In in He.
      destruct He as [He | He]; [discriminate | eauto].
    + intros Hr. destruct (H2 Hr) as [e He]. exists e.
      destruct (In_nth_error _ _ He) as [j Hj].
      apply nth_error_In with j. rewrite set_nth_other; [assumption |].
      intros ->. congruence.
  - intros p r i e [H1 H2] Hn. split.
    + intros e' _. destruct (rejection p); discriminate.
    + intros _. exists e. apply nth_error_In with r.
      now apply set_nth_same with (Awaiting i (Failed e)).
Qed.


(** When no runner waits any more, [Promise.all] has settled. *)
Lemma quiescent_settled (sched : list nat) (concurrency : Z) (s0 : St) :
  let p := promisePool' sched concurrency s0 in
  quiescent p = true -> outcome p <> None.
Proof.
  intros p Hq. unfold outcome.
  destruct (rejection p) as [e |] eqn:Er; [discriminate |].
  assert (Hall : forallb isFinished (runners p) = true).
  { apply forallb_forall. intros x Hx.
    unfold quiescent in Hq. rewrite forallb_forall in Hq.
    specialize (Hq x Hx). destruct x as [i w | | e]; try reflexivity.
    - discriminate.
    - destruct (thrown_rejection sched concurrency s0) as [H1 _].
      exfalso. apply (H1 e Hx). exact Er. }
  rewrite Hall. discriminate.
Qed.

(** Once [promisePool] has resolved, the cursor is past the last item and
    the worker was called on each item once, in order. *)
Lemma resolved_all_started (sched : list nat) (concurrency : Z) (s0 : St)
  (res : list (option R)) :
  let p := promisePool' sched concurrency s0 in
  outcome p = Some (Ok res) ->
  idx p = List.length items /\ started p = seq 0 (List.length items).
Proof.
  intros p Ho. unfold outcome in Ho.
  destruct (rejection p); [discriminate |].
  destruct (forallb isFinished (runners p)) eqn:Hall; [| discriminate].
  destruct (cursor_invariant sched concurrency s0) as [Hs [Hle [Hfin Hlen]]].
  fold p in Hs, Hle, Hfin, Hlen.
  assert (Hn : List.length (runners p) = Z.to_nat (Z.max 1 concurrency))
    by apply runners_count.
  destruct (runners p) as [| x xs] eqn:Ex; [simpl in Hn; lia |].
  simpl in Hall. apply andb_prop in Hall. destruct Hall as [Hx _].
  assert (Hi : idx p = List.length items)
    by (apply (Hfin x); [now left | assumption]).
  split; [assumption | now rewrite Hs, Hi].
Qed.

Section NeverFails.
Hypothesis start_ok : forall t s e, snd (start t s) <> Failed e.
Hypothesis resume_ok : forall k s e, snd (resume k s) <> Failed e.

(** A worker that never rejects: no call is rejected, no runner is thrown
    out, and [Promise.all] sees no rejection. *)
Lemma no_rejection (sched : list nat) (concurrency : Z) (s0 : St) :
  let p := promisePool' sched concurrency s0 in
  rejection p = None /\
  (forall x, In x (runners p) ->
             match x with
             | Awaiting _ (Failed _) | Thrown _ => False
             | _ => True
             end).
Proof.
  apply pool_cases; simpl.
  - split; [reflexivity | intros x []].
  - intros p item s w [H1 H2] _ Es. split; [assumption |].
    intros x Hx. apply in_app_iff in Hx. destruct Hx as [Hx | [<- | []]];
      [now apply H2 |].
    destruct w as [k | v | e]; try exact I.
    apply (start_ok item (shared p) e). now rewrite Es.
  - intros p [H1 H2] _. split; [assumption |].
    intros x Hx. apply in_app_iff in Hx. destruct Hx as [Hx | [<- | []]];
      [now apply H2 | exact I].
  - intros p r i k s w [H1 H2] _ Es. split; [assumption |].
    intros x Hx. apply set_nth_In in Hx. destruct Hx as [-> | Hx];
      [| now apply H2].
    destruct w as [k' | v | e]; try exact I.
    apply (resume_ok k (shared p) e). now rewrite Es.
  - intros p r i v item s w [H1 H2] _ _ Es. split; [assumption |].
    intros x Hx. apply set_nth_In in Hx. destruct Hx as [-> | Hx];
      [| now apply H2].
    destruct w as [k' | v' | e]; try exact I.
    apply (start_ok item (shared p) e). now rewrite Es.
  - intros p r i v [H1 H2] _ _. split; [assumption |].
    intros x Hx. apply set_nth_In in Hx. destruct Hx as [-> | Hx];
      [exact I | now apply H2].
  - intros p r i e [H1 H2] Hn. exfalso.
    apply (H2 (Awaiting i (Failed e))). now apply nth_error_In with r.
Qed.

(** With such a worker, a pool in which no runner waits has resolved. *)
Lemma quiescent_resolved (sched : list nat) (concurrency : Z) (s0 : St) :
  let p := promisePool' sched concurrency s0 in
  quiescent p = true -> outcome p = Some (Ok (results p)).
Proof.
  intros p Hq. pose proof (quiescent_settled sched concurrency s0 Hq) as Hs.
  fold p in Hs. unfold outcome in *.
  destruct (no_rejection sched concurrency s0) as [Hr _]. fold p in Hr.
  rewrite Hr in *. destruct (forallb isFinished (runners p));
    [reflexivity | congruence].
Qed.

End NeverFails.

(** The first waiting runner does wait, and there is none only when the
    pool is quiescent. *)
Lemma firstAwaiting_Some (xs : list (runner W R)) (r : nat) :
  firstAwaiting xs = Some r ->
  exists i w, nth_error xs r = Some (Awaiting i w).
Proof.
  revert r. induction xs as [| x xs IH]; intros r; simpl; [discriminate |].
  destruct x as [i w | | e]; simpl.
  - intros [= <-]. now exists i, w.
  - destruct (firstAwaiting xs) as [r' |]; [| discriminate].
    intros [= <-]. now apply IH.
  - destruct (firstAwaiting xs) as [r' |]; [| discriminate].
    intros [= <-]. now apply IH.
Qed.

Lemma firstAwaiting_None (xs : list (runner W R)) :
  firstAwaiting xs = None ->
  forallb (fun x => negb (isAwaiting x)) xs = true.
Proof.
  induction xs as [| x xs IH]; simpl; [reflexivity |].
  destruct x as [i w | | e]; simpl; try discriminate;
    destruct (firstAwaiting xs); try discriminate; intros _; now apply IH.
Qed.

Lemma drive_is_schedule (fuel : nat) :
  forall p : pool W R St,
    exists sched, drive start resume items fuel p
                  = runSchedule start resume items sched p.
Proof.
  induction fuel as [| fuel IH]; intros p; simpl.
  - now exists [].
  - destruct (firstAwaiting (runners p)) as [r |].
    + destruct (IH (step' r p)) as [sched Hs]. now exists (r :: sched).
    + now exists [].
Qed.

Section Termination.
Variable wsize : W -> nat.
Variable bound : nat.
Hypothesis start_bounded :
  forall t s k, snd (start t s) = Pending k -> wsize k < bound.
Hypothesis resume_decreases :
  forall k s k', snd (resume k s) = Pending k' -> wsize k' < wsize k.

Local Abbreviation potential' := (potential wsize bound items).

Lemma statusCost_bounded (i : nat) (t : T) (s : St) :
  runnerCost wsize (Awaiting i (snd (start t s))) <= bound + 1.
Proof.
  simpl. destruct (snd (start t s)) as [k | v | e] eqn:E; try lia.
  pose proof (start_bounded t s k E). lia.
Qed.

(** An event at a waiting runner brings the pool closer to quiescence. *)
Lemma step_decreases (p : pool W R St) (r i : nat) (w : wstatus W R) :
  nth_error (runners p) r = Some (Awaiting i w) ->
  potential' (step' r p) < potential' p.
Proof.
  intros Hn. unfold step. rewrite Hn. destruct w as [k | v | e].
  - destruct (resume k (shared p)) as [s w] eqn:Es.
    unfold potential, set_runner. simpl.
    pose proof (set_nth_sum (runnerCost wsize) r (Awaiting i w) _ _ Hn) as Hsum.
    simpl in Hsum.
    assert (Hw : runnerCost wsize (Awaiting i w) < wsize k + 2).
    { simpl. destruct w as [k' | v | e]; try lia.
      pose proof (resume_decreases k (shared p) k') as Hd.
      rewrite Es in Hd. specialize (Hd eq_refl). lia. }
    simpl in Hw. lia.
  - unfold claim. simpl.
    destruct (nth_error items (idx p)) as [item |] eqn:Ei.
    + destruct (start item (shared p)) as [s w] eqn:Es.
      unfold potential, set_runner. simpl.
      pose proof (set_nth_sum (runnerCost wsize) r (Awaiting (idx p) w) _ _ Hn)
        as Hsum.
      pose proof (statusCost_bounded (idx p) item (shared p)) as Hb.
      rewrite Es in Hb. simpl in Hsum, Hb.
      assert (Hlt : idx p < List.length items)
        by (apply nth_error_Some; congruence).
      replace (List.length items - idx p)
        with (S (List.length items - S (idx p))) by lia.
      simpl. lia.
    + unfold potential, set_runner. simpl.
      pose proof (set_nth_sum (runnerCost wsize) r Finished _ _ Hn) as Hsum.
      simpl in Hsum. lia.
  - unfold potential, set_runner. simpl.
    pose proof (set_nth_sum (runnerCost wsize) r (Thrown e) _ _ Hn) as Hsum.
    simpl in Hsum. lia.
Qed.

(** Moving the first waiting runner, over and over, ends with no runner
    waiting. *)
Lemma drive_quiescent (fuel : nat) :
  forall p : pool W R St,
    potential' p < fuel ->
    quiescent (drive start resume items fuel p) = true.
Proof.
  induction fuel as [| fuel IH]; intros p Hp; [lia |].
  simpl. destruct (firstAwaiting (runners p)) as [r |] eqn:E.
  - destruct (firstAwaiting_Some _ _ E) as [i [w Hn]].
    apply IH. pose proof (step_decreases p r i w Hn). lia.
  - now apply firstAwaiting_None.
Qed.

(** Some schedule brings the pool to quiescence. *)
Lemma quiescent_schedule (concurrency : Z) (s0 : St) :
  exists sched, quiescent (promisePool' sched concurrency s0) = true.
Proof.
  set (p0 := poolStart' concurrency s0).
  destruct (drive_is_schedule (S (potential' p0)) p0) as [sched Hs].
  exists sched. unfold promisePool. fold p0. rewrite <- Hs.
  apply drive_quiescent. lia.
Qed.

End Termination.

Lemma firstn_succ {A : Type} (n : nat) (x : A) (xs : list A) :
  nth_error xs n = Some x -> firstn (S n) xs = firstn n xs ++ [x].
Proof.
  revert n. induction xs as [| y xs IH]; intros [| n]; simpl;
    try discriminate.
  - now intros [= ->].
  - intros H. now rewrite <- (IH n H).
Qed.

Section Counters.
Variable measure : St -> nat.
Variable contrib : T -> nat.
Variable owed : W -> nat.
Hypothesis start_adds :
  forall t s,
    measure (fst (start t s)) + owedRunner owed (Awaiting 0 (snd (start t s)))
    = measure s + contrib t.
Hypothesis resume_adds :
  forall k s,
    measure (fst (resume k s)) + owedRunner owed (Awaiting 0 (snd (resume k s)))
    = measure s + owed k.

(** A counter the worker calls only add to: what it holds, with what the
    calls in flight still owe, is what the calls made so far contribute,
    however the calls interleave. *)
Lemma counter_invariant (sched : list nat) (concurrency : Z) (s0 : St) :
  let p := promisePool' sched concurrency s0 in
  measure (shared p) + list_sum (map (owedRunner owed) (runners p))
  = measure s0 + list_sum (map contrib (firstn (idx p) items)).
Proof.
  apply pool_cases; cbn [idx shared runners results rejection started].
  - simpl. lia.
  - intros p item s w IH Hi Es.
    rewrite (firstn_succ _ _ _ Hi), !map_app, !list_sum_app. simpl.
    pose proof (start_adds item (shared p)) as Ha. rewrite Es in Ha.
    simpl in Ha. lia.
  - intros p IH _. rewrite map_app, list_sum_app. simpl. lia.
  - intros p r i k s w IH Hn Es.
    pose proof (set_nth_sum (owedRunner owed) r (Awaiting i w) _ _ Hn) as Hsum.
    pose proof (resume_adds k (shared p)) as Ha. rewrite Es in Ha.
    simpl in Ha, Hsum. lia.
  - intros p r i v item s w IH Hn Hi Es.
    rewrite (firstn_succ _ _ _ Hi), !map_app, !list_sum_app. simpl.
    pose proof (set_nth_sum (owedRunner owed) r (Awaiting (idx p) w) _ _ Hn)
      as Hsum.
    pose proof (start_adds item (shared p)) as Ha. rewrite Es in Ha.
    simpl in Ha, Hsum. lia.
  - intros p r i v IH Hn _.
    pose proof (set_nth_sum (owedRunner owed) r Finished _ _ Hn) as Hsum.
    simpl in Hsum. lia.
  - intros p r i e IH Hn.
    pose proof (set_nth_sum (owedRunner owed) r (Thrown e) _ _ Hn) as Hsum.
    simpl in Hsum. lia.
Qed.

(** When the pool has resolved, the counter holds the contributions of all
    the items. *)
Lemma counter_resolved (sched : list nat) (concurrency : Z) (s0 : St)
  (res : list (option R)) :
  let p := promisePool' sched concurrency s0 in
  outcome p = Some (Ok res) ->
  measure (shared p) = measure s0 + list_sum (map contrib items).
Proof.
  intros p Ho.
  destruct (resolved_all_started sched concurrency s0 res Ho) as [Hi _].
  pose proof (counter_invariant sched concurrency s0) as Hc.
  fold p in Hi, Hc. simpl in Hc.
  rewrite Hi, firstn_all in Hc.
  unfold outcome in Ho. destruct (rejection p); [discriminate |].
  destruct (forallb isFinished (runners p)) eqn:Hall; [| discriminate].
  assert (Hz : list_sum (map (owedRunner owed) (runners p)) = 0).
  { clear -Hall. induction (runners p) as [| x xs IH]; [reflexivity |].
    simpl in Hall. apply andb_prop in Hall. destruct Hall as [Hx Hxs].
    destruct x; try discriminate. simpl. now apply IH. }
  lia.
Qed.

End Counters.

Section Results.
Variable J : T -> W -> Prop.
Variable Q : T -> R -> Prop.
Hypothesis start_tracks : forall t s, tracks J Q t (snd (start t s)).
Hypothesis resume_tracks :
  forall t k s, J t k -> tracks J Q t (snd (resume k s)).

Local Abbreviation resultsInv' :=
  (resultsInv (W:=W) (R:=R) (St:=St) items J Q).

Lemma results_invariant (sched : list nat) (concurrency : Z) (s0 : St) :
  resultsInv' (promisePool' sched concurrency s0).
Proof.
  apply pool_cases; unfold resultsInv;
    cbn [idx shared runners results rejection started].
  - split; [apply repeat_length | split; [intros i w [] | split]].
    + intros i v H. apply nth_error_In, repeat_spec in H. discriminate.
    + intros i H. lia.
  - intros p item s w [Hlen [Haw [Hres Hcov]]] Hi Es.
    split; [assumption | split; [| split; [assumption |]]].
    + intros i w' Hin. apply in_app_iff in Hin.
      destruct Hin as [Hin | [[= <- <-] | []]]; [now apply Haw |].
      exists item. split; [assumption |].
      pose proof (start_tracks item (shared p)) as Ht. now rewrite Es in Ht.
    + intros i Hlt. destruct (Nat.eq_dec i (idx p)) as [-> | Hne].
      * right. left. exists w. apply in_app_iff. right. now left.
      * destruct (Hcov i ltac:(lia)) as [Hv | [[w' Hw] | [e He]]].
        -- now left.
        -- right. left. exists w'. apply in_app_iff. now left.
        -- right. right. exists e. apply in_app_iff. now left.
  - intros p [Hlen [Haw [Hres Hcov]]] _.
    split; [assumption | split; [| split; [assumption |]]].
    + intros i w' Hin. apply in_app_iff in Hin.
      destruct Hin as [Hin | [Hin | []]]; [now apply Haw | discriminate].
    + intros i Hlt. destruct (Hcov i Hlt) as [Hv | [[w' Hw] | [e He]]].
      * now left.
      * right. left. exists w'. apply in_app_iff. now left.
      * right. right. exists e. apply in_app_iff. now left.
  - intros p r i k s w [Hlen [Haw [Hres Hcov]]] Hn Es.
    split; [assumption | split; [| split; [assumption |]]].
    + intros j w' Hin. apply set_nth_In in Hin.
      destruct Hin as [[= -> ->] | Hin]; [| now apply Haw].
      destruct (Haw i (Pending k) (nth_error_In _ _ Hn)) as [t [Ht Hj]].
      exists t. split; [assumption |].
      pose proof (resume_tracks t k (shared p) Hj) as Hr.
      now rewrite Es in Hr.
    + intros j Hlt. destruct (Hcov j Hlt) as [Hv | [[w' Hw] | [e He]]].
      * now left.
      * right. left.
        destruct (In_set_nth_keep r _ _ (Awaiting i w) _ Hw Hn)
          as [[= -> ->] | Hk].
        -- exists w. apply nth_error_In with r.
           now apply set_nth_same with (Awaiting i (Pending k)).
        -- now exists w'.
      * right. right. exists e.
        destruct (In_set_nth_keep r _ _ (Awaiting i w) _ He Hn)
          as [Heq | Hk]; [discriminate | assumption].
  - intros p r i v item s w [Hlen [Haw [Hres Hcov]]] Hn Hi Es.
    destruct (Haw i (Fulfilled v) (nth_error_In _ _ Hn)) as [ti [Hti Hq]].
    assert (Hset : nth_error (set_nth i (Some v) (results p)) i
                   = Some (Some v)).
    { destruct (nth_error (results p) i) as [o |] eqn:E.
      - now apply set_nth_same with o.
      - apply nth_error_None in E.
        assert (i < List.length items) by (apply nth_error_Some; congruence).
        lia. }
    split; [now rewrite set_nth_length | split; [| split]].
    + intros j w' Hin. apply set_nth_In in Hin.
      destruct Hin as [[= -> ->] | Hin]; [| now apply Haw].
      exists item. split; [assumption |].
      pose proof (start_tracks item (shared p)) as Ht. now rewrite Es in Ht.
    + intros j v' Hj. apply nth_error_set_nth in Hj.
      destruct Hj as [[-> [= ->]] | Hj]; [| now apply Hres].
      now exists ti.
    + intros j Hlt. destruct (Nat.eq_dec j (idx p)) as [-> | Hne].
      * right. left. exists w. apply nth_error_In with r.
        now apply set_nth_same with (Awaiting i (Fulfilled v)).
      * destruct (Hcov j ltac:(lia)) as [[v' Hv] | [[w' Hw] | [e He]]].
        -- left. destruct (set_nth_keeps_some i j (Some v) _ _ Hv)
             as [c [Hc [-> | [_ ->]]]]; eauto.
        -- destruct (In_set_nth_keep r _ _ (Awaiting (idx p) w) _ Hw Hn)
             as [[= -> ->] | Hk].
           ++ left. now exists v.
           ++ right. left. now exists w'.
        -- right. right. exists e.
           destruct (In_set_nth_keep r _ _ (Awaiting (idx p) w) _ He Hn)
             as [Heq | Hk]; [discriminate | assumption].
  - intros p r i v [Hlen [Haw [Hres Hcov]]] Hn Hi.
    destruct (Haw i (Fulfilled v) (nth_error_In _ _ Hn)) as [ti [Hti Hq]].
    assert (Hset : nth_error (set_nth i (Some v) (results p)) i
                   = Some (Some v)).
    { destruct (nth_error (results p) i) as [o |] eqn:E.
      - now apply set_nth_same with o.
      - apply nth_error_None in E.
        assert (i < List.length items) by (apply nth_error_Some; congruence).
        lia. }
    split; [now rewrite set_nth_length | split; [| split]].
    + intros j w' Hin. apply set_nth_In in Hin.
      destruct Hin as [Hin | Hin]; [discriminate | now apply Haw].
    + intros j v' Hj. apply nth_error_set_nth in Hj.
      destruct Hj as [[-> [= ->]] | Hj]; [| now apply Hres].
      now exists ti.
    + intros j Hlt.
      destruct (Hcov j Hlt) as [[v' Hv] | [[w' Hw] | [e He]]].
      * left. destruct (set_nth_keeps_some i j (Some v) _ _ Hv)
          as [c [Hc [-> | [_ ->]]]]; eauto.
      * destruct (In_set_nth_keep r _ _ Finished _ Hw Hn)
          as [[= -> ->] | Hk].
        -- left. now exists v.
        -- right. left. now exists w'.
      * right. right. exists e.
        destruct (In_set_nth_keep r _ _ Finished _ He Hn)
          as [Heq | Hk]; [discriminate | assumption].
  - intros p r i e [Hlen [Haw [Hres Hcov]]] Hn.
    split; [assumption | split; [| split; [assumption |]]].
    + intros j w' Hin. apply set_nth_In in Hin.
      destruct Hin as [Hin | Hin]; [discriminate | now apply Haw].
    + intros j Hlt. right. right. exists e. apply nth_error_In with r.
      now apply set_nth_same with (Awaiting i (Failed e)).
Qed.

(** When the pool has resolved, the results array holds, at the place of
    each item, a value the worker fulfilled with for that item. *)
Lemma results_resolved (sched : list nat) (concurrency : Z) (s0 : St)
  (res : list (option R)) :
  outcome (promisePool' sched concurrency s0) = Some (Ok res) ->
  Forall2 (fun t o => exists v, o = Some v /\ Q t v) items res.
Proof.
  intros Ho.
  destruct (resolved_all_started sched concurrency s0 res Ho) as [Hidx _].
  destruct (results_invariant sched concurrency s0)
    as [Hlen [Haw [Hres Hcov]]].
  destruct (thrown_rejection sched concurrency s0) as [Hthrown _].
  set (p := promisePool' sched concurrency s0) in *.
  unfold outcome in Ho. destruct (rejection p) eqn:Er; [discriminate |].
  destruct (forallb isFinished (runners p)) eqn:Hall; [| discriminate].
  injection Ho as <-. rewrite forallb_forall in Hall.
  apply Forall2_pointwise; [now rewrite Hlen |].
  intros i t Hi.
  assert (Hlt : i < idx p)
    by (rewrite Hidx; apply nth_error_Some; congruence).
  destruct (Hcov i Hlt) as [[v Hv] | [[w Hw] | [e He]]].
  - exists (Some v). split; [assumption |]. exists v. split; [reflexivity |].
    destruct (Hres i v Hv) as [t' [Ht' Hq]]. congruence.
  - specialize (Hall _ Hw). discriminate.
  - specialize (Hall _ He). discriminate.
Qed.

End Results.

End PoolFacts.




(** Whatever the schedule, that pool never resolves and never calls the
    worker on the second item. *)
Lemma promisePool_rejection_every_schedule (sched : list nat) :
  let p := promisePool waitOnce rejectsOnA ["a"; "b"] sched 1 tt in
  (forall res, outcome p <> Some (Ok res)) /\ started p = [0].
Proof.
  set (p1 := mkPool (W:=string) (R:=unit) 1 [None; None]
               [Awaiting 0 (Pending "a")] tt None [0]).
  set (p2 := mkPool (W:=string) (R:=unit) 1 [None; None]
               [Awaiting 0 (Failed (JStr "a failed"))] tt None [0]).
  set (p3 := mkPool (W:=string) (R:=unit) 1 [None; None]
               [Thrown (JStr "a failed")] tt (Some (JStr "a failed")) [0]).
  assert (Hclosed : forall s p,
             p = p1 \/ p = p2 \/ p = p3 ->
             let q := runSchedule waitOnce rejectsOnA ["a"; "b"] s p in
             q = p1 \/ q = p2 \/ q = p3).
  { induction s as [| r s IH]; intros p Hp; simpl; [assumption |].
    apply IH. destruct Hp as [-> | [-> | ->]];
      destruct r as [| [| r]]; simpl; auto. }
  intros p. specialize (Hclosed sched p1 (or_introl eq_refl)).
  change (runSchedule waitOnce rejectsOnA ["a"; "b"] sched p1) with p in Hclosed.
  simpl in Hclosed.
  destruct Hclosed as [-> | [-> | ->]]; split; try reflexivity;
    intros res; discriminate.
Qed.

(* ================================================================== *)
(** * Properties of the crawl *)

Lemma map_set_In {V : Type} (k k' : string) (v v' : V)
  (m : list (string * V)) :
  In (k', v') (map_set k v m) -> (k' = k /\ v' = v) \/ In (k', v') m.
Proof.
  induction m as [| [k0 v0] m IH]; simpl.
  - intros [[= <- <-] | []]. now left.
  - destruct (String.eqb_spec k0 k) as [-> | Hne]; simpl.
    + intros [[= <- <-] | H]; [now left | right; now right].
    + intros [H | H]; [right; now left |].
      destruct (IH H) as [Heq | Hin]; [now left | right; now right].
Qed.

Lemma map_set_has {V : Type} (k : string) (v : V) (m : list (string * V)) :
  In (k, v) (map_set k v m).
Proof.
  induction m as [| [k0 v0] m IH]; simpl; [now left |].
  destruct (k0 =? k); [now left | now right].
Qed.

Lemma map_set_keys {V : Type} (k k' : string) (v : V)
  (m : list (string * V)) :
  In k' (map fst (map_set k v m)) <-> k' = k \/ In k' (map fst m).
Proof.
  induction m as [| [k0 v0] m IH]; simpl.
  - intuition congruence.
  - destruct (String.eqb_spec k0 k) as [-> | Hne]; simpl.
    + intuition congruence.
    + rewrite IH. intuition congruence.
Qed.

Lemma map_set_NoDup {V : Type} (k : string) (v : V) (m : list (string * V)) :
  NoDup (map fst m) -> NoDup (map fst (map_set k v m)).
Proof.
  induction m as [| [k0 v0] m IH]; simpl; intros H.
  - constructor; [intros [] | constructor].
  - inversion H as [| ? ? Hnot Hrest]; subst.
    destruct (String.eqb_spec k0 k) as [-> | Hne]; simpl.
    + now constructor.
    + constructor; [| now apply IH].
      rewrite map_set_keys. intros [Heq | Hin]; [congruence | contradiction].
Qed.

Lemma remove_nth_length {A : Type} (c : nat) (l : list A) :
  c < List.length l -> S (List.length (remove_nth c l)) = List.length l.
Proof.
  revert c. induction l as [| x l IH]; intros [| c]; simpl; try lia.
  intros H. rewrite IH; lia.
Qed.

Lemma remove_nth_perm {A : Type} (c : nat) (d : A) (l : list A) :
  c < List.length l -> Permutation (nth c l d :: remove_nth c l) l.
Proof.
  revert c. induction l as [| x l IH]; intros [| c]; simpl; try lia.
  - intros _. apply Permutation_refl.
  - intros H. eapply perm_trans; [apply perm_swap |].
    apply perm_skip, IH. lia.
Qed.

Lemma drawN_perm {A : Type} (n : nat) :
  forall (choices : list nat) (l : list A),
    List.length l = n -> Permutation (drawN n choices l) l.
Proof.
  induction n as [| n IH]; intros choices l Hlen.
  - destruct l; [constructor | discriminate].
  - destruct l as [| x l]; [discriminate |].
    cbn [drawN].
    set (c := match choices with
              | [] => 0
              | c :: _ => c mod List.length (x :: l)
              end).
    assert (Hc : c < List.length (x :: l)).
    { unfold c. destruct choices; [simpl; lia |].
      apply Nat.mod_upper_bound. simpl. lia. }
    eapply perm_trans; [| apply (remove_nth_perm c x (x :: l) Hc)].
    apply perm_skip, IH.
    pose proof (remove_nth_length c (x :: l) Hc). lia.
Qed.

(** The completion order of a wave is a rearrangement of the requests
    sent. *)
Lemma completionOrder_perm {A : Type} (choices : list nat) (l : list A) :
  Permutation (completionOrder choices l) l.
Proof. now apply drawN_perm. Qed.

Lemma completionOrder_inOrder {A : Type} (l : list A) :
  completionOrder [] l = l.
Proof.
  unfold completionOrder. induction l as [| x l IH]; [reflexivity |].
  simpl. now rewrite IH.
Qed.

Section CrawlFacts.
Variable getEntry : string -> result jsval.
Variable locale : string.
Variable config : InstallConfig.
Variable targets : list string.
Variable rootEntryIds : list string.

Local Abbreviation reach' := (reach getEntry locale config rootEntryIds).
Local Abbreviation withinDepth' := (withinDepth config).
Local Abbreviation crawlInv' :=
  (crawlInv getEntry locale config targets rootEntryIds).
Local Abbreviation settledInv' := (settledInv rootEntryIds).
Local Abbreviation visit' := (visit locale config targets).
Local Abbreviation complete' := (complete getEntry locale config targets).
Local Abbreviation wave' := (wave getEntry locale config targets).
Local Abbreviation crawlLoop' := (crawlLoop getEntry locale config targets).

(** The queue after [enqueueLinks]: the links not yet visited, one level
    down, behind what was there. *)
Lemma enqueueLinks_spec (d : nat) (ids : list string) :
  forall st : CrawlState,
    let st' := enqueueLinks d ids st in
    visitedEntries st' = visitedEntries st /\
    visitedAssets st' = visitedAssets st /\
    entryRows st' = entryRows st /\
    queue st' = queue st
                ++ map (fun id => mkQItem id (S d))
                     (filter (fun id => negb (set_has id (visitedEntries st)))
                             ids).
Proof.
  unfold enqueueLinks. induction ids as [| id ids IH]; intros st; simpl.
  - now rewrite app_nil_r.
  - destruct (set_has id (visitedEntries st)) eqn:E; simpl.
    + apply IH.
    + match goal with |- context [fold_left _ ids ?s] =>
        destruct (IH s) as [Hv [Ha [Hr Hq]]] end.
      simpl in *. rewrite Hv, Ha, Hr, Hq, <- app_assoc. auto.
Qed.

(** What [visit] does to the state: the row of the entry goes in; the
    queue and the asset set grow only when the entry is expanded. *)
Lemma visit_spec (item : QItem) (entry : jsval) (st : CrawlState) :
  let st' := visit' item entry st in
  let expanded := negb (isExcluded config entry)
                  && negb (depthReached config (depth item)) in
  visitedEntries st' = visitedEntries st /\
  entryRows st'
  = map_set (qid item) (entryRow locale config targets (qid item) entry)
            (entryRows st) /\
  queue st'
  = queue st
    ++ (if expanded
        then map (fun id => mkQItem id (S (depth item)))
               (filter (fun id => negb (set_has id (visitedEntries st)))
                       (entryIds (linksOf locale entry)))
        else []) /\
  visitedAssets st'
  = (if expanded && includeAssetsByDefault config
     then fold_left (fun s a => set_add a s)
            (assetIds (linksOf locale entry)) (visitedAssets st)
     else visitedAssets st).
Proof.
  unfold visit. destruct (isExcluded config entry); simpl.
  - now rewrite app_nil_r.
  - destruct (depthReached config (depth item)); simpl.
    + now rewrite app_nil_r.
    + match goal with |- context [enqueueLinks ?d ?ids ?s] =>
        destruct (enqueueLinks_spec d ids s) as [Hv [Ha [Hr Hq]]] end.
      simpl in *.
      destruct (includeAssetsByDefault config); simpl;
        rewrite ?Hv, ?Ha, ?Hr, ?Hq; auto.
Qed.

Lemma visit_inv (item : QItem) (entry : jsval) (st : CrawlState) :
  crawlInv' st ->
  getEntry (qid item) = Ok entry ->
  reach' (depth item) (qid item) -> withinDepth' (depth item) ->
  In (qid item) (visitedEntries st) ->
  crawlInv' (visit' item entry st).
Proof.
  intros [Hnd [Hrows [Hq Hassets]]] Hget Hreach Hwithin Hvis.
  destruct (visit_spec item entry st) as [Ev [Er [Eq Ea]]].
  unfold crawlInv. rewrite Ev, Er, Eq, Ea. clear Ev Er Eq Ea.
  split; [now apply map_set_NoDup | split; [| split]].
  - intros id row Hin. apply map_set_In in Hin.
    destruct Hin as [[-> ->] | Hin]; [| now apply Hrows].
    split; [assumption |]. now exists entry, (depth item).
  - intros q Hin. apply in_app_iff in Hin.
    destruct Hin as [Hin | Hin]; [now apply Hq |].
    destruct (isExcluded config entry) eqn:Eex; [destruct Hin |].
    destruct (depthReached config (depth item)) eqn:Ed; [destruct Hin |].
    simpl in Hin. apply in_map_iff in Hin. destruct Hin as [c [<- Hc]].
    apply filter_In in Hc. destruct Hc as [Hc _]. simpl. split.
    + now apply reach_link with (qid item) entry.
    + right. unfold depthReached in Ed. apply Z.leb_gt in Ed. lia.
  - intros a Hin.
    destruct (isExcluded config entry) eqn:Eex; [now apply Hassets |].
    destruct (depthReached config (depth item)) eqn:Ed;
      [now apply Hassets |].
    destruct (includeAssetsByDefault config); [| now apply Hassets].
    simpl in Hin. apply set_of_list_fold_In in Hin.
    destruct Hin as [Hin | Hin]; [| now apply Hassets].
    now exists (qid item), entry, (depth item).
Qed.

(** The requests [dispatch] sends: for the items of the batch not visited
    before, which it marks; nothing else changes. *)
Lemma dispatch_spec (batch : list QItem) :
  forall st : CrawlState,
    let st' := fst (dispatch batch st) in
    let sent := snd (dispatch batch st) in
    visitedAssets st' = visitedAssets st /\
    entryRows st' = entryRows st /\
    queue st' = queue st /\
    incl (visitedEntries st) (visitedEntries st') /\
    (forall id, In id (visitedEntries st') ->
                In id (visitedEntries st) \/ In id (map qid sent)) /\
    (forall q, In q batch -> In (qid q) (visitedEntries st')) /\
    (forall q, In q sent -> In q batch).
Proof.
  induction batch as [| item batch IH]; intros st; simpl.
  - repeat split; auto using incl_refl. intros q [].
  - destruct (set_has (qid item) (visitedEntries st)) eqn:E.
    + destruct (IH st) as [Ha [Hr [Hq [Hincl [Hnew [Hall Hsent]]]]]].
      repeat split; auto.
      intros q [<- | Hin]; [| now apply Hall].
      apply Hincl. now apply set_has_In.
    + match goal with |- context [dispatch batch ?s] =>
        specialize (IH s); destruct (dispatch batch s) as [st'' sent] end.
      simpl in *. destruct IH as [Ha [Hr [Hq [Hincl [Hnew [Hall Hsent]]]]]].
      repeat split; auto.
      * intros id Hid. apply Hincl. now apply set_add_incl.
      * intros id Hid. destruct (Hnew id Hid) as [H | H]; [| now right; right].
        apply set_add_In in H. destruct H as [-> | H]; [right; now left |].
        now left.
      * intros q [<- | Hin]; [| now apply Hall].
        apply Hincl, set_add_In. now left.
      * intros q [<- | Hin]; [now left | right; now apply Hsent].
Qed.

(** A wave whose requests all completed: the invariant holds after it, the
    visited set is as it was sent, every request has its row, and the queue
    only grew. *)
Lemma complete_inv (order : list QItem) :
  forall st st' : CrawlState,
    crawlInv' st ->
    (forall q, In q order ->
               reach' (depth q) (qid q) /\ withinDepth' (depth q) /\
               In (qid q) (visitedEntries st)) ->
    complete' order st = Ok st' ->
    crawlInv' st' /\
    visitedEntries st' = visitedEntries st /\
    (forall id, In id (map fst (entryRows st)) \/ In id (map qid order) ->
                In id (map fst (entryRows st'))) /\
    (forall q, In q (queue st) -> In q (queue st')).
Proof.
  induction order as [| item order IH]; intros st st' Hinv Hord Hc; simpl in Hc.
  - injection Hc as <-.
    split; [assumption | split; [reflexivity | split; [| auto]]].
    intros id [H | []]. exact H.
  - destruct (getEntry (qid item)) as [entry | e] eqn:Eg; [| discriminate].
    destruct (Hord item (or_introl eq_refl)) as [Hreach [Hwithin Hvis]].
    destruct (visit_spec item entry st) as [Ev [Er [Eq Ea]]].
    destruct (IH (visit' item entry st) st') as [Hinv' [Hv' [Hrows' Hq']]].
    + now apply visit_inv.
    + intros q Hq. rewrite Ev. apply Hord. now right.
    + assumption.
    + split; [assumption | split; [congruence | split]].
      * intros id Hid. apply Hrows'. rewrite Er, map_set_keys.
        simpl in Hid. intuition.
      * intros q Hq. apply Hq'. rewrite Eq. apply in_app_iff. now left.
Qed.

Lemma wave_inv (choices : list nat) (st st' : CrawlState) :
  crawlInv' st -> settledInv' st ->
  wave' choices st = Ok st' ->
  crawlInv' st' /\ settledInv' st'.
Proof.
  intros Hinv [Hset Hroots] Hw. unfold wave in Hw.
  set (n := batchSize config) in *.
  set (st0 := mkCrawlState (visitedEntries st) (visitedAssets st)
                (entryRows st) (skipn n (queue st)) (dispatched st)) in *.
  pose proof (dispatch_spec (firstn n (queue st)) st0)
    as [Ha [Hr [Hq [Hincl [Hnew [Hall Hsent]]]]]].
  destruct (dispatch (firstn n (queue st)) st0) as [st1 sent].
  simpl in Ha, Hr, Hq, Hincl, Hnew, Hall, Hsent.
  destruct Hinv as [Hnd [Hrows [Hqueue Hassets]]].
  assert (Hqin : forall q, In q (queue st) ->
                           In q (firstn n (queue st)) \/
                           In q (skipn n (queue st))).
  { intros q Hin. rewrite <- (firstn_skipn n (queue st)) in Hin.
    now apply in_app_iff in Hin. }
  assert (Hinv1 : crawlInv' st1).
  { unfold crawlInv. rewrite Ha, Hr, Hq. split; [assumption | split; [| split]].
    - intros id row Hin. destruct (Hrows id row Hin) as [Hv Hrest].
      split; [now apply Hincl | assumption].
    - intros q Hin. apply Hqueue.
      rewrite <- (firstn_skipn n (queue st)). apply in_app_iff. now right.
    - assumption. }
  destruct (complete_inv (completionOrder choices sent) st1 st' Hinv1)
    as [Hinv' [Hv' [Hrows' Hq']]]; [| assumption |].
  { intros q Hin.
    apply (Permutation_in _ (completionOrder_perm choices sent)) in Hin.
    specialize (Hsent q Hin).
    destruct (Hqueue q) as [Hreach Hwithin].
    - rewrite <- (firstn_skipn n (queue st)). apply in_app_iff. now left.
    - split; [assumption | split; [assumption | now apply Hall]]. }
  split; [assumption | split].
  - intros id Hid. rewrite Hv' in Hid. apply Hrows'.
    destruct (Hnew id Hid) as [H | H].
    + left. rewrite Hr. now apply Hset.
    + right. apply in_map_iff in H. destruct H as [q [<- Hq0]].
      apply in_map.
      apply (Permutation_in _ (Permutation_sym
                                 (completionOrder_perm choices sent))).
      assumption.
  - intros id Hid. rewrite Hv'. destruct (Hroots id Hid) as [H | H].
    + left. now apply Hincl.
    + apply in_map_iff in H. destruct H as [q [<- Hq0]].
      destruct (Hqin q Hq0) as [Hb | Hs].
      * left. now apply Hall.
      * right. apply in_map, Hq'. now rewrite Hq.
Qed.

(** The state the loop ends in satisfies both invariants and has an empty
    queue. *)
Lemma crawlLoop_inv (fuel : nat) (schedule : nat -> list nat) :
  forall (n : nat) (st st' : CrawlState),
    crawlInv' st -> settledInv' st ->
    crawlLoop' fuel schedule n st = Some (Ok st') ->
    crawlInv' st' /\ settledInv' st' /\ queue st' = [].
Proof.
  induction fuel as [| fuel IH]; intros n st st' Hinv Hset Hl; simpl in Hl;
    [discriminate |].
  destruct (queue st) as [| q qs] eqn:Eq.
  - injection Hl as <-. auto.
  - simpl in Hl. destruct (wave' (schedule n) st) as [st1 | e] eqn:Ew;
      [| discriminate].
    destruct (wave_inv _ _ _ Hinv Hset Ew) as [Hinv1 Hset1].
    now apply (IH (S n) st1 st').
Qed.

Lemma initialState_inv :
  crawlInv' (initialState rootEntryIds) /\
  settledInv' (initialState rootEntryIds).
Proof.
  unfold crawlInv, settledInv, initialState. simpl.
  split; [split; [constructor | split; [| split]] | split].
  - intros id row [].
  - intros q Hq. apply in_map_iff in Hq. destruct Hq as [id [<- Hid]].
    simpl. split; [now constructor | now left].
  - intros a [].
  - intros id [].
  - intros id Hid. right. rewrite map_map. simpl. now rewrite map_id.
Qed.

(** The waves come to an end: the work left in the queue goes down with
    every wave. *)
Local Abbreviation queueWork' := (queueWork getEntry locale config).
Local Abbreviation itemWork :=
  (fun x => treeSize getEntry locale config (levelsLeft config x) (qid x)).

Lemma queueWork_app (a b : list QItem) :
  queueWork' (a ++ b) = queueWork' a + queueWork' b.
Proof. unfold queueWork. now rewrite map_app, list_sum_app. Qed.

Lemma treeSize_pos (n : nat) (id : string) :
  1 <= treeSize getEntry locale config n id.
Proof. destruct n; simpl; lia. Qed.

Lemma list_sum_filter_le {A : Type} (g : A -> nat) (f : A -> bool)
  (l : list A) :
  list_sum (map g (filter f l)) <= list_sum (map g l).
Proof.
  induction l as [| x l IH]; simpl; [lia |].
  destruct (f x); simpl; lia.
Qed.

Lemma list_sum_perm {A : Type} (g : A -> nat) (l l' : list A) :
  Permutation l l' -> list_sum (map g l) = list_sum (map g l').
Proof. induction 1; simpl; lia. Qed.

Lemma visit_work (item : QItem) (entry : jsval) (st : CrawlState) :
  getEntry (qid item) = Ok entry ->
  queueWork' (queue (visit' item entry st)) + 1
  <= queueWork' (queue st) + itemWork item.
Proof.
  intros Hget. destruct (visit_spec item entry st) as [_ [_ [Eq _]]].
  rewrite Eq, queueWork_app. clear Eq.
  destruct (isExcluded config entry) eqn:Eex; simpl.
  { unfold queueWork at 2. simpl.
    pose proof (treeSize_pos (levelsLeft config item) (qid item)). lia. }
  destruct (depthReached config (depth item)) eqn:Ed; simpl.
  { unfold queueWork at 2. simpl.
    pose proof (treeSize_pos (levelsLeft config item) (qid item)). lia. }
  unfold depthReached in Ed. apply Z.leb_gt in Ed.
  remember (Z.to_nat (maxTraversalDepth config - Z.of_nat (S (depth item))))
    as m eqn:Em.
  assert (Hlev : levelsLeft config item = S m) by (unfold levelsLeft; lia).
  rewrite Hlev. cbn [treeSize]. unfold children. rewrite Hget, Eex.
  unfold queueWork at 2. rewrite map_map.
  match goal with |- context [filter ?f ?l] =>
    pose proof (list_sum_filter_le (treeSize getEntry locale config m) f l)
      as Hle;
    replace (map (fun x => treeSize getEntry locale config
                             (levelsLeft config (mkQItem x (S (depth item))))
                             (qid (mkQItem x (S (depth item)))))
                 (filter f l))
      with (map (treeSize getEntry locale config m) (filter f l))
  end.
  - lia.
  - apply map_ext. intros c. unfold levelsLeft. cbn [depth qid].
    now rewrite <- Em.
Qed.

Lemma complete_work (order : list QItem) :
  forall st st' : CrawlState,
    complete' order st = Ok st' ->
    queueWork' (queue st') + List.length order
    <= queueWork' (queue st) + queueWork' order.
Proof.
  induction order as [| item order IH]; intros st st' Hc; simpl in Hc.
  - injection Hc as <-. unfold queueWork at 3. simpl. lia.
  - destruct (getEntry (qid item)) as [entry | e] eqn:Eg; [| discriminate].
    specialize (IH _ _ Hc). pose proof (visit_work item entry st Eg) as Hv.
    unfold queueWork at 3. simpl. fold (queueWork' order). lia.
Qed.

Lemma dispatch_work (batch : list QItem) :
  forall st : CrawlState,
    queueWork' (snd (dispatch batch st)) + List.length batch
    <= queueWork' batch + List.length (snd (dispatch batch st)).
Proof.
  induction batch as [| item batch IH]; intros st; simpl; [lia |].
  destruct (set_has (qid item) (visitedEntries st)).
  - specialize (IH st). unfold queueWork at 2. simpl.
    fold (queueWork' batch).
    pose proof (treeSize_pos (levelsLeft config item) (qid item)). lia.
  - match goal with |- context [dispatch batch ?s] =>
      specialize (IH s); destruct (dispatch batch s) as [st'' sent] end.
    simpl in *. unfold queueWork at 1 2. simpl.
    fold (queueWork' sent). fold (queueWork' batch). lia.
Qed.

Lemma wave_work (choices : list nat) (st st' : CrawlState) :
  queue st <> [] ->
  wave' choices st = Ok st' ->
  queueWork' (queue st') < queueWork' (queue st).
Proof.
  intros Hne Hw. unfold wave in Hw.
  set (n := batchSize config) in *.
  set (st0 := mkCrawlState (visitedEntries st) (visitedAssets st)
                (entryRows st) (skipn n (queue st)) (dispatched st)) in *.
  pose proof (dispatch_spec (firstn n (queue st)) st0) as [_ [_ [Hq _]]].
  pose proof (dispatch_work (firstn n (queue st)) st0) as Hd.
  destruct (dispatch (firstn n (queue st)) st0) as [st1 sent].
  simpl in Hq, Hd.
  pose proof (complete_work _ _ _ Hw) as Hc. rewrite Hq in Hc.
  pose proof (completionOrder_perm choices sent) as Hp.
  unfold queueWork at 3 in Hc.
  rewrite (list_sum_perm _ _ _ Hp) in Hc. fold (queueWork' sent) in Hc.
  rewrite (Permutation_length Hp) in Hc.
  assert (Hsplit : queueWork' (queue st)
                   = queueWork' (firstn n (queue st))
                     + queueWork' (skipn n (queue st))).
  { rewrite <- queueWork_app. now rewrite firstn_skipn. }
  assert (Hlen : 1 <= List.length (firstn n (queue st))).
  { rewrite length_firstn. destruct (queue st); [congruence |].
    unfold n, batchSize. simpl. lia. }
  lia.
Qed.

Lemma crawlLoop_terminates (fuel : nat) (schedule : nat -> list nat) :
  forall (n : nat) (st : CrawlState),
    queueWork' (queue st) < fuel ->
    crawlLoop' fuel schedule n st <> None.
Proof.
  induction fuel as [| fuel IH]; intros n st Hw; [lia |].
  simpl. destruct (queue st) as [| q qs] eqn:Eq; [discriminate |].
  simpl. destruct (wave' (schedule n) st) as [st1 | e] eqn:Ew;
    [| discriminate].
  apply IH. assert (Hne : queue st <> []) by congruence.
  pose proof (wave_work _ _ _ Hne Ew). rewrite Eq in *. lia.
Qed.

(** More fuel does not change what the loop returned. *)
Lemma crawlLoop_more_fuel (fuel : nat) (schedule : nat -> list nat) :
  forall (n : nat) (st : CrawlState) (r : result CrawlState),
    crawlLoop' fuel schedule n st = Some r ->
    crawlLoop' (S fuel) schedule n st = Some r.
Proof.
  induction fuel as [| fuel IH]; intros n st r Hl; [discriminate |].
  cbn [crawlLoop] in Hl |- *.
  destruct (queue st) as [| q qs]; [assumption |].
  destruct (wave' (schedule n) st) as [st1 | e]; [| assumption].
  cbn [bind] in Hl |- *. now apply IH.
Qed.



(** The asset pool. *)
Variable getAsset : string -> result jsval.

Local Abbreviation assetRow' := (assetRow locale targets).
Local Abbreviation loadAssets' := (loadAssets getAsset locale config targets).
Local Abbreviation traverse' :=
  (traverseDescendants getEntry getAsset locale config targets).

Lemma collectAssets_In (res : list (option AssetScanRow)) :
  forall (acc rows : list (string * AssetScanRow)),
    collectAssets res acc = Ok rows ->
    forall id row,
      In (id, row) rows ->
      In (id, row) acc \/ (In (Some row) res /\ id = assetId row).
Proof.
  induction res as [| [r |] res IH]; intros acc rows Hc id row Hin;
    simpl in Hc.
  - injection Hc as <-. now left.
  - destruct (IH _ _ Hc id row Hin) as [H | [H ->]].
    + apply map_set_In in H. destruct H as [[-> ->] | H]; [| now left].
      right. split; [now left | reflexivity].
    + right. split; [now right | reflexivity].
  - discriminate.
Qed.


Lemma assetPool_results (asched : list nat) (ids : list string)
  (res : list (option AssetScanRow)) :
  outcome (promisePool assetStart (assetResume getAsset locale targets) ids
                       asched (requestConcurrency config) tt)
  = Some (Ok res) ->
  Forall2 (fun id o => exists row, o = Some row /\
                                   exists asset, getAsset id = Ok asset /\
                                                 row = assetRow' id asset)
          ids res.
Proof.
  apply (results_resolved assetStart (assetResume getAsset locale targets) ids
           (fun t k => k = t)
           (fun t r => exists asset, getAsset t = Ok asset /\
                                     r = assetRow' t asset)).
  - intros t s. reflexivity.
  - intros t k s ->. unfold assetResume.
    destruct (getAsset t) as [asset | e] eqn:E; simpl; [| exact I].
    now exists asset.
Qed.

(** The asset rows of a scan are those of assets an expanded entry links
    to, each built from what the repository served for it; and a scan that
    has asset rows fetched every such asset. *)
Lemma loadAssets_rows (asched : list nat) (st : CrawlState)
  (rows : list (string * AssetScanRow)) :
  loadAssets' asched st = Some (Ok rows) ->
  (forall id row,
      In (id, row) rows ->
      In id (visitedAssets st) /\
      exists asset, getAsset id = Ok asset /\ row = assetRow' id asset) /\
  (includeAssetsByDefault config = true ->
   forall a, In a (visitedAssets st) -> exists asset, getAsset a = Ok asset).
Proof.
  unfold loadAssets.
  destruct (includeAssetsByDefault config) eqn:Einc; simpl.
  2: { intros [= <-]. split; [intros id row [] | discriminate]. }
  destruct (Nat.eqb_spec (List.length (visitedAssets st)) 0) as [E0 | Hne];
    simpl.
  { intros [= <-]. split; [intros id row [] |].
    intros _ a Ha. destruct (visitedAssets st); [destruct Ha | discriminate]. }
  destruct (outcome _) as [[res | e] |] eqn:Eo; try discriminate.
  intros [= Hc]. pose proof (assetPool_results _ _ _ Eo) as Hres.
  split.
  - intros id row Hin.
    destruct (collectAssets_In _ _ _ Hc id row Hin) as [[] | [Hr ->]].
    clear -Hres Hr. induction Hres as [| a o ids res Ho _ IH]; [destruct Hr |].
    destruct Hr as [-> | Hr].
    + destruct Ho as [row' [[= <-] [asset [Hg ->]]]]. simpl.
      split; [now left | now exists asset].
    + destruct (IH Hr) as [H1 H2]. split; [now right | assumption].
  - intros _ a Ha. clear -Hres Ha.
    induction Hres as [| a' o ids res Ho _ IH]; [destruct Ha |].
    destruct Ha as [<- | Ha]; [| now apply IH].
    destruct Ho as [row [_ [asset [Hg _]]]]. now exists asset.
Qed.


(** Some schedule of the asset pool lets it settle. *)
Lemma loadAssets_settles (st : CrawlState) :
  exists asched, loadAssets' asched st <> None.
Proof.
  destruct (quiescent_schedule assetStart (assetResume getAsset locale targets)
              (visitedAssets st) (fun _ => 0) 1)
    with (concurrency := requestConcurrency config) (s0 := tt)
    as [asched Hq].
  - intros t s k _. lia.
  - intros k s k'. unfold assetResume. destruct (getAsset k); discriminate.
  - exists asched. unfold loadAssets.
    destruct (includeAssetsByDefault config && _); [| discriminate].
    pose proof (quiescent_settled _ _ _ asched (requestConcurrency config) tt
                  Hq) as Hs.
    destruct (outcome _) as [[res | e] |]; congruence.
Qed.

Lemma traverse_returned (fuel : nat) (schedule : nat -> list nat)
  (asched : list nat) (summary : ScanSummary) :
  traverse' fuel schedule asched rootEntryIds = Some (Ok summary) ->
  exists st arows,
    crawlLoop' fuel schedule 0 (initialState rootEntryIds) = Some (Ok st) /\
    loadAssets' asched st = Some (Ok arows) /\
    summary = mkScanSummary rootEntryIds targets [] (map snd (entryRows st))
                            (map snd arows).
Proof.
  unfold traverseDescendants.
  destruct (crawlLoop' fuel schedule 0 (initialState rootEntryIds))
    as [[st | e] |] eqn:El; try discriminate. cbn [bind].
  destruct (loadAssets getAsset locale config targets asched st)
    as [[arows | e] |] eqn:Ea; try discriminate.
  cbn [bind]. intros [= <-]. exists st, arows. auto.
Qed.

(** What a returned inventory holds: a row for every root, each entry row
    once, built from what the repository served for an entry within reach;
    each asset row built from what the repository served for an asset an
    expanded entry links to. *)
Lemma inventory_sound (fuel : nat) (schedule : nat -> list nat)
  (asched : list nat) (summary : ScanSummary) :
  traverse' fuel schedule asched rootEntryIds = Some (Ok summary) ->
  NoDup (map entryId (entries summary)) /\
  (forall id, In id rootEntryIds -> In id (map entryId (entries summary))) /\
  (forall row,
      In row (entries summary) ->
      exists entry d,
        getEntry (entryId row) = Ok entry /\
        row = entryRow locale config targets (entryId row) entry /\
        reach' d (entryId row) /\ withinDepth' d) /\
  (forall row,
      In row (assets summary) ->
      (exists asset, getAsset (assetId row) = Ok asset /\
                     row = assetRow' (assetId row) asset) /\
      exists p entry d,
        reach' d p /\ getEntry p = Ok entry /\
        isExcluded config entry = false /\
        depthReached config d = false /\
        In (assetId row) (assetIds (linksOf locale entry))).
Proof.
  intros Ht. destruct (traverse_returned _ _ _ _ Ht)
    as [st [arows [Hl [Ha ->]]]]. cbn [entries assets].
  destruct initialState_inv as [Hi0 Hs0].
  destruct (crawlLoop_inv _ _ _ _ _ Hi0 Hs0 Hl)
    as [[Hnd [Hrows [_ Hassets]]] [[Hvis Hroots] Hq]].
  assert (Hkeys : map entryId (map snd (entryRows st)) = map fst (entryRows st)).
  { rewrite map_map. apply map_ext_in. intros [id row] Hin.
    destruct (Hrows id row Hin) as [_ [entry [d [_ [-> _]]]]]. reflexivity. }
  split; [now rewrite Hkeys | split; [| split]].
  - intros id Hid. rewrite Hkeys. apply Hvis.
    destruct (Hroots id Hid) as [H | H]; [assumption |].
    rewrite Hq in H. destruct H.
  - intros row Hin. apply in_map_iff in Hin.
    destruct Hin as [[id row'] [<- Hin]]. simpl.
    destruct (Hrows id row' Hin) as [_ [entry [d [Hg [Hrow [Hr Hw]]]]]].
    assert (Hid : entryId row' = id) by (now rewrite Hrow).
    rewrite Hid. now exists entry, d.
  - intros row Hin. apply in_map_iff in Hin.
    destruct Hin as [[id row'] [<- Hin]]. simpl.
    destruct (loadAssets_rows _ _ _ Ha) as [Hr _].
    destruct (Hr id row' Hin) as [Hv [asset [Hg Hrow]]].
    assert (Hid : assetId row' = id) by (now rewrite Hrow).
    rewrite Hid. split; [now exists asset | now apply Hassets].
Qed.

End CrawlFacts.

(** ** Waves whose requests complete in the order they were sent *)

Lemma sorted_app {A : Type} (R : A -> A -> Prop) (l1 l2 : list A) :
  StronglySorted R (l1 ++ l2) <->
  StronglySorted R l1 /\ StronglySorted R l2 /\
  (forall a b, In a l1 -> In b l2 -> R a b).
Proof.
  induction l1 as [| x l1 IH]; simpl.
  - split.
    + intros H. split; [constructor | split; [assumption | intros a b []]].
    + tauto.
  - split.
    + intros H. apply StronglySorted_inv in H. destruct H as [Hs Hx].
      apply IH in Hs. destruct Hs as [H1 [H2 H12]].
      rewrite Forall_forall in Hx. split; [| split; [assumption |]].
      * constructor; [assumption |]. apply Forall_forall. intros a Ha.
        apply Hx, in_app_iff. now left.
      * intros a b [<- | Ha] Hb; [| now apply H12].
        apply Hx, in_app_iff. now right.
    + intros [H1 [H2 H12]]. apply StronglySorted_inv in H1.
      destruct H1 as [H1 Hx]. rewrite Forall_forall in Hx.
      constructor.
      * apply IH. split; [assumption | split; [assumption |]].
        intros a b Ha Hb. apply H12; [now right | assumption].
      * apply Forall_forall. intros a Ha. apply in_app_iff in Ha.
        destruct Ha as [Ha | Ha]; [now apply Hx | apply H12; [now left | easy]].
Qed.

Lemma sorted_same_depth (k : nat) (ids : list string) :
  StronglySorted leDepth (map (fun id => mkQItem id k) ids).
Proof.
  induction ids as [| id ids IH]; simpl; constructor; [assumption |].
  apply Forall_forall. intros a Ha. apply in_map_iff in Ha.
  destruct Ha as [i [<- _]]. unfold leDepth. simpl. lia.
Qed.

(** What [dispatch] sends and logs: the elements of the batch whose id was
    not visited before them, in the order of the batch. *)
Lemma dispatch_log (batch : list QItem) :
  forall st : CrawlState,
    let st' := fst (dispatch batch st) in
    let sent := snd (dispatch batch st) in
    dispatched st' = dispatched st ++ sent /\
    visitedEntries st' = visitedEntries st ++ map qid sent /\
    (forall R : QItem -> QItem -> Prop,
        StronglySorted R batch -> StronglySorted R sent) /\
    (StronglySorted leDepth batch ->
     forall x, In x batch ->
               In x sent \/ In (qid x) (visitedEntries st) \/
               exists z, In z sent /\ qid z = qid x /\ depth z <= depth x).
Proof.
  induction batch as [| item batch IH]; intros st; simpl.
  - rewrite !app_nil_r. repeat split; auto.
  - destruct (set_has (qid item) (visitedEntries st)) eqn:E.
    + destruct (IH st) as [Hd [Hv [Hs Hx]]].
      split; [assumption | split; [assumption | split]].
      * intros R HR. apply Hs. now apply StronglySorted_inv in HR.
      * intros HR x [<- | Hin].
        -- right. left. now apply set_has_In.
        -- apply Hx; [| assumption]. now apply StronglySorted_inv in HR.
    + match goal with |- context [dispatch batch ?s] =>
        specialize (IH s); destruct (dispatch batch s) as [st'' sent] eqn:Ed
      end.
      simpl in *. destruct IH as [Hd [Hv [Hs Hx]]].
      pose proof (dispatch_spec batch
                    (mkCrawlState (set_add (qid item) (visitedEntries st))
                       (visitedAssets st) (entryRows st) (queue st)
                       (dispatched st ++ [item]))) as Hspec.
      rewrite Ed in Hspec. simpl in Hspec.
      destruct Hspec as [_ [_ [_ [_ [_ [_ Hsub]]]]]].
      split; [| split; [| split]].
      * rewrite Hd, <- app_assoc. reflexivity.
      * rewrite Hv. unfold set_add. rewrite E, <- app_assoc. reflexivity.
      * intros R HR. apply StronglySorted_inv in HR. destruct HR as [HR Hall].
        constructor; [now apply Hs |]. rewrite Forall_forall in *.
        intros a Ha. now apply Hall, Hsub.
      * intros HR x [<- | Hin]; [left; now left |].
        pose proof HR as HR'. apply StronglySorted_inv in HR'.
        destruct HR' as [HRt Hall]. rewrite Forall_forall in Hall.
        destruct (Hx HRt x Hin) as [H | [H | [z [Hz [Hq Hle]]]]].
        -- left. now right.
        -- apply set_add_In in H. destruct H as [Heq | H]; [| right; now left].
           right. right. exists item. split; [now left |].
           split; [now symmetry | apply (Hall x Hin)].
        -- right. right. exists z. split; [now right | now split].
Qed.

Section BreadthFirst.
Variable getEntry : string -> result jsval.
Variable locale : string.
Variable config : InstallConfig.
Variable targets : list string.
Variable rootEntryIds : list string.

Local Abbreviation reach' := (reach getEntry locale config rootEntryIds).
Local Abbreviation reachFrom' := (reachFrom getEntry locale config).
Local Abbreviation okPath' := (okPath config).
Local Abbreviation resolved' := (resolved getEntry locale config).
Local Abbreviation bfsInv' := (bfsInv getEntry locale config rootEntryIds).
Local Abbreviation visit' := (visit locale config targets).
Local Abbreviation complete' := (complete getEntry locale config targets).
Local Abbreviation wave' := (wave getEntry locale config targets).
Local Abbreviation crawlLoop' := (crawlLoop getEntry locale config targets).

Lemma reachFrom_snoc (x p c : string) (m : nat) (e : jsval) :
  reachFrom' x m p ->
  getEntry p = Ok e -> isExcluded config e = false ->
  In c (entryIds (linksOf locale e)) ->
  reachFrom' x (S m) c.
Proof.
  intros H. induction H as [x | x e0 y m p Hg Hx Hy Hr IH]; intros Hp Hex Hc.
  - econstructor; eauto. constructor.
  - econstructor; eauto.
Qed.

Lemma reach_from_root (n : nat) (c : string) :
  reach' n c -> exists r, In r rootEntryIds /\ reachFrom' r n c.
Proof.
  induction 1 as [id Hid | d p e c Hr IH Hg Hx Hc].
  - exists id. split; [assumption | constructor].
  - destruct IH as [r [Hr' Hp]]. exists r. split; [assumption |].
    eapply reachFrom_snoc; eauto.
Qed.

Lemma reach_extend (x c : string) (m : nat) :
  reachFrom' x m c -> forall k, reach' k x -> reach' (k + m) c.
Proof.
  induction 1 as [x | x e y m c Hg Hx Hy Hr IH]; intros k Hk.
  - now rewrite Nat.add_0_r.
  - rewrite Nat.add_succ_r. apply (IH (S k)). econstructor; eauto.
Qed.

Lemma resolved_mono (done pending : list QItem) (st : CrawlState)
  (c : string) (n n' : nat) :
  resolved' done pending st c n -> n <= n' -> resolved' done pending st c n'.
Proof.
  intros [[y [Hy [Hq Hd]]] | [x [m [Hl [Hr [Hd Hok]]]]]] Hle.
  - left. exists y. split; [assumption | split; [assumption | lia]].
  - right. exists x, m. split; [assumption | split; [assumption |]].
    split; [lia | assumption].
Qed.

Lemma visit_dispatched (item : QItem) (entry : jsval) (st : CrawlState) :
  dispatched (visit' item entry st) = dispatched st.
Proof.
  unfold visit. destruct (isExcluded config entry); [reflexivity |].
  destruct (depthReached config (depth item)); [reflexivity |].
  assert (H : forall ids s, dispatched (enqueueLinks (depth item) ids s)
                            = dispatched s).
  { unfold enqueueLinks. induction ids as [| id ids IH]; intros s; simpl;
      [reflexivity |].
    rewrite IH. now destruct (set_has id (visitedEntries s)). }
  destruct (includeAssetsByDefault config); simpl; now rewrite H.
Qed.

(** What was resolved before the callback of [p] ran is resolved after it,
    given that what [p] leads to is. *)
Lemma visit_transfers (done rest : list QItem) (p : QItem) (st : CrawlState)
  (e : jsval) (n : nat) (c : string) :
  (forall m c', depth p + m <= n -> reachFrom' (qid p) m c' ->
                okPath' (depth p) m ->
                resolved' (done ++ [p]) rest (visit' p e st) c' (depth p + m)) ->
  resolved' done (p :: rest) st c n ->
  resolved' (done ++ [p]) rest (visit' p e st) c n.
Proof.
  intros Hp [[y [Hy [Hq Hd]]] | [x [m [Hlive [Hr [Hd Hok]]]]]].
  - left. exists y. split; [apply in_app_iff; now left | now split].
  - destruct (visit_spec locale config targets p e st) as [Ev [_ [Eq _]]].
    destruct Hlive as [[<- | Hin] | [Hin Hnv]].
    + apply resolved_mono with (n := depth p + m); [| assumption].
      now apply Hp.
    + right. exists x, m. split; [now left | auto].
    + right. exists x, m. split; [right; split | auto].
      * rewrite Eq. apply in_app_iff. now left.
      * now rewrite Ev.
Qed.

(** Everything the entry of [p] leads to within the limit is resolved once
    its callback has run: a link of the entry is queued one level down, or
    its id was taken by an element dispatched no deeper than one level
    below [p]. *)
Lemma visit_resolves (done rest : list QItem) (p : QItem) (st : CrawlState)
  (e : jsval) :
  bfsInv' done (p :: rest) st -> getEntry (qid p) = Ok e ->
  forall m c, reachFrom' (qid p) m c -> okPath' (depth p) m ->
              resolved' (done ++ [p]) rest (visit' p e st) c (depth p + m).
Proof.
  intros [Hlog [Hvis [Hsorted [Hnear [Hroots Hdone]]]]] Hget m.
  induction m as [m IH] using lt_wf_ind. intros c Hr Hok.
  inversion Hr as [x | x e' y m' c' Hg Hx Hy Hr']; subst.
  - left. exists p. split; [apply in_app_iff; right; now left |].
    split; [reflexivity | lia].
  - rewrite Hget in Hg. injection Hg as <-.
    assert (Hlimit : (Z.of_nat (depth p + S m') <= maxTraversalDepth config)%Z).
    { destruct Hok as [H | H]; [discriminate | exact H]. }
    assert (Hdepth : depthReached config (depth p) = false).
    { unfold depthReached. apply Z.leb_gt. lia. }
    destruct (visit_spec locale config targets p e st) as [Ev [_ [Eq _]]].
    rewrite Hx, Hdepth in Eq. simpl in Eq.
    apply sorted_app in Hsorted. destruct Hsorted as [_ [_ Hbefore]].
    destruct (set_has y (visitedEntries st)) eqn:Ey.
    + apply set_has_In in Ey. rewrite Hvis, Hlog in Ey.
      apply in_map_iff in Ey. destruct Ey as [z [Hz Hin]].
      apply in_app_iff in Hin. destruct Hin as [Hin | [<- | Hin]].
      * assert (Hzp : depth z <= depth p).
        { apply (Hbefore z p Hin). now left. }
        apply resolved_mono with (n := depth z + m'); [| lia].
        apply visit_transfers.
        -- intros m'' c'' Hle Hr'' Hok''. apply IH; [lia | | ]; assumption.
        -- apply Hdone; [assumption | now rewrite Hz |].
           right. lia.
      * rewrite <- Hz in Hr'.
        apply resolved_mono with (n := depth p + m'); [| lia].
        apply IH; [lia | assumption |]. right. lia.
      * assert (Hzp : depth z <= depth p + 1).
        { apply (Hnear p z); [now left |]. right. apply in_app_iff. now left. }
        right. exists z, m'. split; [now left |].
        split; [now rewrite Hz |]. split; [lia |]. right. lia.
    + right. exists (mkQItem y (S (depth p))), m'. simpl.
      split; [| split; [assumption | split; [lia | right; lia]]].
      right. split.
      * rewrite Eq. apply in_app_iff. right. apply in_map_iff.
        exists y. split; [reflexivity |]. apply filter_In.
        split; [assumption | now rewrite Ey].
      * simpl. rewrite Ev. now apply set_has_false.
Qed.

Lemma sorted_behind {A : Type} (R : A -> A -> Prop) (done rest q new : list A)
  (p : A) :
  StronglySorted R (done ++ (p :: rest) ++ q) ->
  StronglySorted R new ->
  (forall a b, In a (done ++ (p :: rest) ++ q) -> In b new -> R a b) ->
  StronglySorted R ((done ++ [p]) ++ rest ++ q ++ new).
Proof.
  intros Hs Hn Hb.
  replace ((done ++ [p]) ++ rest ++ q ++ new)
    with ((done ++ (p :: rest) ++ q) ++ new).
  - apply sorted_app. auto.
  - rewrite <- !app_assoc. reflexivity.
Qed.

Lemma visit_bfs (done rest : list QItem) (p : QItem) (st : CrawlState)
  (e : jsval) :
  bfsInv' done (p :: rest) st -> getEntry (qid p) = Ok e ->
  bfsInv' (done ++ [p]) rest (visit' p e st).
Proof.
  intros Hinv Hget. pose proof (visit_resolves _ _ _ _ _ Hinv Hget) as Hres.
  destruct Hinv as [Hlog [Hvis [Hsorted [Hnear [Hroots Hdone]]]]].
  destruct (visit_spec locale config targets p e st) as [Ev [_ [Eq _]]].
  pose proof (visit_dispatched p e st) as Ed.
  set (new := if negb (isExcluded config e)
                 && negb (depthReached config (depth p))
              then map (fun id => mkQItem id (S (depth p)))
                     (filter (fun id => negb (set_has id (visitedEntries st)))
                        (entryIds (linksOf locale e)))
              else []) in *.
  assert (Hnew : forall a, In a new -> depth a = S (depth p)).
  { unfold new. destruct (_ && _); [| intros a []].
    intros a Ha. apply in_map_iff in Ha. now destruct Ha as [i [<- _]]. }
  assert (Snew : StronglySorted leDepth new).
  { unfold new. destruct (_ && _); [apply sorted_same_depth | constructor]. }
  assert (Hold : forall a, In a (done ++ (p :: rest) ++ queue st) ->
                           depth a <= S (depth p)).
  { pose proof Hsorted as Hs. apply sorted_app in Hs.
    destruct Hs as [_ [_ Hbefore]].
    intros a Ha. apply in_app_iff in Ha. destruct Ha as [Ha | Ha].
    - specialize (Hbefore a p Ha). unfold leDepth in Hbefore.
      assert (depth a <= depth p) by (apply Hbefore; now left). lia.
    - specialize (Hnear p a). simpl in Hnear.
      assert (depth a <= depth p + 1) by (apply Hnear; [now left | exact Ha]).
      lia. }
  assert (Hafter : forall a, In a (rest ++ queue st) -> depth p <= depth a).
  { pose proof Hsorted as Hs. apply sorted_app in Hs.
    destruct Hs as [_ [Hs _]]. simpl in Hs. apply StronglySorted_inv in Hs.
    destruct Hs as [_ Hall]. rewrite Forall_forall in Hall. exact Hall. }
  split; [| split; [| split; [| split; [| split]]]].
  - rewrite Ed, Hlog, <- app_assoc. reflexivity.
  - now rewrite Ev, Ed.
  - rewrite Eq. apply sorted_behind; [assumption | assumption |].
    intros a b Ha Hb. unfold leDepth. rewrite (Hnew b Hb). now apply Hold.
  - rewrite Eq, app_assoc. intros a b Ha Hb.
    apply in_app_iff in Ha. apply in_app_iff in Hb.
    destruct Ha as [Ha | Ha], Hb as [Hb | Hb].
    + apply Hnear; simpl; now right.
    + rewrite (Hnew b Hb). specialize (Hafter a Ha). lia.
    + rewrite (Hnew a Ha).
      assert (depth b <= S (depth p)); [| lia].
      apply Hold, in_app_iff. right. simpl. now right.
    + rewrite (Hnew a Ha), (Hnew b Hb). lia.
  - intros r m c Hr Hrf Hok. apply visit_transfers.
    + intros m' c' _ Hr' Hok'. now apply Hres.
    + now apply (Hroots r).
  - intros y m c Hy Hrf Hok. apply in_app_iff in Hy.
    destruct Hy as [Hy | [<- | []]].
    + apply visit_transfers.
      * intros m' c' _ Hr' Hok'. now apply Hres.
      * now apply Hdone.
    + now apply Hres.
Qed.

Lemma complete_bfs (pending : list QItem) :
  forall (done : list QItem) (st st' : CrawlState),
    bfsInv' done pending st ->
    complete' pending st = Ok st' ->
    bfsInv' (done ++ pending) [] st'.
Proof.
  induction pending as [| p rest IH]; intros done st st' Hinv Hc; simpl in Hc.
  - injection Hc as <-. now rewrite app_nil_r.
  - destruct (getEntry (qid p)) as [e | err] eqn:Hget; [| discriminate].
    replace (done ++ p :: rest) with ((done ++ [p]) ++ rest)
      by now rewrite <- app_assoc.
    apply (IH _ (visit' p e st)); [| assumption].
    now apply visit_bfs.
Qed.

(** Sending the requests of a batch: an element that is dropped leaves its
    paths to an element with the same id that was sent before it, no
    deeper. *)
Lemma dispatch_bfs (done : list QItem) (st : CrawlState) (n : nat) :
  bfsInv' done [] st ->
  let st0 := mkCrawlState (visitedEntries st) (visitedAssets st)
               (entryRows st) (skipn n (queue st)) (dispatched st) in
  bfsInv' done (snd (dispatch (firstn n (queue st)) st0))
          (fst (dispatch (firstn n (queue st)) st0)).
Proof.
  intros [Hlog [Hvis [Hsorted [Hnear [Hroots Hdone]]]]] st0.
  pose proof (dispatch_log (firstn n (queue st)) st0) as [Ed [Ev [Hs Hx]]].
  pose proof (dispatch_spec (firstn n (queue st)) st0)
    as [_ [_ [Hq [_ [_ [_ Hsub]]]]]].
  set (batch := firstn n (queue st)) in *.
  set (restq := skipn n (queue st)) in *.
  assert (Equeue : queue st = batch ++ restq)
    by (symmetry; apply firstn_skipn).
  destruct (dispatch batch st0) as [st1 sent]. simpl in *.
  rewrite Equeue in Hsorted, Hnear.
  apply sorted_app in Hsorted. destruct Hsorted as [Sd [Sq Hdq]].
  apply sorted_app in Sq. destruct Sq as [Sb [Sr Hbr]].
  rewrite app_nil_r in Hlog.
  assert (Htransfer : forall c k,
             resolved' done [] st c k -> resolved' done sent st1 c k).
  { intros c k [Hsettled | [x [m [Hlive [Hr [Hd Hok]]]]]]; [now left |].
    right. destruct Hlive as [[] | [Hin Hnv]].
    rewrite Equeue in Hin. apply in_app_iff in Hin.
    assert (Hz : forall z, In z sent -> qid z = qid x -> depth z <= depth x ->
                           covered getEntry locale config sent st1 c k).
    { intros z Hz Hid Hle. exists z, m. split; [now left |].
      split; [now rewrite Hid |]. split; [lia |].
      destruct Hok as [-> | Hok]; [now left | right; lia]. }
    destruct Hin as [Hin | Hin].
    - destruct (Hx Sb x Hin) as [H | [H | [z [Hzs [Hid Hle]]]]].
      + exists x, m. split; [now left | auto].
      + contradiction.
      + now apply (Hz z).
    - destruct (in_dec string_dec (qid x) (visitedEntries st1)) as [Hv | Hv].
      + rewrite Ev in Hv. apply in_app_iff in Hv.
        destruct Hv as [Hv | Hv]; [contradiction |].
        apply in_map_iff in Hv. destruct Hv as [z [Hid Hzs]].
        apply (Hz z); [assumption | assumption |].
        apply (Hbr z x); [now apply Hsub | assumption].
      + exists x, m. split; [| auto]. right. split; [| assumption].
        now rewrite Hq. }
  split; [| split; [| split; [| split; [| split]]]].
  - now rewrite Ed, Hlog.
  - now rewrite Ev, Ed, Hvis, map_app.
  - rewrite Hq. apply sorted_app. split; [assumption | split].
    + apply sorted_app. split; [now apply Hs | split; [assumption |]].
      intros a b Ha Hb. apply Hbr; [now apply Hsub | assumption].
    + intros a b Ha Hb. apply Hdq; [assumption |]. apply in_app_iff in Hb.
      apply in_app_iff. destruct Hb as [Hb | Hb]; [left; now apply Hsub |].
      now right.
  - assert (Hin : forall a, In a (sent ++ queue st1) ->
                            In a ([] ++ batch ++ restq)).
    { intros a Ha. simpl. apply in_app_iff in Ha. apply in_app_iff.
      destruct Ha as [Ha | Ha]; [left; now apply Hsub |].
      right. now rewrite Hq in Ha. }
    intros a b Ha Hb. apply Hnear; now apply Hin.
  - intros r m c Hr Hrf Hok. now apply Htransfer, (Hroots r).
  - intros y m c Hy Hrf Hok. now apply Htransfer, Hdone.
Qed.

Lemma wave_bfs (st st' : CrawlState) :
  bfsInv' (dispatched st) [] st ->
  wave' [] st = Ok st' ->
  bfsInv' (dispatched st') [] st'.
Proof.
  intros Hinv Hw. unfold wave in Hw.
  pose proof (dispatch_bfs _ _ (batchSize config) Hinv) as Hd.
  simpl in Hd.
  destruct (dispatch (firstn (batchSize config) (queue st)) _)
    as [st1 sent]. simpl in Hd.
  rewrite completionOrder_inOrder in Hw.
  pose proof (complete_bfs _ _ _ _ Hd Hw) as Hc.
  destruct Hc as [Hlog Hrest]. rewrite app_nil_r in Hlog.
  rewrite <- Hlog in Hrest. split; [now rewrite app_nil_r | exact Hrest].
Qed.

Lemma crawlLoop_bfs (fuel : nat) (schedule : nat -> list nat) :
  (forall n, schedule n = []) ->
  forall (n : nat) (st st' : CrawlState),
    bfsInv' (dispatched st) [] st ->
    crawlLoop' fuel schedule n st = Some (Ok st') ->
    bfsInv' (dispatched st') [] st' /\ queue st' = [].
Proof.
  intros Hsched.
  induction fuel as [| fuel IH]; intros n st st' Hinv Hl; simpl in Hl;
    [discriminate |].
  destruct (queue st) as [| q qs] eqn:Eq.
  - injection Hl as <-. auto.
  - simpl in Hl. rewrite Hsched in Hl.
    destruct (wave' [] st) as [st1 | e] eqn:Ew; [| discriminate].
    apply (IH (S n) st1 st'); [| assumption].
    now apply (wave_bfs st).
Qed.

Lemma initialState_bfs : bfsInv' [] [] (initialState rootEntryIds).
Proof.
  unfold bfsInv, initialState. simpl.
  split; [reflexivity | split; [reflexivity | split; [| split; [| split]]]].
  - apply sorted_same_depth.
  - intros a b Ha Hb. apply in_map_iff in Ha. apply in_map_iff in Hb.
    destruct Ha as [i [<- _]], Hb as [j [<- _]]. simpl. lia.
  - intros r m c Hr Hrf Hok. right. exists (mkQItem r 0), m. simpl.
    split; [| auto]. right. split; [| intros []].
    apply in_map_iff. now exists r.
  - intros y m c [].
Qed.

(** With the responses of every wave in the order of the requests, the
    crawl is breadth first: a record [n] links from a root, along a path
    the depth limit lets the crawl follow, was dispatched at a depth of at
    most [n]. *)
Lemma crawlLoop_in_order_min_depth (fuel : nat) (schedule : nat -> list nat)
  (st : CrawlState) :
  (forall n, schedule n = []) ->
  crawlLoop' fuel schedule 0 (initialState rootEntryIds) = Some (Ok st) ->
  forall n c, reach' n c -> okPath' 0 n ->
              exists y, In y (dispatched st) /\ qid y = c /\ depth y <= n.
Proof.
  intros Hsched Hl n c Hr Hok.
  destruct (crawlLoop_bfs fuel schedule Hsched 0 _ _ initialState_bfs Hl)
    as [[_ [_ [_ [_ [Hroots _]]]]] Hq].
  apply reach_from_root in Hr. destruct Hr as [r [Hin Hrf]].
  destruct (Hroots r n c Hin Hrf Hok)
    as [Hs | [x [m [[[] | [Hx _]] _]]]]; [exact Hs |].
  rewrite Hq in Hx. destruct Hx.
Qed.

Local Abbreviation logInv' := (logInv getEntry locale config rootEntryIds).

Lemma dispatch_NoDup (batch : list QItem) :
  forall st : CrawlState,
    NoDup (visitedEntries st) ->
    NoDup (visitedEntries (fst (dispatch batch st))).
Proof.
  induction batch as [| item batch IH]; intros st Hnd; simpl; [assumption |].
  destruct (set_has (qid item) (visitedEntries st)); [now apply IH |].
  match goal with |- context [dispatch batch ?s] =>
    specialize (IH s); destruct (dispatch batch s) as [st'' sent]
  end.
  simpl in *. apply IH. now apply set_add_NoDup.
Qed.

Lemma complete_log (order : list QItem) :
  forall st st' : CrawlState,
    complete' order st = Ok st' ->
    dispatched st' = dispatched st /\ visitedEntries st' = visitedEntries st.
Proof.
  induction order as [| item order IH]; intros st st' Hc; simpl in Hc.
  - injection Hc as <-. auto.
  - destruct (getEntry (qid item)) as [e | err]; [| discriminate].
    destruct (IH _ _ Hc) as [Hd Hv].
    destruct (visit_spec locale config targets item e st) as [Ev _].
    rewrite Hd, Hv, Ev, visit_dispatched. auto.
Qed.

Lemma wave_log (choices : list nat) (st st' : CrawlState) :
  crawlInv getEntry locale config targets rootEntryIds st ->
  logInv' st ->
  wave' choices st = Ok st' ->
  logInv' st'.
Proof.
  intros [_ [_ [Hqueue _]]] [Hvis [Hnd Hlog]] Hw. unfold wave in Hw.
  set (n := batchSize config) in *.
  set (st0 := mkCrawlState (visitedEntries st) (visitedAssets st)
                (entryRows st) (skipn n (queue st)) (dispatched st)) in *.
  pose proof (dispatch_log (firstn n (queue st)) st0) as [Ed [Ev _]].
  pose proof (dispatch_spec (firstn n (queue st)) st0)
    as [_ [_ [_ [_ [_ [_ Hsub]]]]]].
  pose proof (dispatch_NoDup (firstn n (queue st)) st0 Hnd) as Hnd1.
  destruct (dispatch (firstn n (queue st)) st0) as [st1 sent].
  simpl in Ed, Ev, Hsub, Hnd1.
  destruct (complete_log _ _ _ Hw) as [Hd Hv].
  split; [| split].
  - now rewrite Hv, Hd, Ev, Ed, Hvis, map_app.
  - now rewrite Hv.
  - intros y Hy. rewrite Hd, Ed in Hy. apply in_app_iff in Hy.
    destruct Hy as [Hy | Hy]; [now apply Hlog |].
    apply Hqueue. apply Hsub in Hy.
    rewrite <- (firstn_skipn n (queue st)). apply in_app_iff. now left.
Qed.

Lemma crawlLoop_log (fuel : nat) (schedule : nat -> list nat) :
  forall (n : nat) (st st' : CrawlState),
    crawlInv getEntry locale config targets rootEntryIds st ->
    settledInv rootEntryIds st ->
    logInv' st ->
    crawlLoop' fuel schedule n st = Some (Ok st') ->
    logInv' st'.
Proof.
  induction fuel as [| fuel IH]; intros n st st' Hinv Hset Hlog Hl;
    simpl in Hl; [discriminate |].
  destruct (queue st) as [| q qs] eqn:Eq.
  - now injection Hl as <-.
  - simpl in Hl.
    destruct (wave' (schedule n) st) as [st1 | e] eqn:Ew; [| discriminate].
    destruct (wave_inv getEntry locale config targets rootEntryIds
                _ _ _ Hinv Hset Ew) as [Hinv1 Hset1].
    apply (IH (S n) st1 st'); try assumption.
    now apply (wave_log (schedule n) st).
Qed.

(** The depth an id is given, under every completion order: each visited
    id is dispatched once, at a depth at which the links lead to it, and
    has its row when the crawl returns. *)
Lemma crawl_depth_sound (fuel : nat) (schedule : nat -> list nat)
  (st : CrawlState) :
  crawlLoop' fuel schedule 0 (initialState rootEntryIds) = Some (Ok st) ->
  NoDup (map qid (dispatched st)) /\
  (forall y, In y (dispatched st) ->
             reach' (depth y) (qid y) /\ withinDepth config (depth y) /\
             In (qid y) (map fst (entryRows st))) /\
  (forall id, In id (map fst (entryRows st)) ->
              In id (map qid (dispatched st))).
Proof.
  intros Hl.
  destruct (initialState_inv getEntry locale config targets rootEntryIds)
    as [Hinv Hset].
  assert (Hlog0 : logInv' (initialState rootEntryIds)).
  { unfold logInv, initialState. simpl.
    split; [reflexivity | split; [constructor | intros y []]]. }
  pose proof (crawlLoop_log _ _ _ _ _ Hinv Hset Hlog0 Hl) as [Hvis [Hnd Hlog]].
  destruct (crawlLoop_inv getEntry locale config targets rootEntryIds
              _ _ _ _ _ Hinv Hset Hl) as [[_ [Hrows _]] [[Hrowed _] _]].
  split; [now rewrite <- Hvis | split].
  - intros y Hy. destruct (Hlog y Hy) as [Hr Hw].
    split; [assumption | split; [assumption |]].
    apply Hrowed. rewrite Hvis. now apply in_map.
  - intros id Hid. apply in_map_iff in Hid. destruct Hid as [[i row] [<- Hin]].
    simpl. rewrite <- Hvis. now apply (Hrows i row).
Qed.

(** With the responses of every wave in the order of the requests, the
    depth the crawl gives to a record within the limit is the least number
    of links that lead to it from a root. *)
Lemma crawl_in_order_keeps_min_depth (fuel : nat) (schedule : nat -> list nat)
  (st : CrawlState) :
  (forall n, schedule n = []) ->
  crawlLoop' fuel schedule 0 (initialState rootEntryIds) = Some (Ok st) ->
  forall n c,
    reach' n c -> okPath' 0 n ->
    exists y, In y (dispatched st) /\ qid y = c /\
              reach' (depth y) c /\
              (forall n', reach' n' c -> okPath' 0 n' -> depth y <= n') /\
              (forall z, In z (dispatched st) -> qid z = c -> z = y).
Proof.
  intros Hsched Hl n c Hr Hok.
  destruct (crawl_depth_sound _ _ _ Hl) as [Hnd [Hsound _]].
  destruct (crawlLoop_in_order_min_depth _ _ _ Hsched Hl n c Hr Hok)
    as [y [Hy [Hq Hd]]].
  assert (Huniq : forall z, In z (dispatched st) -> qid z = c -> z = y).
  { intros z Hz Hqz. rewrite <- Hq in Hqz. clear - Hnd Hy Hz Hqz.
    induction (dispatched st) as [| a l IH]; [destruct Hy |].
    simpl in Hnd. apply NoDup_cons_iff in Hnd. destruct Hnd as [Hna Hnd].
    destruct Hy as [-> | Hy], Hz as [-> | Hz].
    - reflexivity.
    - exfalso. apply Hna. rewrite <- Hqz. now apply in_map.
    - exfalso. apply Hna. rewrite Hqz. now apply in_map.
    - now apply IH. }
  exists y. split; [assumption | split; [assumption | split; [| split]]].
  - rewrite <- Hq. now apply Hsound.
  - intros n' Hr' Hok'.
    destruct (crawlLoop_in_order_min_depth _ _ _ Hsched Hl n' c Hr' Hok')
      as [z [Hz [Hqz Hdz]]].
    now rewrite <- (Huniq z Hz Hqz).
  - exact Huniq.
Qed.

End BreadthFirst.




(** C5.  A record whose content type is among the excluded ones, or is
    [location], is an excluded record.  Visiting one records its row, marked
    excluded and with no missing tag whatever tags it has, and leaves the
    queue and the asset set as they were, whatever links its fields hold.
    In a returned inventory every row of such a type is marked excluded and
    has no missing tag, every row is within reach of a root along records
    that are not excluded, and every asset row is of an asset that a record
    that is not excluded links to; and every record the crawl visited has
    its row. *)
Theorem excluded_records_are_reported_not_expanded
  (getEntry getAsset : string -> result jsval) (locale : string)
  (config : InstallConfig) (targets rootEntryIds : list string) :
  (forall entry,
      isExcluded config entry
      = includes_val (contentTypeOf entry) (excludedContentTypes config)
        || is_str "location" (contentTypeOf entry)) /\
  (forall item entry st,
      isExcluded config entry = true ->
      let row := entryRow locale config targets (qid item) entry in
      visit locale config targets item entry st
      = mkCrawlState (visitedEntries st) (visitedAssets st)
                     (map_set (qid item) row (entryRows st)) (queue st)
                     (dispatched st) /\
      entryExcluded row = true /\ entryMissingTagIds row = []) /\
  (forall fuel schedule asched summary,
      traverseDescendants getEntry getAsset locale config targets
        fuel schedule asched rootEntryIds = Some (Ok summary) ->
      (forall row,
          In row (entries summary) ->
          (isExcludedCt config (contentType row)
           || isLocationCt (contentType row) = true ->
           entryExcluded row = true /\ entryMissingTagIds row = []) /\
          exists d, reach getEntry locale config rootEntryIds d (entryId row)) /\
      (forall row,
          In row (assets summary) ->
          exists p entry d,
            reach getEntry locale config rootEntryIds d p /\
            getEntry p = Ok entry /\ isExcluded config entry = false /\
            In (assetId row) (assetIds (linksOf locale entry)))) /\
  (forall fuel schedule st,
      crawlLoop getEntry locale config targets fuel schedule 0
                (initialState rootEntryIds) = Some (Ok st) ->
      forall id, In id (visitedEntries st) -> In id (map fst (entryRows st))).
Proof.
  split; [reflexivity | split; [| split]].
  - intros item entry st Hex row. split; [| split].
    + unfold visit. now rewrite Hex.
    + unfold row, entryRow. cbn [entryExcluded]. exact Hex.
    + unfold row, entryRow. cbn [entryMissingTagIds].
      unfold isExcluded in Hex. now rewrite Hex.
  - intros fuel schedule asched summary Ht.
    destruct (inventory_sound getEntry locale config targets rootEntryIds
                getAsset fuel schedule asched summary Ht)
      as [_ [_ [Hrows Hassets]]].
    split.
    + intros row Hin.
      destruct (Hrows row Hin) as [entry [d [_ [Hrow [Hreach _]]]]].
      split; [| now exists d].
      rewrite Hrow. unfold entryRow.
      cbn [contentType entryExcluded entryMissingTagIds].
      intros Hex. now rewrite Hex.
    + intros row Hin.
      destruct (Hassets row Hin) as [_ [p [entry [d [Hr [Hg [Hex [_ Hl]]]]]]]].
      now exists p, entry, d.
  - intros fuel schedule st Hl.
    destruct (initialState_inv getEntry locale config targets rootEntryIds)
      as [Hi0 Hs0].
    destruct (crawlLoop_inv getEntry locale config targets rootEntryIds
                fuel schedule 0 _ st Hi0 Hs0 Hl) as [_ [[Hvis _] _]].
    exact Hvis.
Qed.

Lemma excluded_records_are_reported_not_expanded_witness :
  isExcluded scenarioConfig (sampleEntry "teaser" [] ["R9"] ["M9"]) = true /\
  (exists summary,
      traverseDescendants scenarioEntries scenarioAssets "en-US"
        scenarioConfig ["t1"] 10 inOrder [0; 0] ["R1"] = Some (Ok summary) /\
      map entryId (entries summary) = ["R1"; "R2"; "R3"] /\
      map assetId (assets summary) = ["M1"] /\
      forall row,
        In row (entries summary) ->
        (isExcludedCt scenarioConfig (contentType row)
         || isLocationCt (contentType row) = true ->
         entryExcluded row = true /\ entryMissingTagIds row = []) /\
        exists d,
          reach scenarioEntries "en-US" scenarioConfig ["R1"] d (entryId row)).
Proof.
  split; [reflexivity |].
  eexists. split; [vm_compute; reflexivity |].
  split; [reflexivity | split; [reflexivity |]].
  refine (proj1 (proj1 (proj2 (proj2
            (excluded_records_are_reported_not_expanded
               scenarioEntries scenarioAssets "en-US" scenarioConfig
               ["t1"] ["R1"]))) 10 inOrder [0; 0] _ _)).
  vm_compute. reflexivity.
Defined.

(** C6.  Roots are queued at depth 0 and a child at its parent's depth plus
    one, and only when the parent was visited below the depth limit.
    Visiting a record at or past the limit records its row and leaves the
    queue and the asset set as they were.  In a returned inventory every
    entry row is of a record some path of at most [max 0 maxDepth] links
    leads to from a root, and every asset row of an asset at most [maxDepth]
    links away. *)
Theorem crawl_respects_depth_limit
  (getEntry getAsset : string -> result jsval) (locale : string)
  (config : InstallConfig) (targets rootEntryIds : list string) :
  (forall q, In q (queue (initialState rootEntryIds)) -> depth q = 0) /\
  (forall item entry st q,
      In q (queue (visit locale config targets item entry st)) ->
      In q (queue st) \/
      (depth q = S (depth item) /\
       (Z.of_nat (depth item) < maxTraversalDepth config)%Z /\
       In (qid q) (entryIds (linksOf locale entry)))) /\
  (forall item entry st,
      (maxTraversalDepth config <= Z.of_nat (depth item))%Z ->
      visit locale config targets item entry st
      = mkCrawlState (visitedEntries st) (visitedAssets st)
          (map_set (qid item)
                   (entryRow locale config targets (qid item) entry)
                   (entryRows st))
          (queue st) (dispatched st)) /\
  (forall fuel schedule asched summary,
      traverseDescendants getEntry getAsset locale config targets
        fuel schedule asched rootEntryIds = Some (Ok summary) ->
      (forall row,
          In row (entries summary) ->
          exists d,
            reach getEntry locale config rootEntryIds d (entryId row) /\
            (Z.of_nat d <= Z.max 0 (maxTraversalDepth config))%Z) /\
      (forall row,
          In row (assets summary) ->
          exists p entry d,
            reach getEntry locale config rootEntryIds d p /\
            getEntry p = Ok entry /\
            In (assetId row) (assetIds (linksOf locale entry)) /\
            (Z.of_nat (S d) <= maxTraversalDepth config)%Z)).
Proof.
  split; [| split; [| split]].
  - intros q Hq. unfold initialState in Hq. cbn [queue] in Hq.
    apply in_map_iff in Hq. now destruct Hq as [id [<- _]].
  - intros item entry st q Hq.
    destruct (visit_spec locale config targets item entry st)
      as [_ [_ [Eq _]]].
    rewrite Eq in Hq. apply in_app_iff in Hq.
    destruct Hq as [Hq | Hq]; [now left | right].
    destruct (isExcluded config entry); [destruct Hq |].
    destruct (depthReached config (depth item)) eqn:Ed; [destruct Hq |].
    cbn [negb andb] in Hq. apply in_map_iff in Hq.
    destruct Hq as [c [<- Hc]]. apply filter_In in Hc.
    unfold depthReached in Ed. apply Z.leb_gt in Ed.
    cbn [depth qid]. tauto.
  - intros item entry st Hd. unfold visit.
    assert (Hr : depthReached config (depth item) = true)
      by (now apply Z.leb_le).
    rewrite Hr. now destruct (isExcluded config entry).
  - intros fuel schedule asched summary Ht.
    destruct (inventory_sound getEntry locale config targets rootEntryIds
                getAsset fuel schedule asched summary Ht)
      as [_ [_ [Hrows Hassets]]].
    split.
    + intros row Hin.
      destruct (Hrows row Hin) as [entry [d [_ [_ [Hreach Hw]]]]].
      exists d. split; [assumption |]. destruct Hw as [-> | Hw]; lia.
    + intros row Hin.
      destruct (Hassets row Hin) as [_ [p [entry [d [Hr [Hg [_ [Hd Hl]]]]]]]].
      exists p, entry, d. unfold depthReached in Hd. apply Z.leb_gt in Hd.
      repeat split; try assumption. lia.
Qed.

Lemma crawl_respects_depth_limit_witness :
  exists summary,
    traverseDescendants raceEntries scenarioAssets "en-US" raceConfig ["t1"]
      10 inOrder [] ["R1"; "R2"; "R3"] = Some (Ok summary) /\
    map entryId (entries summary) = ["R1"; "R2"; "R3"; "C"; "X"; "Y"] /\
    forall row,
      In row (entries summary) ->
      exists d,
        reach raceEntries "en-US" raceConfig ["R1"; "R2"; "R3"] d (entryId row)
        /\ (Z.of_nat d <= Z.max 0 (maxTraversalDepth raceConfig))%Z.
Proof.
  eexists. split; [vm_compute; reflexivity | split; [reflexivity |]].
  refine (proj1 (proj2 (proj2 (proj2
            (crawl_respects_depth_limit raceEntries scenarioAssets "en-US"
               raceConfig ["t1"] ["R1"; "R2"; "R3"])))
            10 inOrder [] _ _)).
  vm_compute. reflexivity.
Defined.

(** C7, at an input where it fails.  With three roots, two requests at a
    time and depth limit 2, [X] is one link from the root [R3] and also two
    links from the root [R1], and [Y] is one link from [X].  When the
    requests complete in the order they were sent, [X] is visited at depth
    1 and [Y] is in the inventory.  When in the second wave the request for
    [C] completes before that for [R3], [X] is queued at depth 2 ahead of
    depth 1, is visited at depth 2, and [Y] is never fetched.  In both runs
    every record has one row. *)
Theorem crawl_depth_follows_completion_order :
  let roots := ["R1"; "R2"; "R3"] in
  let run := fun schedule =>
    traverseDescendants raceEntries scenarioAssets "en-US" raceConfig ["t1"]
      10 schedule [] roots in
  let crawl := fun schedule =>
    crawlLoop raceEntries "en-US" raceConfig ["t1"] 10 schedule 0
              (initialState roots) in
  let twoWaves := fun schedule =>
    runWaves raceEntries "en-US" raceConfig ["t1"] schedule 0 2
             (initialState roots) in
  reach raceEntries "en-US" raceConfig roots 1 "X" /\
  reach raceEntries "en-US" raceConfig roots 2 "Y" /\
  queueOf (twoWaves inOrder) = [mkQItem "X" 1; mkQItem "X" 2] /\
  logOf (crawl inOrder)
  = [mkQItem "R1" 0; mkQItem "R2" 0; mkQItem "R3" 0; mkQItem "C" 1;
     mkQItem "X" 1; mkQItem "Y" 2] /\
  inventoryIds (run inOrder) = Some ["R1"; "R2"; "R3"; "C"; "X"; "Y"] /\
  queueOf (twoWaves secondFirst) = [mkQItem "X" 2; mkQItem "X" 1] /\
  logOf (crawl secondFirst)
  = [mkQItem "R1" 0; mkQItem "R2" 0; mkQItem "R3" 0; mkQItem "C" 1;
     mkQItem "X" 2] /\
  inventoryIds (run secondFirst) = Some ["R1"; "R2"; "C"; "R3"; "X"].
Proof.
  intros roots run crawl twoWaves.
  assert (HX : reach raceEntries "en-US" raceConfig roots 1 "X").
  { apply reach_link with "R3" (sampleEntry "page" [] ["X"] []).
    - apply reach_root. simpl. auto.
    - reflexivity.
    - reflexivity.
    - vm_compute. auto. }
  split; [exact HX | split].
  - apply reach_link with "X" (sampleEntry "page" [] ["Y"] []).
    + exact HX.
    + reflexivity.
    + reflexivity.
    + vm_compute. auto.
  - repeat split; vm_compute; reflexivity.
Qed.

(* ================================================================== *)
(** * Properties of the apply run *)

Section ApplyFacts.
Variable cma : Cma.
Variable byId : list (string * DialogRow).
Variable targetTagIds : list string.
Variable preservePublishState : bool.

Local Abbreviation applyStart' := (applyStart byId).
Local Abbreviation applyResume' :=
  (applyResume cma targetTagIds preservePublishState).
Local Abbreviation applyCollection' :=
  (applyCollection cma byId targetTagIds preservePublishState).

(** The worker catches every failure: its promise never rejects. *)
Lemma applyStart_never_rejects (id : string) (s : ApplyState) (e : jsval) :
  snd (applyStart' id s) <> Failed e.
Proof.
  unfold applyStart. destruct (map_get id byId) as [row |]; [| discriminate].
  destruct (rowExcluded row); discriminate.
Qed.

Lemma applyResume_never_rejects (k : ApplyWait) (s : ApplyState) (e : jsval) :
  snd (applyResume' k s) <> Failed e.
Proof.
  destruct k as [id | id w payload | id u]; simpl.
  - destruct (cmaGet cma id) as [[| | b | n | str | xs | kvs] | e'];
      discriminate.
  - destruct (cmaUpdate cma id payload) as [u | e']; [| discriminate].
    destruct (preservePublishState && w); discriminate.
  - destruct (cmaPublish cma id u); discriminate.
Qed.

(** So a pool of apply workers never rejects. *)
Lemma applyCollection_never_throws (sched : list nat) (ids : list string)
  (e : jsval) :
  applyCollection' sched ids <> Some (Throw e).
Proof.
  unfold applyCollection. destruct ids as [| id ids]; [discriminate |].
  destruct (no_rejection applyStart' applyResume' (id :: ids)
              applyStart_never_rejects applyResume_never_rejects
              sched 4 (mkTally (List.length (id :: ids)) 0 0 0 0 0, 0))
    as [Hr _].
  unfold outcome. rewrite Hr.
  destruct (forallb _ _); discriminate.
Qed.

Section Counts.
Variable f : Tally -> nat.
Variables cu cr cs cf : nat.
Hypothesis f_updated : forall t, f (addUpdated t) = f t + cu.
Hypothesis f_republished : forall t, f (addRepublished t) = f t + cr.
Hypothesis f_skipped : forall t, f (addSkippedExcluded t) = f t + cs.
Hypothesis f_failed : forall t, f (addFailed t) = f t + cf.

Local Abbreviation owed :=
  (owedFrom cma targetTagIds preservePublishState cu cr cf).
Local Abbreviation contrib :=
  (contribOf cma byId targetTagIds preservePublishState cu cr cs cf).

Lemma applyStart_adds (id : string) (s : ApplyState) :
  f (fst (fst (applyStart' id s)))
  + owedRunner owed (Awaiting 0 (snd (applyStart' id s)))
  = f (fst s) + contrib id.
Proof.
  unfold applyStart, contribOf.
  destruct (map_get id byId) as [row |]; [| reflexivity].
  destruct (rowExcluded row); [| reflexivity].
  simpl. rewrite f_skipped. lia.
Qed.

Lemma applyResume_adds (k : ApplyWait) (s : ApplyState) :
  f (fst (fst (applyResume' k s)))
  + owedRunner owed (Awaiting 0 (snd (applyResume' k s)))
  = f (fst s) + owed k.
Proof.
  destruct k as [id | id w payload | id u]; simpl.
  - unfold owedFromGet.
    destruct (cmaGet cma id) as [[| | b | n | str | xs | kvs] | e'];
      simpl; rewrite ?f_failed; lia.
  - unfold owedFromUpdate.
    destruct (cmaUpdate cma id payload) as [u | e']; simpl.
    + destruct (preservePublishState && w); simpl; rewrite f_updated; lia.
    + rewrite f_failed. lia.
  - unfold owedFromPublish.
    destruct (cmaPublish cma id u); simpl;
      rewrite ?f_republished, ?f_failed; lia.
Qed.

(** Whatever the schedule, a count of the tally ends at what it started
    with plus what the items contribute, each on its own. *)
Lemma applyCollection_count (sched : list nat) (ids : list string)
  (t : Tally) :
  applyCollection' sched ids = Some (Ok t) ->
  f t = f (mkTally (List.length ids) 0 0 0 0 0) + list_sum (map contrib ids).
Proof.
  unfold applyCollection. destruct ids as [| id ids].
  - intros [= <-]. simpl. lia.
  - destruct (outcome _) as [[res | e] |] eqn:Eo; try discriminate.
    intros [= <-].
    exact (counter_resolved applyStart' applyResume' (id :: ids)
             (fun s => f (fst s)) contrib owed
             applyStart_adds applyResume_adds sched 4 _ res Eo).
Qed.

End Counts.

(** The three counts of the equation, and what one item adds to their sum:
    1, or 2 when its republish failed after its update. *)
Local Abbreviation handled :=
  (fun t => updated t + skippedExcluded t + failed t).

Lemma item_handled_once_or_twice (id : string) :
  let c := contribOf cma byId targetTagIds preservePublishState 1 0 1 1 id in
  1 <= c <= 2.
Proof.
  unfold contribOf, owedFromGet, owedFromUpdate, owedFromPublish.
  destruct (map_get id byId) as [row |];
    [destruct (rowExcluded row); [lia |] |];
    (destruct (cmaGet cma id) as [[| | b | n | str | xs | kvs] | e']; try lia;
     match goal with |- context [cmaUpdate cma id ?p] =>
       destruct (cmaUpdate cma id p) as [u | e'']; try lia end;
     match goal with |- context [if ?c then _ else _] =>
       destruct c; try lia end;
     destruct (cmaPublish cma id u); lia).
Qed.

Lemma item_weightless (id : string) :
  0 <= contribOf cma byId targetTagIds preservePublishState 0 0 0 0 id <= 0.
Proof.
  unfold contribOf, owedFromGet, owedFromUpdate, owedFromPublish.
  destruct (map_get id byId) as [row |];
    [destruct (rowExcluded row); [lia |] |];
    (destruct (cmaGet cma id) as [[| | b | n | str | xs | kvs] | e']; try lia;
     match goal with |- context [cmaUpdate cma id ?p] =>
       destruct (cmaUpdate cma id p) as [u | e'']; try lia end;
     match goal with |- context [if ?c then _ else _] =>
       destruct c; try lia end;
     destruct (cmaPublish cma id u); lia).
Qed.

Lemma item_handled_once (id : string) :
  (forall i u e, cmaPublish cma i u <> Throw e) ->
  contribOf cma byId targetTagIds preservePublishState 1 0 1 1 id = 1.
Proof.
  intros Hpub.
  unfold contribOf, owedFromGet, owedFromUpdate, owedFromPublish.
  destruct (map_get id byId) as [row |];
    [destruct (rowExcluded row); [lia |] |];
    (destruct (cmaGet cma id) as [[| | b | n | str | xs | kvs] | e']; try lia;
     match goal with |- context [cmaUpdate cma id ?p] =>
       destruct (cmaUpdate cma id p) as [u | e'']; try lia end;
     match goal with |- context [if ?c then _ else _] =>
       destruct c; try lia end;
     destruct (cmaPublish cma id u) eqn:Ep; try lia;
     exfalso; eapply Hpub; eassumption).
Qed.

Lemma item_republished_le_updated (id : string) :
  contribOf cma byId targetTagIds preservePublishState 0 1 0 0 id
  <= contribOf cma byId targetTagIds preservePublishState 1 0 0 0 id.
Proof.
  unfold contribOf, owedFromGet, owedFromUpdate, owedFromPublish.
  destruct (map_get id byId) as [row |];
    [destruct (rowExcluded row); [lia |] |];
    (destruct (cmaGet cma id) as [[| | b | n | str | xs | kvs] | e']; try lia;
     match goal with |- context [cmaUpdate cma id ?p] =>
       destruct (cmaUpdate cma id p) as [u | e'']; try lia end;
     match goal with |- context [if ?c then _ else _] =>
       destruct c; try lia end;
     destruct (cmaPublish cma id u); lia).
Qed.

Lemma list_sum_bounds {A : Type} (g : A -> nat) (lo hi : nat) (l : list A) :
  (forall x, lo <= g x <= hi) ->
  lo * List.length l <= list_sum (map g l) <= hi * List.length l.
Proof.
  intros Hg. induction l as [| x l IH]; simpl; [lia |].
  specialize (Hg x). nia.
Qed.

Lemma list_sum_le {A : Type} (g h : A -> nat) (l : list A) :
  (forall x, g x <= h x) -> list_sum (map g l) <= list_sum (map h l).
Proof.
  intros Hg. induction l as [| x l IH]; simpl; [lia |].
  specialize (Hg x). lia.
Qed.

(** The tally of a collection, under every schedule: [selected] is the
    number of ids dispatched; [republished] is at most [updated];
    [skippedAlreadyOk] is 0; and [updated + skippedExcluded + failed] is at
    least [selected] and at most twice that, and equal to it when no
    republish fails. *)
Lemma applyCollection_tally (sched : list nat) (ids : list string)
  (t : Tally) :
  applyCollection' sched ids = Some (Ok t) ->
  selected t = List.length ids /\
  skippedAlreadyOk t = 0 /\
  republished t <= updated t /\
  selected t <= updated t + skippedExcluded t + failed t <= 2 * selected t /\
  ((forall i u e, cmaPublish cma i u <> Throw e) ->
   selected t = updated t + skippedExcluded t + failed t).
Proof.
  intros Ha.
  pose proof (applyCollection_count selected 0 0 0 0
                ltac:(intros; simpl; lia) ltac:(intros; simpl; lia)
                ltac:(intros; simpl; lia) ltac:(intros; simpl; lia)
                sched ids t Ha) as Hsel.
  pose proof (applyCollection_count skippedAlreadyOk 0 0 0 0
                ltac:(intros; simpl; lia) ltac:(intros; simpl; lia)
                ltac:(intros; simpl; lia) ltac:(intros; simpl; lia)
                sched ids t Ha) as Hok.
  pose proof (applyCollection_count updated 1 0 0 0
                ltac:(intros; simpl; lia) ltac:(intros; simpl; lia)
                ltac:(intros; simpl; lia) ltac:(intros; simpl; lia)
                sched ids t Ha) as Hupd.
  pose proof (applyCollection_count republished 0 1 0 0
                ltac:(intros; simpl; lia) ltac:(intros; simpl; lia)
                ltac:(intros; simpl; lia) ltac:(intros; simpl; lia)
                sched ids t Ha) as Hrep.
  pose proof (applyCollection_count handled 1 0 1 1
                ltac:(intros; simpl; lia) ltac:(intros; simpl; lia)
                ltac:(intros; simpl; lia) ltac:(intros; simpl; lia)
                sched ids t Ha) as Hhan.
  cbn [selected skippedAlreadyOk updated republished skippedExcluded failed]
    in Hsel, Hok, Hupd, Hrep, Hhan.
  pose proof (list_sum_bounds _ 0 0 ids item_weightless) as Hzero.
  pose proof (list_sum_bounds _ 1 2 ids item_handled_once_or_twice) as Hbounds.
  pose proof (list_sum_le _ _ ids item_republished_le_updated) as Hle.
  split; [lia | split; [lia | split; [lia | split; [lia |]]]].
  intros Hpub.
  pose proof (list_sum_bounds _ 1 1 ids
                (fun id => conj (Nat.eq_le_incl _ _ (eq_sym (item_handled_once id Hpub)))
                                (Nat.eq_le_incl _ _ (item_handled_once id Hpub))))
    as Hone.
  lia.
Qed.

End ApplyFacts.

(** ** The tag mutation *)

Lemma assoc_map_set (k : string) (v : jsval) (m : list (string * jsval)) :
  assoc k (map_set k v m) = v.
Proof.
  induction m as [| [k0 v0] m IH]; simpl.
  - now rewrite String.eqb_refl.
  - destruct (String.eqb_spec k0 k) as [-> | Hne]; simpl.
    + now rewrite String.eqb_refl.
    + destruct (String.eqb_spec k0 k); [contradiction | exact IH].
Qed.


Lemma string_ids_In (t : string) (tags : list jsval) :
  In t (string_ids tags) <->
  t <> "" /\ exists tag, In tag tags /\ sys_prop "id" tag = JStr t.
Proof.
  unfold string_ids. rewrite in_flat_map. split.
  - intros [tag [Hin Ht]]. destruct (sys_prop "id" tag) as [| | | | i | |] eqn:E;
      try destruct Ht.
    destruct (String.eqb_spec i "") as [-> | Hne]; [destruct Ht |].
    destruct Ht as [<- | []]. split; [assumption | now exists tag].
  - intros [Hne [tag [Hin Ht]]]. exists tag. split; [assumption |].
    rewrite Ht. destruct (String.eqb_spec t ""); [contradiction | now left].
Qed.


Lemma string_ids_made (ts : list string) :
  ~ In "" ts -> string_ids (map makeTagLink ts) = ts.
Proof.
  induction ts as [| t ts IH]; intros Hne; [reflexivity |].
  simpl in *. change (sys_prop "id" (makeTagLink t)) with (JStr t).
  destruct (String.eqb_spec t "") as [-> | _]; [tauto |].
  simpl. f_equal. apply IH. tauto.
Qed.


Lemma getTagIds_existing (entity : jsval) :
  getTagIdsFromMetadata entity = string_ids (existingLinks entity).
Proof.
  unfold getTagIdsFromMetadata, existingLinks.
  now destruct (prop "tags" (prop "metadata" entity)).
Qed.

Lemma existingLinks_tagged (entity : jsval) (targets : list string) :
  existingLinks (taggedEntity entity targets)
  = mergedLinks (existingLinks entity) targets.
Proof.
  unfold existingLinks at 1, taggedEntity, prop. cbn [own_props].
  rewrite assoc_map_set. cbn [own_props]. now rewrite assoc_map_set.
Qed.






(** ** The run *)

Lemma actionableIds_again (byId : list (string * DialogRow))
  (ids : list string) :
  actionableIds byId (actionableIds byId ids) = actionableIds byId ids.
Proof.
  unfold actionableIds. induction ids as [| id ids IH]; [reflexivity |].
  simpl. destruct (match map_get id byId with
                   | Some row => negb (rowExcluded row) && willAdd row
                   | None => false
                   end) eqn:E; [| exact IH].
  simpl. now rewrite E, IH.
Qed.

(** A run that ends with a summary passed both checks, had something to
    update, and took each tally from the pool of its collection. *)
Lemma onApply_done (entryCma assetCma : Cma) (p : DialogPayload)
  (selectedContentIds selectedMediaIds : list string)
  (preservePublishState : bool) (esched asched : list nat)
  (summary : ApplySummary) :
  onApply entryCma assetCma p selectedContentIds selectedMediaIds
          preservePublishState esched asched = Done summary ->
  let contentIds := actionableIds (rowsById (contentRows p)) selectedContentIds in
  let mediaIds := actionableIds (rowsById (mediaRows p)) selectedMediaIds in
  payloadTargetTagIds p <> [] /\
  (contentIds <> [] \/ mediaIds <> []) /\
  applyCollection entryCma (rowsById (contentRows p)) (payloadTargetTagIds p)
                  preservePublishState esched contentIds
  = Some (Ok (entriesTally summary)) /\
  applyCollection assetCma (rowsById (mediaRows p)) (payloadTargetTagIds p)
                  preservePublishState asched mediaIds
  = Some (Ok (assetsTally summary)).
Proof.
  intros H contentIds mediaIds. unfold onApply in H.
  destruct (Nat.eqb_spec (List.length (payloadTargetTagIds p)) 0) as [E | Ht];
    [discriminate |].
  destruct (Nat.eqb_spec (List.length selectedContentIds
                          + List.length selectedMediaIds) 0) as [E | Hs];
    [discriminate |].
  fold contentIds mediaIds in H.
  destruct (Nat.eqb_spec (List.length contentIds) 0) as [Ec | Hc];
    destruct (Nat.eqb_spec (List.length mediaIds) 0) as [Em | Hm];
    cbn [andb] in H; try discriminate;
    (destruct (applyCollection entryCma _ _ _ esched contentIds)
       as [[te | e] |]; try discriminate;
     destruct (applyCollection assetCma _ _ _ asched mediaIds)
       as [[ta | e] |]; try discriminate;
     injection H as <-; cbn [entriesTally assetsTally];
     split;
     [intros E0; rewrite E0 in Ht; simpl in Ht; congruence
     | split; [| split; reflexivity]]).
  - right. intros E0. rewrite E0 in Hm. simpl in Hm. congruence.
  - left. intros E0. rewrite E0 in Hc. simpl in Hc. congruence.
  - left. intros E0. rewrite E0 in Hc. simpl in Hc. congruence.
Qed.

(** C10.  In every apply run that ends with a summary, [skippedAlreadyOk]
    is 0 in both tallies; [selected] counts the actionable ids only, and
    the run is the run on the actionable ids alone: the selected ids that
    are not actionable are in no count. *)
Theorem onApply_never_counts_already_ok (entryCma assetCma : Cma)
  (p : DialogPayload) (selectedContentIds selectedMediaIds : list string)
  (preservePublishState : bool) (esched asched : list nat)
  (summary : ApplySummary) :
  onApply entryCma assetCma p selectedContentIds selectedMediaIds
          preservePublishState esched asched = Done summary ->
  let contentIds := actionableIds (rowsById (contentRows p)) selectedContentIds in
  let mediaIds := actionableIds (rowsById (mediaRows p)) selectedMediaIds in
  skippedAlreadyOk (entriesTally summary) = 0 /\
  skippedAlreadyOk (assetsTally summary) = 0 /\
  selected (entriesTally summary) = List.length contentIds /\
  selected (assetsTally summary) = List.length mediaIds /\
  onApply entryCma assetCma p contentIds mediaIds preservePublishState
          esched asched = Done summary.
Proof.
  intros H contentIds mediaIds.
  destruct (onApply_done _ _ _ _ _ _ _ _ _ H) as [Ht [Hsome [He Ha]]].
  fold contentIds in He, Hsome. fold mediaIds in Ha, Hsome.
  destruct (applyCollection_tally _ _ _ _ _ _ _ He) as [Hse [Hoe _]].
  destruct (applyCollection_tally _ _ _ _ _ _ _ Ha) as [Hsa [Hoa _]].
  split; [exact Hoe | split; [exact Hoa | split; [exact Hse |]]].
  split; [exact Hsa |].
  unfold onApply.
  destruct (Nat.eqb_spec (List.length (payloadTargetTagIds p)) 0) as [E | _].
  { destruct (payloadTargetTagIds p); [congruence | discriminate]. }
  destruct (Nat.eqb_spec (List.length contentIds + List.length mediaIds) 0)
    as [E | _].
  { destruct Hsome as [Hn | Hn]; destruct contentIds, mediaIds;
      simpl in E; congruence || lia. }
  unfold contentIds, mediaIds. rewrite !actionableIds_again.
  fold contentIds mediaIds.
  destruct (Nat.eqb_spec (List.length contentIds) 0) as [Ec | _];
    destruct (Nat.eqb_spec (List.length mediaIds) 0) as [Em | _];
    cbn [andb]; rewrite ?He, ?Ha; try now destruct summary.
  destruct Hsome as [Hn | Hn]; destruct contentIds, mediaIds;
    simpl in *; congruence.
Qed.

Lemma onApply_never_counts_already_ok_witness :
  exists summary,
    onApply sampleCma sampleCma sampleDialog ["E1"; "E2"; "E3"; "E4"] ["M1"]
            true [0; 0; 0; 0; 1; 1; 1; 1] [0; 0; 0; 0] = Done summary /\
    skippedAlreadyOk (entriesTally summary) = 0 /\
    skippedAlreadyOk (assetsTally summary) = 0 /\
    selected (entriesTally summary) = 2 /\
    selected (assetsTally summary) = 1.
Proof.
  eexists. split; [vm_compute; reflexivity |].
  assert (Hrun : onApply sampleCma sampleCma sampleDialog
                   ["E1"; "E2"; "E3"; "E4"] ["M1"] true
                   [0; 0; 0; 0; 1; 1; 1; 1] [0; 0; 0; 0]
                 = Done (mkApplySummary (mkTally 2 2 1 0 0 1)
                                        (mkTally 1 1 1 0 0 0)))
    by (vm_compute; reflexivity).
  destruct (onApply_never_counts_already_ok _ _ _ _ _ _ _ _ _ Hrun)
    as [H1 [H2 [H3 [H4 _]]]].
  split; [exact H1 | split; [exact H2 | split; [exact H3 | exact H4]]].
Defined.

(** C1, at an input where it fails.  Two published entries are selected and
    actionable, both updates succeed, and the republish of the second one
    fails: that entry is counted as updated and as failed, so that
    [updated + skippedExcluded + failed] is 3 with [selected] 2. *)
Theorem onApply_counts_failed_republish_twice :
  onApply sampleCma sampleCma sampleDialog ["E1"; "E2"] [] true
          [0; 0; 0; 0; 1; 1; 1; 1] []
  = Done (mkApplySummary (mkTally 2 2 1 0 0 1) (mkTally 0 0 0 0 0 0)) /\
  selected (mkTally 2 2 1 0 0 1)
  <> updated (mkTally 2 2 1 0 0 1) + skippedExcluded (mkTally 2 2 1 0 0 1)
     + failed (mkTally 2 2 1 0 0 1).
Proof.
  split; [vm_compute; reflexivity | simpl; lia].
Qed.

(* ================================================================== *)
(** * Further properties of the link extractor *)

Lemma link_is_truthy (l : jsval) :
  isEntryLink l || isAssetLink l = true -> truthy l = true.
Proof. destruct l; simpl; try discriminate; reflexivity. Qed.

Lemma link_types_apart (l : jsval) :
  isEntryLink l = true -> isAssetLink l = false.
Proof.
  unfold isEntryLink, isAssetLink. intros H.
  apply andb_true_iff in H. destruct H as [H _].
  apply andb_true_iff in H. destruct H as [_ H].
  destruct (sys_prop "linkType" l); try discriminate. simpl in H.
  apply String.eqb_eq in H. subst s.
  now rewrite andb_false_r.
Qed.

Lemma add_id_In (id : jsval) (s : JSet) (x : string) :
  In x (add_id id s) <-> In x s \/ id = JStr x.
Proof.
  destruct id; simpl; try (split; [tauto | intros [H | H]; [exact H | discriminate]]).
  rewrite set_add_In. split.
  - intros [-> | H]; [now right | now left].
  - intros [H | [= ->]]; [now right | now left].
Qed.

Lemma extractEach_cons (x : jsval) (xs : list jsval) (out : LinkSets) :
  extractEach (x :: xs) out = extractEach xs (deepExtractLinks x out).
Proof. reflexivity. Qed.

(** What the walk of a list of values finds, given what the walk of each
    finds. *)
Lemma extractEach_In (sel : LinkSets -> JSet) (found : jsval -> string -> Prop)
  (xs : list jsval) :
  Forall (fun x => forall out id,
              In id (sel (deepExtractLinks x out)) <->
              In id (sel out) \/ found x id) xs ->
  forall out id,
    In id (sel (extractEach xs out)) <->
    In id (sel out) \/ exists x, In x xs /\ found x id.
Proof.
  induction 1 as [| x xs Hx Hxs IH]; intros out id.
  - simpl. split; [tauto | intros [H | [x [[] _]]]; exact H].
  - rewrite extractEach_cons, IH, Hx. split.
    + intros [[H | H] | [y [Hy H]]]; [now left | |].
      * right. exists x. split; [now left | exact H].
      * right. exists y. split; [now right | exact H].
    + intros [H | [y [[<- | Hy] H]]].
      * left. now left.
      * left. now right.
      * right. now exists y.
Qed.

(** The link extractor finds the links its walk stops at, and nothing
    else: an id is in the entry set after the walk of [value] exactly when
    it was there before or is the string id of an entry link the walk
    comes to, and likewise for the asset set.  What lies inside a link
    object is not looked at. *)
Theorem deepExtractLinks_finds_links_walked_to :
  forall value out id,
    (In id (entryIds (deepExtractLinks value out)) <->
     In id (entryIds out) \/
     exists l, stopsAt value l /\ isEntryLink l = true /\
               sys_prop "id" l = JStr id) /\
    (In id (assetIds (deepExtractLinks value out)) <->
     In id (assetIds out) \/
     exists l, stopsAt value l /\ isAssetLink l = true /\
               sys_prop "id" l = JStr id).
Proof.
  assert (Hprim : forall value,
             (forall l, ~ stopsAt value l) ->
             isEntryLink value = false -> isAssetLink value = false ->
             (forall out, deepExtractLinks value out = out) ->
             forall out id,
               (In id (entryIds (deepExtractLinks value out)) <->
                In id (entryIds out) \/
                exists l, stopsAt value l /\ isEntryLink l = true /\
                          sys_prop "id" l = JStr id) /\
               (In id (assetIds (deepExtractLinks value out)) <->
                In id (assetIds out) \/
                exists l, stopsAt value l /\ isAssetLink l = true /\
                          sys_prop "id" l = JStr id)).
  { intros value Hno _ _ Heq out id. rewrite Heq.
    split; (split; [now left | intros [H | [l [H _]]]; [exact H |]]);
      now destruct (Hno l). }
  assert (Hnode : forall value (vs : list jsval),
             (forall out, isEntryLink value || isAssetLink value = false ->
                          deepExtractLinks value out = extractEach vs out) ->
             (forall l, stopsAt value l ->
                        isEntryLink value || isAssetLink value = false ->
                        exists x, In x vs /\ stopsAt x l) ->
             (forall x l, In x vs -> stopsAt x l ->
                          isEntryLink value || isAssetLink value = false ->
                          stopsAt value l) ->
             Forall (fun x => forall out id,
                         (In id (entryIds (deepExtractLinks x out)) <->
                          In id (entryIds out) \/
                          exists l, stopsAt x l /\ isEntryLink l = true /\
                                    sys_prop "id" l = JStr id) /\
                         (In id (assetIds (deepExtractLinks x out)) <->
                          In id (assetIds out) \/
                          exists l, stopsAt x l /\ isAssetLink l = true /\
                                    sys_prop "id" l = JStr id)) vs ->
             (forall l, stopsAt value l ->
                        isEntryLink value || isAssetLink value = true ->
                        l = value) ->
             forall out id,
               (In id (entryIds (deepExtractLinks value out)) <->
                In id (entryIds out) \/
                exists l, stopsAt value l /\ isEntryLink l = true /\
                          sys_prop "id" l = JStr id) /\
               (In id (assetIds (deepExtractLinks value out)) <->
                In id (assetIds out) \/
                exists l, stopsAt value l /\ isAssetLink l = true /\
                          sys_prop "id" l = JStr id)).
  { intros value vs Heach Hdown Hup IH Hself out id.
    assert (Hcases : isEntryLink value = true \/
                     (isEntryLink value = false /\ isAssetLink value = true) \/
                     (isEntryLink value = false /\ isAssetLink value = false)).
    { destruct (isEntryLink value), (isAssetLink value); auto. }
    destruct Hcases as [Ee | [[Ee Ea] | [Ee Ea]]].
    - (* an entry link *)
      assert (Hlink : isEntryLink value || isAssetLink value = true)
        by now rewrite Ee.
      pose proof (link_is_truthy _ Hlink) as Ht.
      pose proof (link_types_apart _ Ee) as Ea.
      rewrite deepExtractLinks_eq, Ht, Ee. simpl.
      rewrite add_id_In. split.
      + split.
        * intros [H | H]; [now left |]. right. exists value.
          split; [now constructor | now split].
        * intros [H | [l [Hs [Hl Hid]]]]; [now left |].
          right. now rewrite <- (Hself l Hs Hlink).
      + split; [now left |].
        intros [H | [l [Hs [Hl Hid]]]]; [exact H |].
        rewrite (Hself l Hs Hlink) in Hl. congruence.
    - assert (Hlink : isEntryLink value || isAssetLink value = true)
        by now rewrite Ee, Ea.
      pose proof (link_is_truthy _ Hlink) as Ht.
      rewrite deepExtractLinks_eq, Ht, Ee, Ea. simpl.
      rewrite add_id_In. split.
      + split; [now left |].
        intros [H | [l [Hs [Hl Hid]]]]; [exact H |].
        rewrite (Hself l Hs Hlink) in Hl. congruence.
      + split.
        * intros [H | H]; [now left |]. right. exists value.
          split; [now constructor | now split].
        * intros [H | [l [Hs [Hl Hid]]]]; [now left |].
          right. now rewrite <- (Hself l Hs Hlink).
    - assert (Hno : isEntryLink value || isAssetLink value = false)
        by now rewrite Ee, Ea.
      rewrite (Heach out Hno). split.
      + rewrite (extractEach_In entryIds
                   (fun x id => exists l, stopsAt x l /\
                                          isEntryLink l = true /\
                                          sys_prop "id" l = JStr id)).
        * split; (intros [H | H]; [now left | right]).
          -- destruct H as [x [Hx [l [Hs Hl]]]]. exists l.
             split; [now apply (Hup x) | exact Hl].
          -- destruct H as [l [Hs Hl]].
             destruct (Hdown l Hs Hno) as [x [Hx Hsx]].
             exists x. split; [exact Hx | now exists l].
        * eapply Forall_impl; [| exact IH]. intros x Hx o i. apply Hx.
      + rewrite (extractEach_In assetIds
                   (fun x id => exists l, stopsAt x l /\
                                          isAssetLink l = true /\
                                          sys_prop "id" l = JStr id)).
        * split; (intros [H | H]; [now left | right]).
          -- destruct H as [x [Hx [l [Hs Hl]]]]. exists l.
             split; [now apply (Hup x) | exact Hl].
          -- destruct H as [l [Hs Hl]].
             destruct (Hdown l Hs Hno) as [x [Hx Hsx]].
             exists x. split; [exact Hx | now exists l].
        * eapply Forall_impl; [| exact IH]. intros x Hx o i. apply Hx. }
  intros value. induction value as [| | b | n | s | xs IH | kvs IH]
    using jsval_rect'.
  - apply Hprim; auto. intros l H. inversion H; subst; discriminate.
  - apply Hprim; auto. intros l H. inversion H; subst; discriminate.
  - apply Hprim; auto; [intros l H; inversion H; subst; discriminate |].
    intros out. now destruct b.
  - apply Hprim; auto; [intros l H; inversion H; subst; discriminate |].
    intros out. rewrite deepExtractLinks_eq. now destruct (negb (truthy (JNum n))).
  - apply Hprim; auto; [intros l H; inversion H; subst; discriminate |].
    intros out. rewrite deepExtractLinks_eq. now destruct (negb (truthy (JStr s))).
  - apply (Hnode (JArr xs) xs).
    + intros out Hno. rewrite deepExtractLinks_eq.
      apply orb_false_iff in Hno. destruct Hno as [-> ->]. reflexivity.
    + intros l H Hno. inversion H; subst; [congruence |].
      now exists x.
    + intros x l Hx Hs Hno. now apply stops_in_array with x.
    + exact IH.
    + intros l H Hlink. inversion H; subst; [reflexivity | congruence].
  - apply (Hnode (JObj kvs) (map snd kvs)).
    + intros out Hno. rewrite deepExtractLinks_eq.
      apply orb_false_iff in Hno. destruct Hno as [-> ->]. reflexivity.
    + intros l H Hno. inversion H; subst; [congruence |].
      exists (snd kv). split; [now apply in_map | assumption].
    + intros x l Hx Hs Hno. apply in_map_iff in Hx.
      destruct Hx as [kv [<- Hkv]]. now apply stops_in_object with kv.
    + apply Forall_map. exact IH.
    + intros l H Hlink. inversion H; subst; [reflexivity | congruence].
Qed.

Lemma add_id_grows (id : jsval) (s : JSet) : incl s (add_id id s).
Proof. intros x H. apply add_id_In. now left. Qed.

Lemma add_id_NoDup (id : jsval) (s : JSet) : NoDup s -> NoDup (add_id id s).
Proof. destruct id; simpl; auto. apply set_add_NoDup. Qed.

Lemma add_id_absorbed (id : jsval) (s s' : JSet) :
  incl (add_id id s) s' -> add_id id s' = s'.
Proof.
  destruct id; simpl; auto. intros H. unfold set_add.
  assert (Hin : In s0 s') by (apply H, set_add_In; now left).
  apply set_has_In in Hin. now rewrite Hin.
Qed.

(** What holds of the sets after the walk of each element of a list holds
    after the walk of the list. *)
Lemma extractEach_keeps (P : LinkSets -> LinkSets -> Prop) (xs : list jsval) :
  (forall out, P out out) ->
  (forall a b c, P a b -> P b c -> P a c) ->
  Forall (fun x => forall out, P out (deepExtractLinks x out)) xs ->
  forall out, P out (extractEach xs out).
Proof.
  intros Hrefl Htrans H. induction H as [| x xs Hx Hxs IH]; intros out.
  - apply Hrefl.
  - rewrite extractEach_cons. apply Htrans with (deepExtractLinks x out); auto.
Qed.

Lemma deepExtractLinks_grows (value : jsval) :
  forall out, growsTo out (deepExtractLinks value out).
Proof.
  assert (Hrefl : forall out, growsTo out out).
  { intros out. unfold growsTo. auto using incl_refl. }
  assert (Htrans : forall a b c, growsTo a b -> growsTo b c -> growsTo a c).
  { intros a b c [H1 [H2 [H3 H4]]] [K1 [K2 [K3 K4]]]. unfold growsTo.
    split; [eapply incl_tran; eassumption |].
    split; [eapply incl_tran; eassumption | auto]. }
  induction value as [| | b | n | s | xs IH | kvs IH] using jsval_rect';
    intros out; rewrite deepExtractLinks_eq;
    destruct (negb (truthy _)); try apply Hrefl;
    destruct (isEntryLink _);
    try (unfold growsTo, addEntry; simpl;
         auto using add_id_grows, add_id_NoDup, incl_refl);
    destruct (isAssetLink _);
    try (unfold growsTo, addAsset; simpl;
         auto using add_id_grows, add_id_NoDup, incl_refl).
  - now apply extractEach_keeps.
  - apply extractEach_keeps; auto. now apply Forall_map.
Qed.

(** A walk whose finds are all in the sets already leaves them as they
    are. *)
Lemma deepExtractLinks_absorbed (value : jsval) :
  forall out out',
    incl (entryIds (deepExtractLinks value out)) (entryIds out') ->
    incl (assetIds (deepExtractLinks value out)) (assetIds out') ->
    deepExtractLinks value out' = out'.
Proof.
  assert (Heach : forall xs,
             Forall (fun x => forall out out',
                         incl (entryIds (deepExtractLinks x out)) (entryIds out') ->
                         incl (assetIds (deepExtractLinks x out)) (assetIds out') ->
                         deepExtractLinks x out' = out') xs ->
             forall out out',
               incl (entryIds (extractEach xs out)) (entryIds out') ->
               incl (assetIds (extractEach xs out)) (assetIds out') ->
               extractEach xs out' = out').
  { induction 1 as [| x xs Hx Hxs IH]; intros out out' He Ha; [reflexivity |].
    rewrite extractEach_cons in *.
    assert (Hg : growsTo (deepExtractLinks x out)
                         (extractEach xs (deepExtractLinks x out))).
    { apply (extractEach_keeps growsTo).
      - intros o. unfold growsTo. auto using incl_refl.
      - intros a b c [H1 [H2 [H3 H4]]] [K1 [K2 [K3 K4]]]. unfold growsTo.
        split; [eapply incl_tran; eassumption |].
        split; [eapply incl_tran; eassumption | auto].
      - apply Forall_forall. intros y _ o. apply deepExtractLinks_grows. }
    destruct Hg as [G1 [G2 _]].
    rewrite (Hx out out').
    - now apply (IH (deepExtractLinks x out)).
    - eapply incl_tran; eassumption.
    - eapply incl_tran; eassumption. }
  induction value as [| | b | n | s | xs IH | kvs IH] using jsval_rect';
    intros out out'; rewrite !deepExtractLinks_eq;
    destruct (negb (truthy _)); auto;
    destruct (isEntryLink _);
    try (intros He _; destruct out' as [es as']; unfold addEntry in *;
         simpl in *; f_equal; now apply add_id_absorbed with (entryIds out));
    destruct (isAssetLink _);
    try (intros _ Ha; destruct out' as [es as']; unfold addAsset in *;
         simpl in *; f_equal; now apply add_id_absorbed with (assetIds out));
    auto.
  - now apply Heach.
  - apply Heach. now apply Forall_map.
Qed.

(** The link extractor only adds to the two sets it is given, never puts an
    id in twice, and a second walk of the same value adds nothing. *)
Theorem deepExtractLinks_accumulates (value : jsval) (out : LinkSets) :
  let out' := deepExtractLinks value out in
  incl (entryIds out) (entryIds out') /\
  incl (assetIds out) (assetIds out') /\
  (NoDup (entryIds out) -> NoDup (entryIds out')) /\
  (NoDup (assetIds out) -> NoDup (assetIds out')) /\
  deepExtractLinks value out' = out'.
Proof.
  intros out'. destruct (deepExtractLinks_grows value out) as [H1 [H2 [H3 H4]]].
  repeat (split; [assumption |]).
  apply (deepExtractLinks_absorbed value out); apply incl_refl.
Qed.

(* ================================================================== *)
(** * Further properties of the promise pool *)

(** At every point of every schedule the pool holds at most
    [max(1, concurrency)] worker calls that were made and not yet taken
    back by their runner; with a concurrency of 1 or less the calls are
    made one after the other. *)
Theorem promisePool_bounds_calls_in_flight {T W R St : Type}
  (start : T -> St -> St * wstatus W R)
  (resume : W -> St -> St * wstatus W R)
  (items : list T) (sched : list nat) (concurrency : Z) (s0 : St) :
  let p := promisePool start resume items sched concurrency s0 in
  List.length (filter isAwaiting (runners p))
  <= Z.to_nat (Z.max 1 concurrency) /\
  ((concurrency <= 1)%Z ->
   List.length (filter isAwaiting (runners p)) <= 1).
Proof.
  intros p.
  assert (H : List.length (filter isAwaiting (runners p))
              <= Z.to_nat (Z.max 1 concurrency)).
  { unfold p. rewrite <- (runners_count start resume items sched concurrency s0).
    generalize (runners (promisePool start resume items sched concurrency s0)).
    intros rs. induction rs as [| x rs IH]; simpl; [lia |].
    destruct (isAwaiting x); simpl; lia. }
  split; [exact H |].
  intros Hc. replace (Z.max 1 concurrency) with 1%Z in H by lia. exact H.
Qed.

(** When the pool resolves, the result at each index is the value the
    worker call for the item at that index fulfilled with, whatever the
    order in which the calls settled: [J] is what a waiting call keeps of
    its item and [Q] what its value then has. *)
Theorem promisePool_results_in_item_order {T W R St : Type}
  (start : T -> St -> St * wstatus W R)
  (resume : W -> St -> St * wstatus W R)
  (items : list T) (J : T -> W -> Prop) (Q : T -> R -> Prop)
  (sched : list nat) (concurrency : Z) (s0 : St) (res : list (option R)) :
  (forall t s, tracks J Q t (snd (start t s))) ->
  (forall t k s, J t k -> tracks J Q t (snd (resume k s))) ->
  outcome (promisePool start resume items sched concurrency s0)
  = Some (Ok res) ->
  List.length res = List.length items /\
  forall i t, nth_error items i = Some t ->
              exists v, nth_error res i = Some (Some v) /\ Q t v.
Proof.
  intros Hstart Hresume Hout.
  pose proof (results_resolved start resume items J Q Hstart Hresume
                sched concurrency s0 res Hout) as H.
  clear Hout. induction H as [| t o items' res' [v [-> Hv]] H IH].
  - split; [reflexivity |]. intros [| i] t; discriminate.
  - destruct IH as [Hlen Hnth]. split; [simpl; now rewrite Hlen |].
    intros [| i] t' Ht; simpl in *.
    + injection Ht as <-. now exists v.
    + now apply Hnth.
Qed.

Lemma promisePool_results_in_item_order_witness :
  List.length [Some "a!"; Some "b!"; Some "c!"] = List.length ["a"; "b"; "c"] /\
  forall i t, nth_error ["a"; "b"; "c"] i = Some t ->
              exists v : string, nth_error [Some "a!"; Some "b!"; Some "c!"] i
                        = Some (Some v) /\ v = (t ++ "!")%string.
Proof.
  apply (promisePool_results_in_item_order markStart markResume
           ["a"; "b"; "c"] (fun t k => k = t) (fun t v => v = (t ++ "!")%string)
           [1; 1; 0; 0; 1; 1] 2 tt).
  - intros t s. reflexivity.
  - intros t k s ->. reflexivity.
  - vm_compute. reflexivity.
Defined.


(* ================================================================== *)
(** * Further properties of the crawl *)

(** The crawl comes to an end on every repository, whatever its links
    (cycles included) and whatever the order in which the responses of a
    wave arrive: some number of waves empties the queue or meets a failed
    request, and some schedule of the asset pool settles it. *)
Theorem traverseDescendants_terminates
  (getEntry getAsset : string -> result jsval) (locale : string)
  (config : InstallConfig) (targets rootEntryIds : list string)
  (schedule : nat -> list nat) :
  exists fuel asched,
    traverseDescendants getEntry getAsset locale config targets
      fuel schedule asched rootEntryIds <> None.
Proof.
  set (st0 := initialState rootEntryIds).
  exists (S (queueWork getEntry locale config (queue st0))).
  pose proof (crawlLoop_terminates getEntry locale config targets
                (S (queueWork getEntry locale config (queue st0)))
                schedule 0 st0 (Nat.lt_succ_diag_r _)) as Hl.
  unfold traverseDescendants. fold st0.
  destruct (crawlLoop getEntry locale config targets _ schedule 0 st0)
    as [[st | e] |];
    [| exists []; cbn [bind]; discriminate | exfalso; now apply Hl].
  destruct (loadAssets_settles locale config targets getAsset st)
    as [asched Ha].
  exists asched. cbn [bind].
  destruct (loadAssets getAsset locale config targets asched st)
    as [[rows | e] |];
    [cbn [bind]; discriminate | cbn [bind]; discriminate
    | exfalso; now apply Ha].
Qed.

Lemma collectAssets_keys (res : list (option AssetScanRow)) :
  forall acc rows,
    collectAssets res acc = Ok rows ->
    NoDup (map fst acc) ->
    (forall id row, In (id, row) acc -> id = assetId row) ->
    NoDup (map fst rows) /\
    (forall id row, In (id, row) rows -> id = assetId row) /\
    (forall id, In id (map fst acc) -> In id (map fst rows)) /\
    (forall row, In (Some row) res -> In (assetId row) (map fst rows)).
Proof.
  induction res as [| [r |] res IH]; intros acc rows Hc Hnd Hkey; simpl in Hc.
  - injection Hc as <-.
    split; [assumption | split; [assumption | split; [auto | intros row []]]].
  - destruct (IH _ _ Hc) as [H1 [H2 [H3 H4]]].
    + now apply map_set_NoDup.
    + intros id row Hin. apply map_set_In in Hin.
      destruct Hin as [[-> ->] | Hin]; [reflexivity | now apply Hkey].
    + split; [assumption | split; [assumption | split]].
      * intros id Hid. apply H3, map_set_keys. now right.
      * intros row [[= ->] | Hin]; [| now apply H4].
        apply H3, map_set_keys. now left.
  - discriminate.
Qed.

(** No id has two rows in a returned inventory, among the entries or among
    the assets, whatever the order of the responses. *)
Theorem inventory_rows_are_distinct
  (getEntry getAsset : string -> result jsval) (locale : string)
  (config : InstallConfig) (targets rootEntryIds : list string)
  (fuel : nat) (schedule : nat -> list nat) (asched : list nat)
  (summary : ScanSummary) :
  traverseDescendants getEntry getAsset locale config targets
    fuel schedule asched rootEntryIds = Some (Ok summary) ->
  NoDup (map entryId (entries summary)) /\
  NoDup (map assetId (assets summary)).
Proof.
  intros Ht.
  split; [apply (inventory_sound _ _ _ _ _ _ _ _ _ _ Ht) |].
  destruct (traverse_returned _ _ _ _ _ _ _ _ _ _ Ht)
    as [st [arows [_ [Ha ->]]]]. cbn [assets].
  assert (H : NoDup (map fst arows) /\
              forall id row, In (id, row) arows -> id = assetId row).
  { unfold loadAssets in Ha.
    destruct (includeAssetsByDefault config
              && negb (List.length (visitedAssets st) =? 0)%nat).
    - destruct (outcome _) as [[res | e] |]; try discriminate.
      injection Ha as Ha.
      destruct (collectAssets_keys res [] arows Ha) as [H1 [H2 _]];
        [constructor | intros id row [] | auto].
    - injection Ha as <-. split; [constructor | intros id row []]. }
  destruct H as [Hnd Hkey].
  replace (map assetId (map snd arows)) with (map fst arows); [exact Hnd |].
  rewrite map_map. apply map_ext_in. intros [id row] Hin. simpl.
  now apply Hkey.
Qed.

Lemma inventory_rows_are_distinct_witness :
  NoDup ["R1"; "R2"; "R3"] /\ NoDup ["M1"].
Proof.
  assert (Hrun : exists summary,
             traverseDescendants scenarioEntries scenarioAssets "en-US"
               scenarioConfig ["t1"] 10 inOrder [0; 0] ["R1"]
             = Some (Ok summary) /\
             map entryId (entries summary) = ["R1"; "R2"; "R3"] /\
             map assetId (assets summary) = ["M1"]).
  { eexists. split; [vm_compute; reflexivity | split; reflexivity]. }
  destruct Hrun as [summary [Hrun [He Ha]]].
  rewrite <- He, <- Ha.
  exact (inventory_rows_are_distinct _ _ _ _ _ _ _ _ _ _ Hrun).
Defined.

(** With the responses of every wave in the order of the requests, the
    inventory holds every record that some path of links within the depth
    limit leads to from a root (a root itself whatever the limit). *)
Theorem inventory_complete_for_responses_in_request_order
  (getEntry getAsset : string -> result jsval) (locale : string)
  (config : InstallConfig) (targets rootEntryIds : list string)
  (fuel : nat) (schedule : nat -> list nat) (asched : list nat)
  (summary : ScanSummary) (n : nat) (c : string) :
  (forall k, schedule k = []) ->
  traverseDescendants getEntry getAsset locale config targets
    fuel schedule asched rootEntryIds = Some (Ok summary) ->
  reach getEntry locale config rootEntryIds n c ->
  n = 0 \/ (Z.of_nat n <= maxTraversalDepth config)%Z ->
  In c (map entryId (entries summary)).
Proof.
  intros Hsched Ht Hr Hn.
  destruct (traverse_returned _ _ _ _ _ _ _ _ _ _ Ht)
    as [st [arows [Hl [_ ->]]]]. cbn [entries].
  destruct (crawlLoop_in_order_min_depth getEntry locale config targets
              rootEntryIds fuel schedule st Hsched Hl n c Hr Hn)
    as [y [Hy [Hq _]]].
  destruct (crawl_depth_sound getEntry locale config targets rootEntryIds
              fuel schedule st Hl) as [_ [Hsound _]].
  destruct (Hsound y Hy) as [_ [_ Hrow]]. rewrite Hq in Hrow.
  destruct (initialState_inv getEntry locale config targets rootEntryIds)
    as [Hi0 Hs0].
  destruct (crawlLoop_inv _ _ _ _ _ _ _ _ _ _ Hi0 Hs0 Hl)
    as [[_ [Hrows _]] _].
  apply in_map_iff in Hrow. destruct Hrow as [[id row] [Hid Hin]].
  simpl in Hid. subst id.
  apply in_map_iff. exists row. split; [| now apply (in_map snd) in Hin].
  destruct (Hrows c row Hin) as [_ [entry [d [_ [-> _]]]]]. reflexivity.
Qed.

Lemma inventory_complete_for_responses_in_request_order_witness :
  In "Y" ["R1"; "R2"; "R3"; "C"; "X"; "Y"].
Proof.
  assert (Hrun : exists summary,
             traverseDescendants raceEntries scenarioAssets "en-US"
               raceConfig ["t1"] 10 inOrder [] ["R1"; "R2"; "R3"]
             = Some (Ok summary) /\
             map entryId (entries summary)
             = ["R1"; "R2"; "R3"; "C"; "X"; "Y"]).
  { eexists. split; [vm_compute; reflexivity | reflexivity]. }
  destruct Hrun as [summary [Hrun He]]. rewrite <- He.
  apply (inventory_complete_for_responses_in_request_order
           raceEntries scenarioAssets "en-US" raceConfig ["t1"]
           ["R1"; "R2"; "R3"] 10 inOrder [] summary 2 "Y").
  - reflexivity.
  - exact Hrun.
  - apply reach_link with "X" (sampleEntry "page" [] ["Y"] []).
    + apply reach_link with "R3" (sampleEntry "page" [] ["X"] []).
      * apply reach_root. simpl. auto.
      * reflexivity.
      * reflexivity.
      * vm_compute. auto.
    + reflexivity.
    + reflexivity.
    + vm_compute. auto.
  - right. vm_compute. discriminate.
Defined.

Section AssetFacts.
Variable getEntry : string -> result jsval.
Variable getAsset : string -> result jsval.
Variable locale : string.
Variable config : InstallConfig.
Variable targets : list string.
Hypothesis assetsWanted : includeAssetsByDefault config = true.

Local Abbreviation assetsInv' := (assetsInv getEntry locale config).

Lemma visit_assets (done : list QItem) (item : QItem) (entry : jsval)
  (st : CrawlState) :
  assetsInv' done st -> getEntry (qid item) = Ok entry ->
  assetsInv' (done ++ [item]) (visit locale config targets item entry st).
Proof.
  intros Hinv Hget y e a Hy He Hex Hd Ha.
  destruct (visit_spec locale config targets item entry st)
    as [_ [_ [_ Eassets]]].
  rewrite Eassets, assetsWanted, andb_true_r.
  apply in_app_iff in Hy. destruct Hy as [Hy | [<- | []]].
  - specialize (Hinv y e a Hy He Hex Hd Ha).
    match goal with |- In a (if ?b then _ else _) => destruct b end;
      [| exact Hinv].
    apply set_of_list_fold_In. now right.
  - rewrite Hget in He. injection He as <-. rewrite Hex, Hd. simpl.
    apply set_of_list_fold_In. now left.
Qed.

Lemma complete_assets (order : list QItem) :
  forall (done : list QItem) (st st' : CrawlState),
    assetsInv' done st ->
    complete getEntry locale config targets order st = Ok st' ->
    assetsInv' (done ++ order) st'.
Proof.
  induction order as [| p rest IH]; intros done st st' Hinv Hc; simpl in Hc.
  - injection Hc as <-. now rewrite app_nil_r.
  - destruct (getEntry (qid p)) as [e | err] eqn:Hget; [| discriminate].
    replace (done ++ p :: rest) with ((done ++ [p]) ++ rest)
      by now rewrite <- app_assoc.
    apply (IH _ (visit locale config targets p e st)); [| assumption].
    now apply visit_assets.
Qed.

Lemma wave_assets (choices : list nat) (st st' : CrawlState) :
  assetsInv' (dispatched st) st ->
  wave getEntry locale config targets choices st = Ok st' ->
  assetsInv' (dispatched st') st'.
Proof.
  intros Hinv Hw. unfold wave in Hw.
  set (n := batchSize config) in *.
  set (st0 := mkCrawlState (visitedEntries st) (visitedAssets st)
                (entryRows st) (skipn n (queue st)) (dispatched st)) in *.
  pose proof (dispatch_log (firstn n (queue st)) st0) as [Ed _].
  pose proof (dispatch_spec (firstn n (queue st)) st0) as [Ea _].
  destruct (dispatch (firstn n (queue st)) st0) as [st1 sent].
  simpl in Ed, Ea.
  destruct (complete_log getEntry locale config targets _ _ _ Hw) as [Hd _].
  assert (Hinv1 : assetsInv' (dispatched st) st1).
  { intros y e a Hy He Hex Hdp Ha. rewrite Ea. now apply (Hinv y e a). }
  pose proof (complete_assets _ _ _ _ Hinv1 Hw) as Hc.
  intros y e a Hy. apply (Hc y e a).
  rewrite Hd, Ed in Hy. apply in_app_iff in Hy. apply in_app_iff.
  destruct Hy as [Hy | Hy]; [now left | right].
  apply (Permutation_in _ (Permutation_sym (completionOrder_perm choices sent))).
  exact Hy.
Qed.

Lemma crawlLoop_assets (fuel : nat) (schedule : nat -> list nat) :
  forall (n : nat) (st st' : CrawlState),
    assetsInv' (dispatched st) st ->
    crawlLoop getEntry locale config targets fuel schedule n st
    = Some (Ok st') ->
    assetsInv' (dispatched st') st'.
Proof.
  induction fuel as [| fuel IH]; intros n st st' Hinv Hl; simpl in Hl;
    [discriminate |].
  destruct (queue st) as [| q qs] eqn:Eq.
  - now injection Hl as <-.
  - simpl in Hl.
    destruct (wave getEntry locale config targets (schedule n) st)
      as [st1 | e] eqn:Ew; [| discriminate].
    apply (IH (S n) st1 st'); [| assumption].
    now apply (wave_assets (schedule n) st).
Qed.

Lemma loadAssets_covers (asched : list nat) (st : CrawlState)
  (rows : list (string * AssetScanRow)) :
  loadAssets getAsset locale config targets asched st = Some (Ok rows) ->
  forall a, In a (visitedAssets st) -> In a (map assetId (map snd rows)).
Proof.
  unfold loadAssets. rewrite assetsWanted. simpl.
  destruct (Nat.eqb_spec (List.length (visitedAssets st)) 0) as [E0 | Hne];
    simpl.
  { intros _ a Ha. destruct (visitedAssets st); [destruct Ha | discriminate]. }
  destruct (outcome _) as [[res | e] |] eqn:Eo; try discriminate.
  intros [= Hc] a Ha.
  pose proof (assetPool_results locale config targets getAsset _ _ _ Eo)
    as Hres.
  destruct (collectAssets_keys res [] rows Hc)
    as [_ [Hkey [_ Hcov]]]; [constructor | intros id row [] |].
  assert (Hin : In a (map fst rows)).
  { clear -Hres Ha Hcov. induction Hres as [| a' o ids res Ho _ IH];
      [destruct Ha |].
    destruct Ha as [<- | Ha].
    - destruct Ho as [row [-> [asset [_ Hrow]]]].
      replace a' with (assetId row) by now rewrite Hrow.
      apply Hcov. now left.
    - apply IH; [assumption |]. intros row Hr. apply Hcov. now right. }
  apply in_map_iff in Hin. destruct Hin as [[id row] [Hid Hin]].
  simpl in Hid. subst id. apply in_map_iff. exists row.
  split; [symmetry; now apply Hkey | now apply (in_map snd) in Hin].
Qed.

End AssetFacts.

(** With assets wanted and the responses of every wave in the order of the
    requests, the inventory has a row for every asset linked from a record
    that is not excluded and lies fewer links from a root than the depth
    limit. *)
Theorem inventory_holds_assets_of_expanded_records
  (getEntry getAsset : string -> result jsval) (locale : string)
  (config : InstallConfig) (targets rootEntryIds : list string)
  (fuel : nat) (schedule : nat -> list nat) (asched : list nat)
  (summary : ScanSummary) (n : nat) (p a : string) (entry : jsval) :
  includeAssetsByDefault config = true ->
  (forall k, schedule k = []) ->
  traverseDescendants getEntry getAsset locale config targets
    fuel schedule asched rootEntryIds = Some (Ok summary) ->
  reach getEntry locale config rootEntryIds n p ->
  (Z.of_nat n < maxTraversalDepth config)%Z ->
  getEntry p = Ok entry -> isExcluded config entry = false ->
  In a (assetIds (linksOf locale entry)) ->
  In a (map assetId (assets summary)).
Proof.
  intros Hwanted Hsched Ht Hr Hn Hget Hex Ha.
  destruct (traverse_returned _ _ _ _ _ _ _ _ _ _ Ht)
    as [st [arows [Hl [Hload ->]]]]. cbn [assets].
  destruct (crawlLoop_in_order_min_depth getEntry locale config targets
              rootEntryIds fuel schedule st Hsched Hl n p Hr)
    as [y [Hy [Hq Hd]]]; [right; simpl; lia |].
  apply (loadAssets_covers getAsset locale config targets Hwanted asched st);
    [assumption |].
  apply (crawlLoop_assets getEntry locale config targets Hwanted fuel schedule
           0 (initialState rootEntryIds) st) with y entry; try assumption.
  - intros y0 e0 a0 [].
  - now rewrite Hq.
  - unfold depthReached. apply Z.leb_gt. lia.
Qed.

Lemma inventory_holds_assets_of_expanded_records_witness :
  In "M1" ["M1"].
Proof.
  assert (Hrun : exists summary,
             traverseDescendants scenarioEntries scenarioAssets "en-US"
               scenarioConfig ["t1"] 10 inOrder [0; 0] ["R1"]
             = Some (Ok summary) /\
             map assetId (assets summary) = ["M1"]).
  { eexists. split; [vm_compute; reflexivity | reflexivity]. }
  destruct Hrun as [summary [Hrun Ha]]. rewrite <- Ha.
  apply (inventory_holds_assets_of_expanded_records
           scenarioEntries scenarioAssets "en-US" scenarioConfig ["t1"]
           ["R1"] 10 inOrder [0; 0] summary 1 "R3" "M1"
           (sampleEntry "page" ["t1"] [] ["M1"])).
  - reflexivity.
  - reflexivity.
  - exact Hrun.
  - apply reach_link with "R1" (sampleEntry "page" [] ["R2"; "R3"] []).
    + apply reach_root. simpl. auto.
    + reflexivity.
    + reflexivity.
    + vm_compute. auto.
  - vm_compute. reflexivity.
  - reflexivity.
  - reflexivity.
  - vm_compute. auto.
Defined.

(** A depth limit of 0 or less stops the crawl at the roots: the
    inventory then has rows for roots only, and no asset rows. *)
Theorem inventory_of_roots_only
  (getEntry getAsset : string -> result jsval) (locale : string)
  (config : InstallConfig) (targets rootEntryIds : list string)
  (fuel : nat) (schedule : nat -> list nat) (asched : list nat)
  (summary : ScanSummary) :
  (maxTraversalDepth config <= 0)%Z ->
  traverseDescendants getEntry getAsset locale config targets
    fuel schedule asched rootEntryIds = Some (Ok summary) ->
  (forall id, In id (map entryId (entries summary)) <-> In id rootEntryIds) /\
  assets summary = [].
Proof.
  intros Hmax Ht.
  destruct (inventory_sound _ _ _ _ _ _ _ _ _ _ Ht) as [_ [Hroots [Hrows Hassets]]].
  split.
  - intros id. split; [| apply Hroots].
    intros Hin. apply in_map_iff in Hin. destruct Hin as [row [<- Hrow]].
    destruct (Hrows row Hrow) as [entry [d [_ [_ [Hr Hw]]]]].
    assert (Hd : d = 0) by (destruct Hw as [-> | Hw]; lia). subst d.
    inversion Hr; subst. assumption.
  - destruct (assets summary) as [| row rows] eqn:Ea; [reflexivity |].
    destruct (Hassets row) as [_ [p [entry [d [_ [_ [_ [Hd _]]]]]]]].
    + first [rewrite Ea; now left | now left].
    + unfold depthReached in Hd. apply Z.leb_gt in Hd. lia.
Qed.

Lemma inventory_of_roots_only_witness :
  exists summary,
    traverseDescendants scenarioEntries scenarioAssets "en-US"
      (mkInstallConfig ["teaser"] true true ByName 0 4 [] [])
      ["t1"] 10 inOrder [] ["R1"] = Some (Ok summary) /\
    (forall id, In id (map entryId (entries summary)) <-> In id ["R1"]) /\
    assets summary = [].
Proof.
  eexists. split; [vm_compute; reflexivity |].
  apply (inventory_of_roots_only scenarioEntries scenarioAssets "en-US"
           (mkInstallConfig ["teaser"] true true ByName 0 4 [] [])
           ["t1"] ["R1"] 10 inOrder []).
  - simpl. lia.
  - vm_compute. reflexivity.
Defined.

Section RequestFacts.
Variable getEntry : string -> result jsval.
Variable locale : string.
Variable config : InstallConfig.
Variable targets : list string.

Lemma complete_asset_set (order : list QItem) :
  forall st st',
    complete getEntry locale config targets order st = Ok st' ->
    NoDup (visitedAssets st) -> NoDup (visitedAssets st').
Proof.
  induction order as [| p rest IH]; intros st st' Hc Hnd; simpl in Hc.
  - now injection Hc as <-.
  - destruct (getEntry (qid p)) as [e | err]; [| discriminate].
    apply (IH _ _ Hc).
    destruct (visit_spec locale config targets p e st) as [_ [_ [_ Ea]]].
    rewrite Ea. destruct (_ && _); [| exact Hnd].
    now apply set_of_list_fold_NoDup.
Qed.

Lemma crawlLoop_asset_set (fuel : nat) (schedule : nat -> list nat) :
  forall n st st',
    crawlLoop getEntry locale config targets fuel schedule n st
    = Some (Ok st') ->
    NoDup (visitedAssets st) -> NoDup (visitedAssets st').
Proof.
  induction fuel as [| fuel IH]; intros n st st' Hl Hnd; simpl in Hl;
    [discriminate |].
  destruct (queue st) as [| q qs] eqn:Eq.
  - now injection Hl as <-.
  - simpl in Hl.
    destruct (wave getEntry locale config targets (schedule n) st)
      as [st1 | e] eqn:Ew; [| discriminate].
    apply (IH _ _ _ Hl). unfold wave in Ew.
    match type of Ew with context [dispatch ?b ?s] =>
      pose proof (dispatch_spec b s) as [Ea _];
      destruct (dispatch b s) as [st2 sent] end.
    simpl in Ea. apply (complete_asset_set _ _ _ Ew). now rewrite Ea.
Qed.

End RequestFacts.

(** The crawl asks for nothing twice, whatever the links and the order of
    the responses: when the loop has ended, the entry requests that were
    sent are for distinct ids, one for each row of the inventory and none
    besides, and the ids the asset pool is then given are distinct. *)
Theorem crawl_requests_each_id_once
  (getEntry : string -> result jsval) (locale : string)
  (config : InstallConfig) (targets rootEntryIds : list string)
  (fuel : nat) (schedule : nat -> list nat) (st : CrawlState) :
  crawlLoop getEntry locale config targets fuel schedule 0
            (initialState rootEntryIds) = Some (Ok st) ->
  NoDup (map qid (dispatched st)) /\
  (forall id, In id (map qid (dispatched st)) <->
              In id (map fst (entryRows st))) /\
  NoDup (map fst (entryRows st)) /\
  NoDup (visitedAssets st).
Proof.
  intros Hl.
  destruct (crawl_depth_sound getEntry locale config targets rootEntryIds
              fuel schedule st Hl) as [Hnd [Hsound Hrows]].
  destruct (initialState_inv getEntry locale config targets rootEntryIds)
    as [Hi0 Hs0].
  destruct (crawlLoop_inv _ _ _ _ _ _ _ _ _ _ Hi0 Hs0 Hl) as [[Hkeys _] _].
  split; [exact Hnd | split; [| split; [exact Hkeys |]]].
  - intros id. split; [| apply Hrows].
    intros Hin. apply in_map_iff in Hin. destruct Hin as [y [<- Hy]].
    now apply Hsound.
  - apply (crawlLoop_asset_set _ _ _ _ _ _ _ _ _ Hl). constructor.
Qed.

Lemma crawl_requests_each_id_once_witness :
  exists st,
    crawlLoop raceEntries "en-US" raceConfig ["t1"] 10 secondFirst 0
              (initialState ["R1"; "R2"; "R3"]) = Some (Ok st) /\
    map qid (dispatched st) = ["R1"; "R2"; "R3"; "C"; "X"] /\
    NoDup (map qid (dispatched st)).
Proof.
  eexists. split; [vm_compute; reflexivity | split; [reflexivity |]].
  refine (proj1 (crawl_requests_each_id_once raceEntries "en-US" raceConfig
                   ["t1"] ["R1"; "R2"; "R3"] 10 secondFirst _ _)).
  vm_compute. reflexivity.
Defined.

(* ================================================================== *)
(** * Further properties of the apply run *)

Lemma list_sum_none {A : Type} (g : A -> nat) (l : list A) :
  (forall x, In x l -> g x = 0) -> list_sum (map g l) = 0.
Proof.
  induction l as [| x l IH]; intros H; simpl; [reflexivity |].
  rewrite (H x), IH; [reflexivity | | now left].
  intros y Hy. apply H. now right.
Qed.

Lemma list_sum_count {A : Type} (f : A -> bool) (l : list A) :
  list_sum (map (fun x => if f x then 1 else 0) l) = List.length (filter f l).
Proof.
  induction l as [| x l IH]; simpl; [reflexivity |].
  destruct (f x); simpl; now rewrite IH.
Qed.

Lemma actionable_not_excluded (byId : list (string * DialogRow))
  (ids : list string) (id : string) :
  In id (actionableIds byId ids) ->
  exists row, map_get id byId = Some row /\
              rowExcluded row = false /\ willAdd row = true.
Proof.
  unfold actionableIds. intros H. apply filter_In in H. destruct H as [_ H].
  destruct (map_get id byId) as [row |]; [| discriminate].
  apply andb_true_iff in H. destruct H as [H1 H2].
  exists row. split; [reflexivity | split; [| exact H2]].
  now destruct (rowExcluded row).
Qed.

Section ApplyCounts.
Variable cma : Cma.
Variable byId : list (string * DialogRow).
Variable targetTagIds : list string.
Variable preservePublishState : bool.

Local Abbreviation applyCollection' :=
  (applyCollection cma byId targetTagIds preservePublishState).
Local Abbreviation contribOf' :=
  (contribOf cma byId targetTagIds preservePublishState).

(** The tally of a pool that resolved, counter by counter, as sums over
    the ids: no schedule comes into it. *)
Lemma applyCollection_sums (sched : list nat) (ids : list string) (t : Tally) :
  applyCollection' sched ids = Some (Ok t) ->
  selected t = List.length ids /\
  updated t = list_sum (map (contribOf' 1 0 0 0) ids) /\
  republished t = list_sum (map (contribOf' 0 1 0 0) ids) /\
  skippedExcluded t = list_sum (map (contribOf' 0 0 1 0) ids) /\
  skippedAlreadyOk t = 0 /\
  failed t = list_sum (map (contribOf' 0 0 0 1) ids).
Proof.
  intros H.
  pose proof (applyCollection_count cma byId targetTagIds preservePublishState
                selected 0 0 0 0) as Hsel.
  pose proof (applyCollection_count cma byId targetTagIds preservePublishState
                updated 1 0 0 0) as Hupd.
  pose proof (applyCollection_count cma byId targetTagIds preservePublishState
                republished 0 1 0 0) as Hrep.
  pose proof (applyCollection_count cma byId targetTagIds preservePublishState
                skippedExcluded 0 0 1 0) as Hskip.
  pose proof (applyCollection_count cma byId targetTagIds preservePublishState
                skippedAlreadyOk 0 0 0 0) as Hok.
  pose proof (applyCollection_count cma byId targetTagIds preservePublishState
                failed 0 0 0 1) as Hfail.
  assert (Hzero : list_sum (map (contribOf' 0 0 0 0) ids) = 0).
  { apply list_sum_none. intros id _.
    pose proof (item_weightless cma byId targetTagIds preservePublishState id).
    lia. }
  specialize (Hsel ltac:(intros []; simpl; lia) ltac:(intros []; simpl; lia)
                   ltac:(intros []; simpl; lia) ltac:(intros []; simpl; lia)
                   sched ids t H).
  specialize (Hupd ltac:(intros []; simpl; lia) ltac:(intros []; simpl; lia)
                   ltac:(intros []; simpl; lia) ltac:(intros []; simpl; lia)
                   sched ids t H).
  specialize (Hrep ltac:(intros []; simpl; lia) ltac:(intros []; simpl; lia)
                   ltac:(intros []; simpl; lia) ltac:(intros []; simpl; lia)
                   sched ids t H).
  specialize (Hskip ltac:(intros []; simpl; lia) ltac:(intros []; simpl; lia)
                    ltac:(intros []; simpl; lia) ltac:(intros []; simpl; lia)
                    sched ids t H).
  specialize (Hok ltac:(intros []; simpl; lia) ltac:(intros []; simpl; lia)
                  ltac:(intros []; simpl; lia) ltac:(intros []; simpl; lia)
                  sched ids t H).
  specialize (Hfail ltac:(intros []; simpl; lia) ltac:(intros []; simpl; lia)
                    ltac:(intros []; simpl; lia) ltac:(intros []; simpl; lia)
                    sched ids t H).
  simpl in *. rewrite Hzero in *. repeat split; lia.
Qed.

Lemma applyCollection_schedule_free (sched sched' : list nat)
  (ids : list string) (t t' : Tally) :
  applyCollection' sched ids = Some (Ok t) ->
  applyCollection' sched' ids = Some (Ok t') ->
  t = t'.
Proof.
  intros H H'.
  destruct (applyCollection_sums _ _ _ H) as [H1 [H2 [H3 [H4 [H5 H6]]]]].
  destruct (applyCollection_sums _ _ _ H') as [K1 [K2 [K3 [K4 [K5 K6]]]]].
  destruct t, t'. simpl in *. congruence.
Qed.

(** The worker call for an id with a row that is not excluded skips
    nothing. *)
Lemma item_not_skipped (id : string) (row : DialogRow) :
  map_get id byId = Some row -> rowExcluded row = false ->
  contribOf' 0 0 1 0 id = 0.
Proof.
  intros Hrow Hex.
  unfold contribOf, owedFromGet, owedFromUpdate, owedFromPublish.
  rewrite Hrow, Hex.
  destruct (cmaGet cma id) as [[| | b | n | str | xs | kvs] | e']; try lia;
    match goal with |- context [cmaUpdate cma id ?p] =>
      destruct (cmaUpdate cma id p) as [u | e'']; try lia end;
    match goal with |- context [if ?c then _ else _] =>
      destruct c; try lia end;
    destruct (cmaPublish cma id u); lia.
Qed.

(** An item is republished at most once, and only when publish states are
    preserved and [get] served it as published. *)
Lemma item_republished_if_published (id : string) :
  contribOf' 0 1 0 0 id
  <= (if preservePublishState && servedPublished cma id then 1 else 0).
Proof.
  unfold contribOf, owedFromGet, owedFromUpdate, owedFromPublish,
    servedPublished.
  destruct (map_get id byId) as [row |];
    [destruct (rowExcluded row); [lia |] |];
    (destruct (cmaGet cma id) as [[| | b | n | str | xs | kvs] | e'];
     rewrite ?andb_false_r; try lia;
     match goal with |- context [cmaUpdate cma id ?p] =>
       destruct (cmaUpdate cma id p) as [u | e'']; try lia end;
     match goal with |- context [if ?c then _ else _] =>
       destruct c; try lia end;
     destruct (cmaPublish cma id u); lia).
Qed.

End ApplyCounts.

(** The summary of an apply run does not depend on the order in which the
    requests of its pools are answered: two runs on the same selection that
    both come to their end give the same counts. *)
Theorem onApply_summary_is_schedule_independent (entryCma assetCma : Cma)
  (p : DialogPayload) (selectedContentIds selectedMediaIds : list string)
  (preservePublishState : bool) (esched asched esched' asched' : list nat)
  (summary summary' : ApplySummary) :
  onApply entryCma assetCma p selectedContentIds selectedMediaIds
          preservePublishState esched asched = Done summary ->
  onApply entryCma assetCma p selectedContentIds selectedMediaIds
          preservePublishState esched' asched' = Done summary' ->
  summary = summary'.
Proof.
  intros H H'.
  destruct (onApply_done _ _ _ _ _ _ _ _ _ H) as [_ [_ [He Ha]]].
  destruct (onApply_done _ _ _ _ _ _ _ _ _ H') as [_ [_ [He' Ha']]].
  destruct summary as [e a], summary' as [e' a']. simpl in *.
  f_equal.
  - exact (applyCollection_schedule_free _ _ _ _ _ _ _ _ _ He He').
  - exact (applyCollection_schedule_free _ _ _ _ _ _ _ _ _ Ha Ha').
Qed.

Lemma onApply_summary_is_schedule_independent_witness :
  mkApplySummary (mkTally 2 2 1 0 0 1) (mkTally 1 1 1 0 0 0)
  = mkApplySummary (mkTally 2 2 1 0 0 1) (mkTally 1 1 1 0 0 0).
Proof.
  apply (onApply_summary_is_schedule_independent sampleCma sampleCma
           sampleDialog ["E1"; "E2"; "E3"; "E4"] ["M1"] true
           [0; 0; 0; 0; 1; 1; 1; 1] [0; 0; 0; 0]
           [1; 1; 1; 1; 0; 0; 0; 0] [0; 0; 0; 0]).
  - vm_compute. reflexivity.
  - vm_compute. reflexivity.
Defined.

(** The worker's branch for an excluded row is never taken: the ids given
    to the pool were filtered to rows that are not excluded, so
    [skippedExcluded] is 0 in both tallies of every summary. *)
Theorem onApply_never_skips_excluded (entryCma assetCma : Cma)
  (p : DialogPayload) (selectedContentIds selectedMediaIds : list string)
  (preservePublishState : bool) (esched asched : list nat)
  (summary : ApplySummary) :
  onApply entryCma assetCma p selectedContentIds selectedMediaIds
          preservePublishState esched asched = Done summary ->
  skippedExcluded (entriesTally summary) = 0 /\
  skippedExcluded (assetsTally summary) = 0.
Proof.
  intros H.
  destruct (onApply_done _ _ _ _ _ _ _ _ _ H) as [_ [_ [He Ha]]].
  destruct (applyCollection_sums _ _ _ _ _ _ _ He) as [_ [_ [_ [Hse _]]]].
  destruct (applyCollection_sums _ _ _ _ _ _ _ Ha) as [_ [_ [_ [Hsa _]]]].
  rewrite Hse, Hsa. split; apply list_sum_none; intros id Hid;
    destruct (actionable_not_excluded _ _ _ Hid) as [row [Hrow [Hex _]]];
    now apply item_not_skipped with row.
Qed.

Lemma onApply_never_skips_excluded_witness :
  skippedExcluded (mkTally 2 2 1 0 0 1) = 0 /\
  skippedExcluded (mkTally 1 1 1 0 0 0) = 0.
Proof.
  apply (onApply_never_skips_excluded sampleCma sampleCma sampleDialog
           ["E1"; "E2"; "E3"; "E4"] ["M1"] true
           [0; 0; 0; 0; 1; 1; 1; 1] [0; 0; 0; 0]
           (mkApplySummary (mkTally 2 2 1 0 0 1) (mkTally 1 1 1 0 0 0))).
  vm_compute. reflexivity.
Defined.

(** Nothing is republished that was not published: with publish states
    not preserved no item is republished, and otherwise at most the
    dispatched items that [get] served with a [publishedVersion]. *)
Theorem onApply_republishes_only_published_items (entryCma assetCma : Cma)
  (p : DialogPayload) (selectedContentIds selectedMediaIds : list string)
  (preservePublishState : bool) (esched asched : list nat)
  (summary : ApplySummary) :
  onApply entryCma assetCma p selectedContentIds selectedMediaIds
          preservePublishState esched asched = Done summary ->
  let contentIds := actionableIds (rowsById (contentRows p)) selectedContentIds in
  let mediaIds := actionableIds (rowsById (mediaRows p)) selectedMediaIds in
  (preservePublishState = false ->
   republished (entriesTally summary) = 0 /\
   republished (assetsTally summary) = 0) /\
  republished (entriesTally summary)
  <= List.length (filter (servedPublished entryCma) contentIds) /\
  republished (assetsTally summary)
  <= List.length (filter (servedPublished assetCma) mediaIds).
Proof.
  intros H contentIds mediaIds.
  destruct (onApply_done _ _ _ _ _ _ _ _ _ H) as [_ [_ [He Ha]]].
  fold contentIds in He. fold mediaIds in Ha.
  destruct (applyCollection_sums _ _ _ _ _ _ _ He) as [_ [_ [Hre _]]].
  destruct (applyCollection_sums _ _ _ _ _ _ _ Ha) as [_ [_ [Hra _]]].
  rewrite Hre, Hra.
  assert (Hle : forall cma byId ids,
             list_sum (map (contribOf cma byId (payloadTargetTagIds p)
                              preservePublishState 0 1 0 0) ids)
             <= list_sum (map (fun id => if preservePublishState
                                            && servedPublished cma id
                                         then 1 else 0) ids)).
  { intros cma byId ids. apply list_sum_le. intros id.
    apply item_republished_if_published. }
  split; [| split].
  - intros ->. split.
    + pose proof (Hle entryCma (rowsById (contentRows p)) contentIds) as Hl.
      simpl in Hl.
      rewrite (list_sum_none (fun _ : string => 0)) in Hl by reflexivity. lia.
    + pose proof (Hle assetCma (rowsById (mediaRows p)) mediaIds) as Hl.
      simpl in Hl.
      rewrite (list_sum_none (fun _ : string => 0)) in Hl by reflexivity. lia.
  - etransitivity; [apply Hle |]. rewrite <- list_sum_count.
    apply list_sum_le. intros id. destruct preservePublishState; simpl; [lia |].
    destruct (servedPublished entryCma id); lia.
  - etransitivity; [apply Hle |]. rewrite <- list_sum_count.
    apply list_sum_le. intros id. destruct preservePublishState; simpl; [lia |].
    destruct (servedPublished assetCma id); lia.
Qed.

Lemma onApply_republishes_only_published_items_witness :
  (false = false ->
   republished (mkTally 2 2 0 0 0 0) = 0 /\
   republished (mkTally 1 1 0 0 0 0) = 0) /\
  republished (mkTally 2 2 0 0 0 0) <= 2 /\
  republished (mkTally 1 1 0 0 0 0) <= 1.
Proof.
  apply (onApply_republishes_only_published_items sampleCma sampleCma
           sampleDialog ["E1"; "E2"; "E3"; "E4"] ["M1"] false
           [0; 0; 0; 1; 1; 1] [0; 0; 0]
           (mkApplySummary (mkTally 2 2 0 0 0 0) (mkTally 1 1 0 0 0 0))).
  vm_compute. reflexivity.
Defined.

(** A failing repository never aborts the apply run: the only errors
    [onApply] ends with are those of its two guards, an empty list of
    target tags and an empty selection. *)
Theorem onApply_fails_only_at_its_guards (entryCma assetCma : Cma)
  (p : DialogPayload) (selectedContentIds selectedMediaIds : list string)
  (preservePublishState : bool) (esched asched : list nat) (msg : string) :
  onApply entryCma assetCma p selectedContentIds selectedMediaIds
          preservePublishState esched asched = ApplyError msg ->
  (payloadTargetTagIds p = [] /\
   msg = "No valid Contentful Tag IDs were resolved. Nothing to apply.") \/
  (selectedContentIds = [] /\ selectedMediaIds = [] /\
   msg = "Nothing selected.").
Proof.
  unfold onApply.
  destruct (payloadTargetTagIds p) as [| t ts]; simpl.
  { intros [= <-]. left. auto. }
  destruct selectedContentIds as [| c cs], selectedMediaIds as [| m ms]; simpl.
  { intros [= <-]. right. auto. }
  all: match goal with |- context [if ?c then _ else _] => destruct c end;
    try discriminate;
    match goal with |- context [applyCollection ?a ?b ?c ?d ?e ?f] =>
      pose proof (applyCollection_never_throws a b c d e f) as Hn;
      destruct (applyCollection a b c d e f) as [[te | err] |]
    end; try discriminate; try (now destruct (Hn err));
    match goal with |- context [applyCollection ?a ?b ?c ?d ?e ?f] =>
      pose proof (applyCollection_never_throws a b c d e f) as Hn';
      destruct (applyCollection a b c d e f) as [[ta | err] |]
    end; try discriminate; now destruct (Hn' err).
Qed.

Lemma onApply_fails_only_at_its_guards_witness :
  (payloadTargetTagIds sampleDialog = [] /\
   "Nothing selected."
   = "No valid Contentful Tag IDs were resolved. Nothing to apply.") \/
  (@nil string = [] /\ @nil string = [] /\
   "Nothing selected." = "Nothing selected.").
Proof.
  apply (onApply_fails_only_at_its_guards sampleCma sampleCma sampleDialog
           [] [] true [] []).
  reflexivity.
Defined.

(** The apply run comes to an end: when its guards pass, some order of
    the responses ends it with a summary, whatever the repository answers
    to the requests. *)
Theorem onApply_comes_to_an_end (entryCma assetCma : Cma)
  (p : DialogPayload) (selectedContentIds selectedMediaIds : list string)
  (preservePublishState : bool) :
  payloadTargetTagIds p <> [] ->
  actionableIds (rowsById (contentRows p)) selectedContentIds <> [] \/
  actionableIds (rowsById (mediaRows p)) selectedMediaIds <> [] ->
  exists esched asched summary,
    onApply entryCma assetCma p selectedContentIds selectedMediaIds
            preservePublishState esched asched = Done summary.
Proof.
  intros Htags Hsome.
  assert (Hpool : forall cma byId ids,
             exists sched t,
               applyCollection cma byId (payloadTargetTagIds p)
                               preservePublishState sched ids = Some (Ok t)).
  { intros cma byId ids. destruct ids as [| id ids];
      [exists [], (mkTally 0 0 0 0 0 0); reflexivity |].
    destruct (quiescent_schedule (applyStart byId)
                (applyResume cma (payloadTargetTagIds p) preservePublishState)
                (id :: ids) applyStepsLeft 4) with (concurrency := 4%Z)
                (s0 := (mkTally (List.length (id :: ids)) 0 0 0 0 0, 0))
      as [sched Hq].
    - intros t s k. unfold applyStart.
      destruct (map_get t byId) as [row |];
        [destruct (rowExcluded row) |]; simpl; try discriminate;
        intros [= <-]; simpl; lia.
    - intros k s k'. unfold applyResume, caught.
      destruct k as [i | i w pl | i u]; simpl.
      + destruct (cmaGet cma i) as [[| | b | n | str | xs | kvs] | e];
          simpl; try discriminate; intros [= <-]; simpl; lia.
      + destruct (cmaUpdate cma i pl) as [u | e]; simpl; [| discriminate].
        destruct (preservePublishState && w); simpl; [| discriminate].
        intros [= <-]. simpl. lia.
      + destruct (cmaPublish cma i u); simpl; discriminate.
    - pose proof (quiescent_resolved (applyStart byId)
                    (applyResume cma (payloadTargetTagIds p)
                                 preservePublishState)
                    (id :: ids)
                    (applyStart_never_rejects byId)
                    (applyResume_never_rejects cma (payloadTargetTagIds p)
                                               preservePublishState)
                    sched 4%Z _ Hq) as Hout.
      exists sched. eexists. unfold applyCollection.
      cbv zeta in Hout. rewrite Hout. reflexivity. }
  destruct (Hpool entryCma (rowsById (contentRows p))
              (actionableIds (rowsById (contentRows p)) selectedContentIds))
    as [esched [te He]].
  destruct (Hpool assetCma (rowsById (mediaRows p))
              (actionableIds (rowsById (mediaRows p)) selectedMediaIds))
    as [asched [ta Ha]].
  exists esched, asched, (mkApplySummary te ta).
  unfold onApply.
  destruct (payloadTargetTagIds p) as [| t ts] eqn:Et; [contradiction |].
  rewrite <- Et in *. rewrite Et at 1. cbn [List.length Nat.eqb].
  destruct (List.length selectedContentIds + List.length selectedMediaIds =? 0)%nat
    eqn:Esel.
  { exfalso. apply Nat.eqb_eq in Esel.
    destruct selectedContentIds, selectedMediaIds; try discriminate.
    destruct Hsome as [H | H]; now apply H. }
  cbv zeta. rewrite He, Ha.
  destruct ((List.length (actionableIds (rowsById (contentRows p))
                            selectedContentIds) =? 0)%nat
            && (List.length (actionableIds (rowsById (mediaRows p))
                               selectedMediaIds) =? 0)%nat) eqn:Enone;
    [| reflexivity].
  exfalso. apply andb_true_iff in Enone. destruct Enone as [E1 E2].
  apply Nat.eqb_eq in E1. apply Nat.eqb_eq in E2.
  destruct Hsome as [H | H]; apply H.
  - now destruct (actionableIds (rowsById (contentRows p)) selectedContentIds).
  - now destruct (actionableIds (rowsById (mediaRows p)) selectedMediaIds).
Qed.

Lemma onApply_comes_to_an_end_witness :
  exists esched asched summary,
    onApply sampleCma sampleCma sampleDialog ["E1"; "E2"] [] true
            esched asched = Done summary.
Proof.
  apply (onApply_comes_to_an_end sampleCma sampleCma sampleDialog
           ["E1"; "E2"] [] true).
  - discriminate.
  - left. vm_compute. discriminate.
Defined.

Lemma assoc_map_set_other (k k0 : string) (v : jsval)
  (m : list (string * jsval)) :
  k <> k0 -> assoc k (map_set k0 v m) = assoc k m.
Proof.
  intros Hne. induction m as [| [k1 v1] m IH]; simpl.
  - destruct (String.eqb_spec k0 k); [congruence | reflexivity].
  - destruct (String.eqb_spec k1 k0) as [-> | H10]; simpl.
    + destruct (String.eqb_spec k0 k); [congruence | reflexivity].
    + destruct (String.eqb_spec k1 k); [reflexivity | exact IH].
Qed.

(** The entity handed to [update] differs from the one [get] served in
    its tag list only: every other property of the entity and of its
    metadata is as it was, and the tag links it had are kept, in their
    order, ahead of the ones added. *)
Theorem taggedEntity_changes_only_the_tags (entity : jsval)
  (targets : list string) (k : string) :
  let written := taggedEntity entity targets in
  (k <> "metadata" -> prop k written = prop k entity) /\
  (k <> "tags" ->
   prop k (prop "metadata" written) = prop k (prop "metadata" entity)) /\
  exists added,
    existingLinks written = existingLinks entity ++ map makeTagLink added /\
    incl added targets.
Proof.
  intros written. split; [| split].
  - intros Hk. unfold written, taggedEntity, prop. cbn [own_props].
    now apply assoc_map_set_other.
  - intros Hk. unfold written, taggedEntity, prop at 2. cbn [own_props].
    rewrite assoc_map_set. unfold prop at 1. cbn [own_props].
    now apply assoc_map_set_other.
  - unfold written. rewrite existingLinks_tagged. unfold mergedLinks.
    eexists. split; [reflexivity |]. intros t Ht.
    now apply filter_In in Ht.
Qed.

(* ================================================================== *)
(** * Further properties of the root resolver *)

Lemma rootsGrow_refl (from : string -> Prop) (st : JSet * JSet) :
  rootsGrow from st st.
Proof. unfold rootsGrow. auto 10 using incl_refl. Qed.

Lemma rootsGrow_trans (from : string -> Prop) (a b c : JSet * JSet) :
  rootsGrow from a b -> rootsGrow from b c -> rootsGrow from a c.
Proof.
  intros [H1 [H2 [H3 [H4 [H5 [H6 H7]]]]]] [K1 [K2 [K3 [K4 [K5 [K6 K7]]]]]].
  unfold rootsGrow.
  split; [eapply incl_tran; eassumption |].
  split; [eapply incl_tran; eassumption |].
  split; [auto | split; [auto | split; [| split; [| auto]]]].
  - intros id Hid. destruct (K5 id Hid) as [H | H]; auto.
  - intros id Hid. destruct (K6 id Hid) as [H | H]; auto.
Qed.

Lemma rootsGrow_from (from from' : string -> Prop) (a b : JSet * JSet) :
  (forall id, from id -> from' id) -> rootsGrow from a b -> rootsGrow from' a b.
Proof.
  intros Hf [H1 [H2 [H3 [H4 [H5 [H6 H7]]]]]]. unfold rootsGrow.
  repeat (split; [assumption |]).
  split; [| split; [| assumption]].
  - intros id Hid. destruct (H5 id Hid); auto.
  - intros id Hid. destruct (H6 id Hid); auto.
Qed.

Lemma addRoot_grows (items : list jsval) :
  forall st,
    rootsGrow (fun id => exists item, In item items /\ sys_prop "id" item = JStr id)
              st (fold_left addRoot items st).
Proof.
  induction items as [| item items IH]; intros st; simpl.
  - apply rootsGrow_refl.
  - apply rootsGrow_trans with (addRoot st item).
    + unfold addRoot. destruct (truthy (sys_prop "id" item));
        [| apply rootsGrow_refl].
      unfold rootsGrow. simpl.
      split; [apply add_id_grows | split; [apply add_id_grows |]].
      split; [apply add_id_NoDup | split; [apply add_id_NoDup |]].
      split; [| split].
      * intros id Hid. apply add_id_In in Hid. destruct Hid as [H | H];
          [now left | right]. exists item. split; [now left | exact H].
      * intros id Hid. apply add_id_In in Hid. destruct Hid as [H | H];
          [now left | right]. exists item. split; [now left | exact H].
      * intros Hincl id Hid. apply add_id_In in Hid. apply add_id_In.
        destruct Hid as [H | H]; [left; now apply Hincl | now right].
    + eapply rootsGrow_from; [| apply IH].
      intros id [it [Hin Hid]]. exists it. split; [now right | exact Hid].
Qed.

Section RootFacts.
Variable getMany : EntryQuery.
Variable locationId : string.

Lemma pageLoop_grows (ct f : string) (fuel : nat) :
  forall skip st st',
    pageLoop fuel (getMany ct f locationId) skip st = Some (Ok st') ->
    rootsGrow (servedBy getMany locationId [ct] [f]) st st'.
Proof.
  induction fuel as [| fuel IH]; intros skip st st' H; simpl in H;
    [discriminate |].
  destruct (getMany ct f locationId skip) as [items | e] eqn:Hp.
  - assert (Hitems : rootsGrow (servedBy getMany locationId [ct] [f]) st
                               (fold_left addRoot items st)).
    { eapply rootsGrow_from; [| apply addRoot_grows].
      intros id [item [Hin Hid]]. exists ct, f, skip, items, item.
      simpl. auto 10. }
    destruct (List.length items =? 0)%nat.
    + injection H as <-. apply rootsGrow_refl.
    + destruct (List.length items <? limit)%nat.
      * now injection H as <-.
      * eapply rootsGrow_trans; [exact Hitems | eapply IH; exact H].
  - destruct (isUnknownField e); [| discriminate].
    injection H as <-. apply rootsGrow_refl.
Qed.

Lemma fieldLoop_grows (ct : string) (fuel : nat) (fieldIds : list string) :
  forall st st',
    fieldLoop fuel getMany locationId ct fieldIds st = Some (Ok st') ->
    rootsGrow (servedBy getMany locationId [ct] fieldIds) st st'.
Proof.
  induction fieldIds as [| f fs IH]; intros st st' H; simpl in H.
  - injection H as <-. apply rootsGrow_refl.
  - destruct (pageLoop fuel (getMany ct f locationId) 0 st)
      as [[st1 | e] |] eqn:Hp; try discriminate. cbn [bind] in H.
    apply rootsGrow_trans with st1.
    + eapply rootsGrow_from; [| eapply pageLoop_grows; exact Hp].
      intros id [c [g [skip [items [item [Hc [Hg Hrest]]]]]]].
      exists c, g, skip, items, item.
      destruct Hg as [<- | []]. simpl. auto.
    + eapply rootsGrow_from; [| apply IH; exact H].
      intros id [c [g [skip [items [item [Hc [Hg Hrest]]]]]]].
      exists c, g, skip, items, item. simpl. auto.
Qed.

Lemma typeLoop_grows (fuel : nat) (fieldIds : list string) (cts : list string) :
  forall roots per roots' per',
    typeLoop fuel getMany locationId fieldIds cts (roots, per)
    = Some (Ok (roots', per')) ->
    incl roots roots' /\
    (NoDup roots -> NoDup roots') /\
    (forall id, In id roots' ->
                In id roots \/ servedBy getMany locationId cts fieldIds id) /\
    (NoDup (map fst per) -> NoDup (map fst per')) /\
    (forall ct, In ct (map fst per') <-> In ct (map fst per) \/ In ct cts) /\
    (NoDup roots ->
     (forall ct n, In (ct, n) per -> n <= List.length roots) ->
     forall ct n, In (ct, n) per' -> n <= List.length roots').
Proof.
  induction cts as [| ct cts IH]; intros roots per roots' per' H; simpl in H.
  - injection H as <- <-.
    split; [apply incl_refl | split; [auto | split; [auto | split; [auto |]]]].
    split; [| auto]. intros ct. simpl. tauto.
  - destruct (fieldLoop fuel getMany locationId ct fieldIds (roots, []))
      as [[[roots1 ctIds] | e] |] eqn:Hf; try discriminate.
    cbn [bind fst snd] in H.
    pose proof (fieldLoop_grows _ _ _ _ _ Hf)
      as [G1 [G2 [G3 [G4 [G5 [G6 G7]]]]]]. simpl in *.
    destruct (IH _ _ _ _ H) as [K1 [K2 [K3 [K4 [K5 K6]]]]].
    split; [eapply incl_tran; eassumption |].
    split; [auto |]. split; [| split; [| split]].
    + intros id Hid. destruct (K3 id Hid) as [Hin | Hs].
      * destruct (G5 id Hin) as [Hr | Hs]; [now left | right].
        destruct Hs as [c [g [skip [items [item [Hc Hrest]]]]]].
        exists c, g, skip, items, item.
        destruct Hc as [<- | []]. simpl. auto.
      * right. destruct Hs as [c [g [skip [items [item [Hc Hrest]]]]]].
        exists c, g, skip, items, item. simpl. auto.
    + intros Hnd. apply K4. now apply map_set_NoDup.
    + intros c. rewrite K5, map_set_keys. simpl. intuition.
    + intros Hnd Hper c n Hin.
      refine (K6 (G3 Hnd) _ c n Hin).
      intros c' n' Hin'. apply map_set_In in Hin'.
      destruct Hin' as [[-> ->] | Hin'].
      * apply NoDup_incl_length; [apply G4; constructor |].
        apply G7. intros x [].
      * specialize (Hper c' n' Hin').
        assert (List.length roots <= List.length roots1)
          by now apply NoDup_incl_length.
        lia.
Qed.

End RootFacts.

(** The root resolver gives each root once, and a count for exactly the
    configured root content types, each count being at most the number of
    roots. *)
Theorem findRootPagesForLocation_roots_and_counts (fuel : nat)
  (getMany : EntryQuery) (locationId : string) (config : InstallConfig)
  (roots : JSet) (perContentType : list (string * nat)) :
  findRootPagesForLocation fuel getMany locationId config
  = Some (Ok (roots, perContentType)) ->
  NoDup roots /\
  NoDup (map fst perContentType) /\
  (forall ct, In ct (map fst perContentType) <->
              In ct (rootContentTypes config)) /\
  (forall ct n, In (ct, n) perContentType -> n <= List.length roots).
Proof.
  unfold findRootPagesForLocation. intros H.
  destruct (typeLoop_grows _ _ _ _ _ _ _ _ _ H)
    as [_ [H2 [_ [H4 [H5 H6]]]]].
  split; [apply H2; constructor |].
  split; [apply H4; constructor |].
  split.
  - intros ct. rewrite H5. simpl. tauto.
  - apply H6; [constructor | intros ct n []].
Qed.

Lemma findRootPagesForLocation_roots_and_counts_witness :
  NoDup ["h1"; "h2"] /\
  NoDup (map fst [("pageHome", 2)]) /\
  (forall ct, In ct (map fst [("pageHome", 2)]) <->
              In ct (rootContentTypes homeConfig)) /\
  (forall ct n, In (ct, n) [("pageHome", 2)] ->
                n <= List.length ["h1"; "h2"]).
Proof.
  apply (findRootPagesForLocation_roots_and_counts 3 sampleQuery "loc1"
           homeConfig).
  vm_compute. reflexivity.
Defined.

(** The root resolver invents no root: every id it returns is the string
    id, not empty, of an item that the repository served in answer to a
    query for a configured content type and link field. *)
Theorem findRootPagesForLocation_roots_were_served (fuel : nat)
  (getMany : EntryQuery) (locationId : string) (config : InstallConfig)
  (roots : JSet) (perContentType : list (string * nat)) (id : string) :
  findRootPagesForLocation fuel getMany locationId config
  = Some (Ok (roots, perContentType)) ->
  In id roots ->
  servedBy getMany locationId (rootContentTypes config)
           (locationLinkFieldIds config) id.
Proof.
  unfold findRootPagesForLocation. intros H Hid.
  destruct (typeLoop_grows _ _ _ _ _ _ _ _ _ H) as [_ [_ [H3 _]]].
  destruct (H3 id Hid) as [[] | Hs]. exact Hs.
Qed.

Lemma findRootPagesForLocation_roots_were_served_witness :
  servedBy sampleQuery "loc1" (rootContentTypes homeConfig)
           (locationLinkFieldIds homeConfig) "h2".
Proof.
  apply (findRootPagesForLocation_roots_were_served 3 sampleQuery "loc1"
           homeConfig ["h1"; "h2"] [("pageHome", 2)] "h2").
  - vm_compute. reflexivity.
  - simpl. auto.
Defined.

(* ================================================================== *)
(** * Further properties of the tag resolver *)

Lemma map_get_set {V : Type} (k : string) (v : V) (m : list (string * V)) :
  map_get k (map_set k v m) = Some v.
Proof.
  induction m as [| [k0 v0] m IH]; simpl.
  - now rewrite String.eqb_refl.
  - destruct (String.eqb_spec k0 k) as [-> | Hne]; simpl.
    + now rewrite String.eqb_refl.
    + destruct (String.eqb_spec k0 k); [contradiction | exact IH].
Qed.

Lemma map_get_set_other {V : Type} (k k0 : string) (v : V)
  (m : list (string * V)) :
  k <> k0 -> map_get k (map_set k0 v m) = map_get k m.
Proof.
  intros Hne. induction m as [| [k1 v1] m IH]; simpl.
  - destruct (String.eqb_spec k0 k); [congruence | reflexivity].
  - destruct (String.eqb_spec k1 k0) as [-> | H10]; simpl.
    + destruct (String.eqb_spec k0 k); [congruence | reflexivity].
    + destruct (String.eqb_spec k1 k); [reflexivity | exact IH].
Qed.









Lemma lookupNames_lists (cache : list (string * string)) (names : list string) :
  forall tagIds missing,
    lookupNames cache names tagIds missing
    = (tagIds ++ flat_map (fun n => match map_get n cache with
                                    | Some id => if id =? "" then [] else [id]
                                    | None => []
                                    end) names,
       missing ++ filter (fun n => match map_get n cache with
                                   | Some id => id =? ""
                                   | None => true
                                   end) names).
Proof.
  induction names as [| n names IH]; intros tagIds missing; simpl.
  - now rewrite !app_nil_r.
  - destruct (map_get n cache) as [id |].
    + destruct (id =? ""); rewrite IH, <- ?app_assoc; reflexivity.
    + rewrite IH, <- app_assoc. reflexivity.
Qed.

Lemma resolveTargetTagIds_by_name (fuel : nat)
  (page : nat -> result (list jsval)) (tagNamesOrIds tagIds missing : list string)
  (cache cache' : option (list (string * string))) :
  resolveTargetTagIds fuel page ByName tagNamesOrIds cache
  = Some (Ok (tagIds, missing, cache')) ->
  exists c,
    (cache = Some c \/
     (cache = None /\ getAllTagsByName fuel page 0 [] = Some (Ok c))) /\
    lookupNames c (set_of_list (filter (fun s => negb (s =? "")) tagNamesOrIds))
                [] [] = (tagIds, missing) /\
    cache' = Some c.
Proof.
  intros H. unfold resolveTargetTagIds in H.
  destruct cache as [c |].
  - cbn [bind] in H. injection H as H1 H2 H3. exists c.
    split; [now left | split; [| now symmetry]].
    rewrite <- H1, <- H2. now destruct (lookupNames c _ [] []).
  - destruct (getAllTagsByName fuel page 0 []) as [[c | e] |];
      try discriminate.
    cbn [bind] in H. injection H as H1 H2 H3. exists c.
    split; [right; now split | split; [| now symmetry]].
    rewrite <- H1, <- H2. now destruct (lookupNames c _ [] []).
Qed.

(** In name mode every distinct, non-empty requested name is accounted
    for: it is reported missing when the tag map has no id, or an empty
    one, for it, and its id is among the resolved ids otherwise; the map
    is the cache handed in, or the listing when there was none, and is
    handed back. *)
Theorem resolveTargetTagIds_accounts_for_every_name (fuel : nat)
  (page : nat -> result (list jsval)) (tagNamesOrIds tagIds missing : list string)
  (cache cache' : option (list (string * string))) :
  resolveTargetTagIds fuel page ByName tagNamesOrIds cache
  = Some (Ok (tagIds, missing, cache')) ->
  let uniq := set_of_list (filter (fun s => negb (s =? "")) tagNamesOrIds) in
  exists c,
    cache' = Some c /\
    (cache = Some c \/
     (cache = None /\ getAllTagsByName fuel page 0 [] = Some (Ok c))) /\
    (forall name, In name missing <->
                  In name uniq /\ forall id, map_get name c = Some id -> id = "") /\
    (forall id, In id tagIds <->
                id <> "" /\ exists name, In name uniq /\ map_get name c = Some id) /\
    List.length tagIds + List.length missing = List.length uniq.
Proof.
  intros H uniq.
  destruct (resolveTargetTagIds_by_name _ _ _ _ _ _ _ H)
    as [c [Hcache [Hl ->]]]. fold uniq in Hl. exists c.
  split; [reflexivity | split; [exact Hcache |]].
  rewrite lookupNames_lists in Hl. simpl in Hl. injection Hl as <- <-.
  split; [| split].
  - intros name. rewrite filter_In. split.
    + intros [Hin Hm]. split; [exact Hin |]. intros id Hid.
      rewrite Hid in Hm. now apply String.eqb_eq in Hm.
    + intros [Hin Hm]. split; [exact Hin |].
      destruct (map_get name c) as [id |]; [| reflexivity].
      apply String.eqb_eq. now apply Hm.
  - intros id. rewrite in_flat_map. split.
    + intros [name [Hin Hid]].
      destruct (map_get name c) as [id0 |] eqn:Hg; [| destruct Hid].
      destruct (String.eqb_spec id0 "") as [-> | Hne]; [destruct Hid |].
      destruct Hid as [<- | []]. split; [exact Hne |]. now exists name.
    + intros [Hne [name [Hin Hg]]]. exists name. split; [exact Hin |].
      rewrite Hg. destruct (String.eqb_spec id ""); [contradiction | now left].
  - clear. induction uniq as [| n l IH]; simpl; [reflexivity |].
    destruct (map_get n c) as [id |]; [destruct (id =? "") |];
      simpl; rewrite ?length_app; simpl; lia.
Qed.

Lemma resolveTargetTagIds_accounts_for_every_name_witness :
  exists c,
    Some [("News", "t3"); ("Sport", "t2")] = Some c /\
    (None = Some c \/
     (@None (list (string * string)) = None /\
      getAllTagsByName 1 sampleTagPage 0 [] = Some (Ok c))) /\
    (forall name, In name ["Travel"] <->
                  In name ["News"; "Travel"] /\
                  forall id, map_get name c = Some id -> id = "") /\
    (forall id, In id ["t3"] <->
                id <> "" /\
                exists name, In name ["News"; "Travel"] /\
                             map_get name c = Some id) /\
    List.length ["t3"] + List.length ["Travel"] = List.length ["News"; "Travel"].
Proof.
  apply (resolveTargetTagIds_accounts_for_every_name 1 sampleTagPage
           ["News"; ""; "Travel"; "News"] ["t3"] ["Travel"] None
           (Some [("News", "t3"); ("Sport", "t2")])).
  vm_compute. reflexivity.
Defined.

(* ================================================================== *)
(** * Further properties of the helpers of the sidebar *)



(** The tag ids read off an entity are the non-empty string ids of the
    links in its [metadata.tags] array, in their order; an entity without
    such an array has none; and the ids of links made by [makeTagLink]
    are read back as they were given. *)
Theorem getTagIdsFromMetadata_reads_the_tag_links (entity : jsval) :
  (forall t, In t (getTagIdsFromMetadata entity) <->
             t <> "" /\
             exists tag, In tag (existingLinks entity) /\
                         sys_prop "id" tag = JStr t) /\
  ((forall tags, prop "tags" (prop "metadata" entity) <> JArr tags) ->
   getTagIdsFromMetadata entity = []) /\
  (forall ids rest,
      ~ In "" ids ->
      getTagIdsFromMetadata
        (JObj (("metadata", JObj [("tags", JArr (map makeTagLink ids))])
               :: rest))
      = ids).
Proof.
  split; [| split].
  - intros t. rewrite getTagIds_existing. apply string_ids_In.
  - intros Hno. unfold getTagIdsFromMetadata.
    destruct (prop "tags" (prop "metadata" entity)); try reflexivity.
    now destruct (Hno xs).
  - intros ids rest Hne. unfold getTagIdsFromMetadata.
    change (prop "tags" (prop "metadata"
              (JObj (("metadata", JObj [("tags", JArr (map makeTagLink ids))])
                     :: rest))))
      with (JArr (map makeTagLink ids)).
    now apply string_ids_made.
Qed.

(* ================================================================== *)
(** * [trim], [split] and [parseCsv] *)

Lemma string_app_nil_r (s : string) : (s ++ "")%string = s.
Proof. induction s as [| c s IH]; simpl; [reflexivity | now rewrite IH]. Qed.

Lemma string_app_assoc (a b c : string) :
  ((a ++ b) ++ c)%string = (a ++ (b ++ c))%string.
Proof. induction a as [| x a IH]; simpl; [reflexivity | now rewrite IH]. Qed.

Lemma string_app_length (a b : string) :
  String.length (a ++ b)%string = String.length a + String.length b.
Proof. induction a as [| x a IH]; simpl; [reflexivity | now rewrite IH]. Qed.

Lemma dropPrefix_spec (p s r : string) :
  dropPrefix p s = Some r <-> s = (p ++ r)%string.
Proof.
  revert s. induction p as [| a p IH]; intros s; simpl.
  - split; [intros [= ->]; reflexivity | intros ->; reflexivity].
  - destruct s as [| b s]; [split; discriminate |].
    destruct (Ascii.eqb_spec a b) as [-> | Hne].
    + rewrite IH. split; [intros ->; reflexivity | intros [= ->]; reflexivity].
    + split; [discriminate | intros [= -> _]; contradiction].
Qed.

Lemma stripOneOf_spec (codes : list string) (s r : string) :
  stripOneOf codes s = Some r ->
  exists w, In w codes /\ s = (w ++ r)%string.
Proof.
  induction codes as [| w codes IH]; simpl; [discriminate |].
  destruct (dropPrefix w s) as [r' |] eqn:E.
  - intros [= <-]. exists w. split; [now left | now apply dropPrefix_spec].
  - intros H. destruct (IH H) as [w' [Hin Hs]]. exists w'. auto.
Qed.

Lemma stripOneOf_finds (codes : list string) (w s r : string) :
  In w codes -> s = (w ++ r)%string ->
  exists w' r', stripOneOf codes s = Some r' /\ In w' codes /\
                s = (w' ++ r')%string.
Proof.
  intros Hin Hs. induction codes as [| w0 codes IH]; [destruct Hin |].
  simpl. destruct (dropPrefix w0 s) as [r0 |] eqn:E.
  - exists w0, r0. split; [reflexivity | split; [now left |]].
    now apply dropPrefix_spec.
  - destruct Hin as [-> | Hin].
    + apply dropPrefix_spec in Hs. congruence.
    + destruct (IH Hin) as [w' [r' [H1 [H2 H3]]]]. exists w', r'. auto.
Qed.

Lemma app_eq_prefix (w : string) :
  forall w' a b,
    (w ++ a)%string = (w' ++ b)%string ->
    String.prefix w w' = true \/ String.prefix w' w = true.
Proof.
  induction w as [| c w IH]; intros w' a b E; [left; now destruct w' |].
  destruct w' as [| c' w']; [now right |].
  simpl in E. injection E as <- E. simpl.
  destruct (ascii_dec c c); [| contradiction]. now apply (IH w' a b).
Qed.

Lemma string_app_inv_head (w a b : string) :
  (w ++ a)%string = (w ++ b)%string -> a = b.
Proof.
  induction w as [| c w IH]; simpl; [auto |]. intros [= E]. now apply IH.
Qed.

(** No white space code is the beginning of another. *)
Lemma whiteSpace_prefix_code (w w' a b : string) :
  In w whiteSpace -> In w' whiteSpace ->
  (w ++ a)%string = (w' ++ b)%string -> w = w' /\ a = b.
Proof.
  intros H H' E.
  assert (Hall : forallb (fun x =>
                   forallb (fun y =>
                     implb (String.prefix x y || String.prefix y x) (x =? y))
                     whiteSpace) whiteSpace = true)
    by (vm_compute; reflexivity).
  rewrite forallb_forall in Hall. specialize (Hall w H).
  rewrite forallb_forall in Hall. specialize (Hall w' H').
  assert (Hc : String.prefix w w' || String.prefix w' w = true).
  { apply orb_true_iff. exact (app_eq_prefix _ _ _ _ E). }
  rewrite Hc in Hall. simpl in Hall. apply String.eqb_eq in Hall. subst w'.
  split; [reflexivity | exact (string_app_inv_head _ _ _ E)].
Qed.

Lemma whiteSpace_nonempty (w : string) : In w whiteSpace -> w <> "".
Proof.
  unfold whiteSpace, bytes. simpl. intros H.
  repeat (destruct H as [<- | H]; [discriminate |]). contradiction.
Qed.

Lemma stripSpace_shorter (s r : string) :
  stripSpace s = Some r -> String.length r < String.length s.
Proof.
  intros H. destruct (stripOneOf_spec _ _ _ H) as [w [Hin ->]].
  rewrite string_app_length. pose proof (whiteSpace_nonempty w Hin).
  destruct w; [contradiction | simpl; lia].
Qed.

Lemma trimStartN_settles (n : nat) :
  forall s, String.length s <= n -> stripSpace (trimStartN n s) = None.
Proof.
  induction n as [| n IH]; intros s Hlen; simpl.
  - destruct s; [reflexivity | simpl in Hlen; lia].
  - destruct (stripSpace s) as [r |] eqn:E; [| exact E].
    apply IH. apply stripSpace_shorter in E. lia.
Qed.

Lemma trimStartN_fixed (n : nat) (s : string) :
  stripSpace s = None -> trimStartN n s = s.
Proof. intros H. destruct n; simpl; [reflexivity | now rewrite H]. Qed.

Lemma trimStartN_more (n : nat) :
  forall m s, String.length s <= n -> n <= m -> trimStartN m s = trimStartN n s.
Proof.
  induction n as [| n IH]; intros m s Hlen Hm.
  - destruct s; [| simpl in Hlen; lia]. now destruct m.
  - destruct m as [| m]; [lia |]. simpl.
    destruct (stripSpace s) as [r |] eqn:E; [| reflexivity].
    apply IH; [| lia]. apply stripSpace_shorter in E. lia.
Qed.

Lemma trimStart_step (s r : string) :
  stripSpace s = Some r -> trimStart s = trimStart r.
Proof.
  intros E. unfold trimStart.
  pose proof (stripSpace_shorter _ _ E) as Hlt.
  destruct (String.length s) as [| n] eqn:El; [lia |].
  simpl. rewrite E. apply trimStartN_more; lia.
Qed.

Lemma trimStart_fixed (s : string) : stripSpace s = None -> trimStart s = s.
Proof. intros H. now apply trimStartN_fixed. Qed.

Lemma trimStart_settled (s : string) : stripSpace (trimStart s) = None.
Proof. now apply trimStartN_settles. Qed.

(** What [trimStart] removes is white space, and what it leaves is the
    rest of the string. *)
Lemma trimStart_split (s : string) :
  exists pre, s = (pre ++ trimStart s)%string /\ spaces pre.
Proof.
  remember (String.length s) as n eqn:Hn. revert s Hn.
  induction n as [n IH] using lt_wf_ind. intros s ->.
  destruct (stripSpace s) as [r |] eqn:E.
  - rewrite (trimStart_step _ _ E).
    destruct (stripOneOf_spec _ _ _ E) as [w [Hin Hs]].
    destruct (IH _ (stripSpace_shorter _ _ E) r eq_refl) as [pre [Hr Hsp]].
    exists (w ++ pre)%string. split; [| now constructor].
    rewrite string_app_assoc, <- Hr. exact Hs.
  - rewrite (trimStart_fixed _ E). exists "". split; [reflexivity | constructor].
Qed.

Lemma spaces_trimStart (s : string) : spaces s <-> trimStart s = "".
Proof.
  split.
  - induction 1 as [| w s Hin Hs IH]; [reflexivity |].
    destruct (stripOneOf_finds whiteSpace w (w ++ s) s Hin eq_refl)
      as [w' [r' [H1 [H2 H3]]]].
    destruct (whiteSpace_prefix_code _ _ _ _ Hin H2 H3) as [_ <-].
    now rewrite (trimStart_step _ _ H1).
  - intros H. destruct (trimStart_split s) as [pre [Hs Hsp]].
    rewrite H, string_app_nil_r in Hs. now subst.
Qed.

Lemma spaces_app (a b : string) : spaces a -> spaces b -> spaces (a ++ b)%string.
Proof.
  induction 1 as [| w s Hin Hs IH]; intros Hb; [exact Hb |].
  rewrite string_app_assoc. constructor; auto.
Qed.

(** What [trimEnd] removes is white space. *)
Lemma trimEnd_split (s : string) :
  exists suf, s = (trimEnd s ++ suf)%string /\ spaces suf.
Proof.
  induction s as [| c s IH]; [exists ""; split; [reflexivity | constructor] |].
  cbn [trimEnd]. destruct (String.eqb_spec (trimStart (String c s)) "") as [E | E].
  - exists (String c s). split; [reflexivity | now apply spaces_trimStart].
  - destruct IH as [suf [Hs Hsp]]. exists suf. split; [| exact Hsp].
    simpl. now rewrite <- Hs.
Qed.

Lemma trimEnd_again (s : string) : trimEnd (trimEnd s) = trimEnd s.
Proof.
  induction s as [| c s IH]; [reflexivity |].
  cbn [trimEnd]. destruct (String.eqb_spec (trimStart (String c s)) "") as [E | E];
    [reflexivity |].
  cbn [trimEnd].
  destruct (String.eqb_spec (trimStart (String c (trimEnd s))) "") as [E' | E'].
  - exfalso. apply E. apply spaces_trimStart.
    destruct (trimEnd_split s) as [suf [Hs Hsp]].
    rewrite Hs. change (String c (trimEnd s ++ suf))
      with (String c (trimEnd s) ++ suf)%string.
    apply spaces_app; [now apply spaces_trimStart | exact Hsp].
  - now rewrite IH.
Qed.

Lemma trimEnd_keeps_start (s : string) :
  stripSpace s = None -> stripSpace (trimEnd s) = None.
Proof.
  intros H. destruct (stripSpace (trimEnd s)) as [r |] eqn:E; [| reflexivity].
  destruct (stripOneOf_spec _ _ _ E) as [w [Hin Hw]].
  destruct (trimEnd_split s) as [suf [Hs _]].
  rewrite Hw, string_app_assoc in Hs.
  destruct (stripOneOf_finds whiteSpace w s _ Hin Hs) as [w' [r' [H1 _]]].
  unfold stripSpace in H. congruence.
Qed.

Lemma trim_again (s : string) : trim (trim s) = trim s.
Proof.
  unfold trim.
  rewrite (trimStart_fixed (trimEnd (trimStart s))).
  - apply trimEnd_again.
  - apply trimEnd_keeps_start, trimStart_settled.
Qed.

Lemma separatorFree_app (a b : string) :
  separatorFree (a ++ b)%string = separatorFree a && separatorFree b.
Proof.
  induction a as [| c a IH]; simpl; [reflexivity |].
  now rewrite IH, andb_assoc.
Qed.

Lemma trim_separatorFree (s : string) :
  separatorFree s = true -> separatorFree (trim s) = true.
Proof.
  intros H. unfold trim.
  destruct (trimStart_split s) as [pre [Hs _]].
  destruct (trimEnd_split (trimStart s)) as [suf [Ht _]].
  rewrite Hs, Ht, !separatorFree_app in H.
  apply andb_true_iff in H. destruct H as [_ H].
  apply andb_true_iff in H. now destruct H.
Qed.

Lemma split_pieces (s : string) :
  split isCsvSeparator s <> [] /\
  Forall (fun piece => separatorFree piece = true) (split isCsvSeparator s).
Proof.
  induction s as [| c s [IH1 IH2]]; simpl.
  - split; [discriminate | repeat constructor].
  - destruct (isCsvSeparator c) eqn:Ec.
    + split; [discriminate | constructor; [reflexivity | exact IH2]].
    + destruct (split isCsvSeparator s) as [| piece pieces];
        [contradiction |].
      split; [discriminate |].
      inversion IH2; subst. constructor; [| assumption].
      simpl. now rewrite Ec.
Qed.

Lemma split_separatorFree (s : string) :
  separatorFree s = true -> split isCsvSeparator s = [s].
Proof.
  induction s as [| c s IH]; simpl; [reflexivity |].
  intros H. apply andb_true_iff in H. destruct H as [Hc Hs].
  apply negb_true_iff in Hc. now rewrite Hc, (IH Hs).
Qed.

Lemma split_at_comma (x rest : string) :
  separatorFree x = true ->
  split isCsvSeparator (x ++ "," ++ rest)%string
  = x :: split isCsvSeparator rest.
Proof.
  induction x as [| c x IH]; simpl; [reflexivity |].
  intros H. apply andb_true_iff in H. destruct H as [Hc Hs].
  apply negb_true_iff in Hc. rewrite Hc.
  change (split isCsvSeparator (x ++ String "," rest))
    with (split isCsvSeparator (x ++ "," ++ rest)%string).
  now rewrite (IH Hs).
Qed.

Lemma split_joinCsv (xs : list string) :
  xs <> [] ->
  Forall (fun x => separatorFree x = true) xs ->
  split isCsvSeparator (joinCsv xs) = xs.
Proof.
  unfold joinCsv. induction xs as [| x xs IH]; [contradiction |].
  intros _ H. inversion H as [| ? ? Hx Hxs]; subst.
  destruct xs as [| y ys].
  - simpl. now apply split_separatorFree.
  - cbn [String.concat]. rewrite (split_at_comma _ _ Hx).
    f_equal. now apply IH.
Qed.

Lemma parseCsv_clean (value : option string) :
  Forall cleanCsvItem (parseCsv value).
Proof.
  destruct value as [s |]; [| constructor]. unfold parseCsv.
  destruct (s =? ""); [constructor |].
  apply Forall_forall. intros e He. apply filter_In in He.
  destruct He as [He Hne]. apply in_map_iff in He.
  destruct He as [piece [<- Hpiece]].
  split; [| split].
  - intros E. rewrite E in Hne. discriminate.
  - apply trim_again.
  - apply trim_separatorFree.
    destruct (split_pieces s) as [_ Hall]. rewrite Forall_forall in Hall.
    now apply Hall.
Qed.

(** Every element [parseCsv] returns is a non-empty string with no white
    space at either end and no comma or line feed in it, and the pieces
    that are empty or all white space are dropped; an undefined or empty
    value gives no element. *)
Theorem parseCsv_gives_clean_items (value : option string) :
  Forall cleanCsvItem (parseCsv value) /\
  (forall s piece, value = Some s -> s <> "" ->
                   In piece (split isCsvSeparator s) ->
                   In (trim piece) (parseCsv value) \/ spaces piece) /\
  parseCsv None = [] /\ parseCsv (Some "") = [].
Proof.
  split; [apply parseCsv_clean | split; [| split; reflexivity]].
  intros s piece -> Hs Hin. unfold parseCsv.
  destruct (String.eqb_spec s ""); [contradiction |].
  destruct (String.eqb_spec (trim piece) "") as [E | E].
  - right. unfold trim in E.
    destruct (trimStart_split piece) as [pre [Hp Hpre]].
    destruct (trimEnd_split (trimStart piece)) as [suf [Ht Hsuf]].
    rewrite E in Ht. simpl in Ht. rewrite Hp, Ht.
    now apply spaces_app.
  - left. apply filter_In. split; [now apply in_map |].
    now destruct (String.eqb_spec (trim piece) "").
Qed.

Lemma parseCsv_of_clean (xs : list string) :
  Forall cleanCsvItem xs -> parseCsv (Some (joinCsv xs)) = xs.
Proof.
  intros H. destruct xs as [| x xs]; [reflexivity |].
  unfold parseCsv.
  assert (Hne : joinCsv (x :: xs) <> "").
  { inversion H as [| ? ? [Hx _] _]; subst. unfold joinCsv. simpl.
    destruct xs; [exact Hx |]. destruct x; [contradiction | discriminate]. }
  destruct (String.eqb_spec (joinCsv (x :: xs)) ""); [contradiction |].
  rewrite split_joinCsv; [| discriminate |].
  - clear Hne n. induction H as [| y ys [Hy [Ht _]] Hys IH]; [reflexivity |].
    simpl. rewrite Ht.
    destruct (String.eqb_spec y ""); [contradiction |]. simpl. now rewrite IH.
  - eapply Forall_impl; [| exact H]. now intros y [_ [_ Hy]].
Qed.

(** Writing a list of clean items with commas between them and parsing
    the result gives the list back; so parsing, joining and parsing again
    changes nothing. *)
Theorem parseCsv_reads_back_what_join_writes (value : option string)
  (xs : list string) :
  (Forall cleanCsvItem xs -> parseCsv (Some (joinCsv xs)) = xs) /\
  parseCsv (Some (joinCsv (parseCsv value))) = parseCsv value.
Proof.
  split; [apply parseCsv_of_clean |].
  apply parseCsv_of_clean, parseCsv_clean.
Qed.

(* ================================================================== *)
(** * Location tags *)

Lemma locationTagsLoop_lists (getEntry : string -> result jsval)
  (locale : string) (ids : list string) :
  forall tags notFound,
    locationTagsLoop getEntry locale ids tags notFound
    = (tags ++ flat_map (fun id => match locationTag getEntry locale id with
                                   | Some v => [v]
                                   | None => []
                                   end) ids,
       notFound ++ filter (fun id => match locationTag getEntry locale id with
                                     | Some _ => false
                                     | None => true
                                     end) ids).
Proof.
  induction ids as [| id ids IH]; intros tags notFound; simpl.
  - now rewrite !app_nil_r.
  - unfold locationTag at 1 3.
    destruct (getEntry id) as [entry | e].
    + destruct (tagValueOf locale entry) as [v |];
        rewrite IH, <- ?app_assoc; reflexivity.
    + rewrite IH, <- app_assoc. reflexivity.
Qed.

(** Reading the tags of the linked locations never fails and accounts for
    every id: an id whose request fails, or whose entry has no string with
    a visible character as its tag, is reported not found, in the order of
    the ids, and the tags of the others are returned, each once. *)
Theorem resolveLocationTagsByIds_accounts_for_every_id
  (getEntry : string -> result jsval) (locationIds : list string)
  (locale : string) :
  let tags := fst (resolveLocationTagsByIds getEntry locationIds locale) in
  let notFound := snd (resolveLocationTagsByIds getEntry locationIds locale) in
  NoDup tags /\
  (forall v, In v tags <->
             exists id, In id locationIds /\
                        locationTag getEntry locale id = Some v) /\
  (forall v, In v tags -> trim v <> "") /\
  notFound = filter (fun id => match locationTag getEntry locale id with
                               | Some _ => false
                               | None => true
                               end) locationIds /\
  (forall id e, In id locationIds -> getEntry id = Throw e -> In id notFound).
Proof.
  intros tags notFound. unfold tags, notFound, resolveLocationTagsByIds.
  rewrite locationTagsLoop_lists. cbn [fst snd app].
  assert (Htags : forall v,
             In v (set_of_list
                     (flat_map (fun id =>
                                  match locationTag getEntry locale id with
                                  | Some v => [v]
                                  | None => []
                                  end) locationIds)) <->
             exists id, In id locationIds /\
                        locationTag getEntry locale id = Some v).
  { intros v. rewrite set_of_list_In, in_flat_map. split.
    - intros [id [Hin Hv]]. exists id. split; [exact Hin |].
      destruct (locationTag getEntry locale id); [| destruct Hv].
      destruct Hv as [-> | []]. reflexivity.
    - intros [id [Hin Hv]]. exists id. split; [exact Hin |].
      rewrite Hv. now left. }
  split; [apply set_of_list_NoDup | split; [exact Htags | split; [| split]]].
  - intros v Hv. apply Htags in Hv. destruct Hv as [id [_ Hv]].
    unfold locationTag in Hv. destruct (getEntry id); [| discriminate].
    unfold tagValueOf in Hv.
    destruct (getLocalizedFieldValue _ locale); try discriminate.
    destruct (String.eqb_spec (trim s) ""); [discriminate |].
    now injection Hv as <-.
  - reflexivity.
  - intros id e Hin He. apply filter_In. split; [exact Hin |].
    unfold locationTag. now rewrite He.
Qed.

(* ================================================================== *)
(** * The dialog: rows and selection *)

Lemma filter_other_NoDup (id : string) (l : list string) :
  NoDup l -> NoDup (filter (fun x => negb (x =? id)) l).
Proof. apply NoDup_filter. Qed.

Lemma filter_absent (id : string) (l : list string) :
  ~ In id l -> filter (fun x => negb (x =? id)) l = l.
Proof.
  induction l as [| x l IH]; intros H; simpl; [reflexivity |].
  destruct (String.eqb_spec x id) as [-> | Hne]; simpl.
  - exfalso. apply H. now left.
  - rewrite IH; [reflexivity |]. intros Hin. apply H. now right.
Qed.

Lemma toggleId_In (ids : list string) (id x : string) :
  In x (toggleId ids id) -> x = id \/ In x ids.
Proof.
  unfold toggleId. destruct (set_has id ids).
  - intros H. apply filter_In in H. tauto.
  - intros H. apply in_app_iff in H. simpl in H. intuition.
Qed.

Lemma toggleId_NoDup (ids : list string) (id : string) :
  NoDup ids -> NoDup (toggleId ids id).
Proof.
  unfold toggleId. destruct (set_has id ids) eqn:E.
  - apply filter_other_NoDup.
  - apply set_has_false in E. intros Hnd. apply NoDup_rev in Hnd.
    rewrite <- (rev_involutive (ids ++ [id])). apply NoDup_rev.
    rewrite rev_app_distr. simpl. constructor; [| exact Hnd].
    now rewrite <- in_rev.
Qed.

(** Ticking a checkbox flips whether its id is selected and leaves every
    other id as it was; a selection without repetition stays so; and
    ticking twice an id that was not selected gives the selection back. *)
Theorem toggleId_flips_one_id (ids : list string) (id : string) :
  (In id (toggleId ids id) <-> ~ In id ids) /\
  (forall x, x <> id -> (In x (toggleId ids id) <-> In x ids)) /\
  (NoDup ids -> NoDup (toggleId ids id)) /\
  (~ In id ids -> toggleId (toggleId ids id) id = ids) /\
  (In id ids -> ~ In id (toggleId ids id) /\
                 toggleId (toggleId ids id) id
                 = filter (fun x => negb (x =? id)) ids ++ [id]).
Proof.
  assert (Hon : forall l, In id l ->
                          toggleId l id = filter (fun x => negb (x =? id)) l).
  { intros l H. unfold toggleId. apply set_has_In in H. now rewrite H. }
  assert (Hoff : forall l, ~ In id l -> toggleId l id = l ++ [id]).
  { intros l H. unfold toggleId. apply set_has_false in H. now rewrite H. }
  assert (Hout : ~ In id (filter (fun x => negb (x =? id)) ids)).
  { intros H. apply filter_In in H. destruct H as [_ H].
    now rewrite String.eqb_refl in H. }
  destruct (in_dec string_dec id ids) as [E | E].
  - rewrite (Hon ids E), (Hoff _ Hout).
    split; [tauto | split; [| split; [| split]]].
    + intros x Hx. rewrite filter_In. split; [tauto |].
      intros H. split; [exact H |].
      destruct (String.eqb_spec x id); [contradiction | reflexivity].
    + apply filter_other_NoDup.
    + tauto.
    + auto.
  - assert (Hin : In id (ids ++ [id])) by (apply in_app_iff; right; now left).
    rewrite (Hoff ids E), (Hon _ Hin).
    split; [| split; [| split; [| split]]].
    + tauto.
    + intros x Hx. rewrite in_app_iff. simpl. split; [| tauto].
      intros [H | [H | []]]; [exact H | congruence].
    + rewrite <- (Hoff ids E). apply toggleId_NoDup.
    + intros _. rewrite filter_app. simpl. rewrite String.eqb_refl. simpl.
      rewrite app_nil_r. now apply filter_absent.
    + tauto.
Qed.

Lemma rowsById_get (rows : list DialogRow) :
  forall acc,
    NoDup (map rowId rows) ->
    (forall r, In r rows ->
               map_get (rowId r)
                       (fold_left (fun m r => map_set (rowId r) r m) rows acc)
               = Some r) /\
    (forall id, ~ In id (map rowId rows) ->
                map_get id
                        (fold_left (fun m r => map_set (rowId r) r m) rows acc)
                = map_get id acc).
Proof.
  induction rows as [| r0 rows IH]; intros acc Hnd; simpl.
  - split; [intros r [] | reflexivity].
  - inversion Hnd as [| ? ? Hnot Hrest]; subst.
    destruct (IH (map_set (rowId r0) r0 acc) Hrest) as [H1 H2].
    split.
    + intros r [<- | Hin]; [| now apply H1].
      rewrite (H2 _ Hnot). apply map_get_set.
    + intros id Hid. rewrite H2 by tauto.
      apply map_get_set_other. intros ->. apply Hid. now left.
Qed.

Lemma selection_within (rows : list DialogRow) (events : list UiEvent) :
  forall selected,
    incl selected (selectableIds rows) ->
    (NoDup (selectableIds rows) -> NoDup selected ->
     NoDup (fold_left (onUiEvent rows) events selected)) /\
    incl (fold_left (onUiEvent rows) events selected) (selectableIds rows).
Proof.
  induction events as [| ev events IH]; intros selected Hincl; simpl.
  - auto.
  - assert (Hstep : incl (onUiEvent rows selected ev) (selectableIds rows) /\
                    (NoDup (selectableIds rows) -> NoDup selected ->
                     NoDup (onUiEvent rows selected ev))).
    { destruct ev as [| | i]; simpl.
      - split; [apply incl_refl | auto].
      - split; [intros x [] | intros _ _; constructor].
      - destruct (nth_error (actionableRows rows) i) as [r |] eqn:En;
          [| auto].
        split; [| intros _; apply toggleId_NoDup].
        intros x Hx. destruct (toggleId_In _ _ _ Hx) as [-> | Hin].
        + apply in_map. now apply nth_error_In in En.
        + now apply Hincl. }
    destruct Hstep as [S1 S2]. destruct (IH _ S1) as [I1 I2].
    split; [| exact I2]. intros Hs Hnd. apply I1; auto.
Qed.

(** Whatever the user does with the checkboxes and the two buttons, the
    selection holds ids of listed rows only; when the rows of the payload
    have distinct ids, the filter of [onApply] then drops none of them, and
    the count [selected] of the summary is the number of selected ids. *)
Theorem selection_is_dispatched_whole (entryCma assetCma : Cma)
  (p : DialogPayload) (contentEvents mediaEvents : list UiEvent)
  (preservePublishState : bool) (esched asched : list nat)
  (summary : ApplySummary) :
  let selectedContentIds := selectionAfter (contentRows p) contentEvents in
  let selectedMediaIds := selectionAfter (mediaRows p) mediaEvents in
  NoDup (map rowId (contentRows p)) ->
  NoDup (map rowId (mediaRows p)) ->
  onApply entryCma assetCma p selectedContentIds selectedMediaIds
          preservePublishState esched asched = Done summary ->
  actionableIds (rowsById (contentRows p)) selectedContentIds
  = selectedContentIds /\
  actionableIds (rowsById (mediaRows p)) selectedMediaIds
  = selectedMediaIds /\
  NoDup selectedContentIds /\ NoDup selectedMediaIds /\
  selected (entriesTally summary) = List.length selectedContentIds /\
  selected (assetsTally summary) = List.length selectedMediaIds.
Proof.
  intros selC selM HndC HndM H.
  assert (Hkeep : forall rows events,
             NoDup (map rowId rows) ->
             actionableIds (rowsById rows) (selectionAfter rows events)
             = selectionAfter rows events /\
             NoDup (selectionAfter rows events)).
  { intros rows events Hnd. unfold selectionAfter.
    destruct (selection_within rows events (selectableIds rows)
                (incl_refl _)) as [Hnodup Hincl].
    assert (Hsel : NoDup (selectableIds rows)).
    { unfold selectableIds, actionableRows. clear -Hnd.
      induction rows as [| r rows IH]; simpl; [constructor |].
      inversion Hnd as [| ? ? Hnot Hrest]; subst.
      destruct (negb (rowExcluded r) && willAdd r); simpl; [| auto].
      constructor; [| auto]. intros Hin. apply Hnot.
      apply in_map_iff in Hin. destruct Hin as [r' [<- Hr']].
      apply filter_In in Hr'. apply in_map. tauto. }
    split; [| now apply Hnodup].
    unfold actionableIds.
    generalize (fold_left (onUiEvent rows) events (selectableIds rows)) Hincl.
    intros sel Hsub. induction sel as [| id sel IH]; [reflexivity |].
    simpl. assert (Hid : In id (selectableIds rows)) by (apply Hsub; now left).
    apply in_map_iff in Hid. destruct Hid as [r [<- Hr]].
    apply filter_In in Hr. destruct Hr as [Hr Hact].
    destruct (rowsById_get rows [] Hnd) as [Hget _].
    unfold rowsById. rewrite (Hget r Hr), Hact. f_equal.
    apply IH. intros x Hx. apply Hsub. now right. }
  destruct (Hkeep (contentRows p) contentEvents HndC) as [KC NC].
  destruct (Hkeep (mediaRows p) mediaEvents HndM) as [KM NM].
  fold selC in KC, NC. fold selM in KM, NM.
  destruct (onApply_done _ _ _ _ _ _ _ _ _ H) as [_ [_ [He Ha]]].
  rewrite KC in He. rewrite KM in Ha.
  destruct (applyCollection_tally _ _ _ _ _ _ _ He) as [Hse _].
  destruct (applyCollection_tally _ _ _ _ _ _ _ Ha) as [Hsa _].
  auto 10.
Qed.

Lemma selection_is_dispatched_whole_witness :
  actionableIds (rowsById (contentRows sampleDialog)) ["E2"] = ["E2"] /\
  actionableIds (rowsById (mediaRows sampleDialog)) ["M1"] = ["M1"] /\
  NoDup ["E2"] /\ NoDup ["M1"] /\
  selected (mkTally 1 1 0 0 0 1) = List.length ["E2"] /\
  selected (mkTally 1 1 1 0 0 0) = List.length ["M1"].
Proof.
  apply (selection_is_dispatched_whole sampleCma sampleCma sampleDialog
           [ClearAll; ToggleRow 1; ToggleRow 7] [ToggleRow 0; SelectAll] true
           [0; 0; 0; 0] [0; 0; 0; 0]
           (mkApplySummary (mkTally 1 1 0 0 0 1) (mkTally 1 1 1 0 0 0))).
  - vm_compute. repeat constructor; intros H; simpl in H;
      repeat (destruct H as [H | H]; [discriminate |]); exact H.
  - vm_compute. repeat constructor. intros [].
  - vm_compute. reflexivity.
Defined.

Lemma firstOfEachId_spec (rows : list ContentRow) :
  forall seen,
    let out := firstOfEachId seen rows in
    NoDup (map crId out) /\
    (forall r, In r out -> In r rows /\ ~ In (crId r) seen) /\
    (forall r, In r rows -> In (crId r) seen \/ In (crId r) (map crId out)) /\
    (NoDup (map crId rows) -> (forall r, In r rows -> ~ In (crId r) seen) ->
     out = rows).
Proof.
  induction rows as [| r rows IH]; intros seen; simpl.
  - split; [constructor | split; [intros r [] | split; [intros r [] | auto]]].
  - destruct (set_has (crId r) seen) eqn:E.
    + apply set_has_In in E. destruct (IH seen) as [H1 [H2 [H3 H4]]].
      split; [exact H1 | split; [| split]].
      * intros x Hx. destruct (H2 x Hx). auto.
      * intros x [<- | Hx]; [now left | now apply H3].
      * intros _ Hseen. exfalso. now apply (Hseen r (or_introl eq_refl)).
    + apply set_has_false in E.
      destruct (IH (set_add (crId r) seen)) as [H1 [H2 [H3 H4]]].
      split; [| split; [| split]].
      * simpl. constructor; [| exact H1]. intros Hin.
        apply in_map_iff in Hin. destruct Hin as [x [Hid Hx]].
        destruct (H2 x Hx) as [_ Hn]. apply Hn, set_add_In. now left.
      * intros x [<- | Hx]; [auto |].
        destruct (H2 x Hx) as [Hr Hn]. split; [now right |].
        intros Hs. apply Hn, set_add_In. now right.
      * intros x [<- | Hx]; [right; now left |].
        destruct (H3 x Hx) as [Hs | Hs]; [| right; now right].
        apply set_add_In in Hs. destruct Hs as [Hid | Hs]; [| now left].
        right. left. now symmetry.
      * intros Hnd Hseen. inversion Hnd as [| ? ? Hnot Hrest]; subst.
        f_equal. apply H4; [exact Hrest |].
        intros x Hx Hs. apply set_add_In in Hs. destruct Hs as [Hid | Hs].
        -- apply Hnot. rewrite <- Hid. now apply in_map.
        -- apply (Hseen x); [now right | exact Hs].
Qed.

(** The rows handed to the dialog list each record of the scan once,
    whatever order the sort gives: their ids are distinct, each is made of
    an entry of the scan and each entry has one; a row is excluded, or will
    get tags, or is already tagged, and never two of these; and the rows
    the dialog lists for the apply run are exactly those that will get
    tags. *)
Theorem contentRowsOf_lists_each_record_once
  (sorted : list EntryScanRow -> list EntryScanRow)
  (entries : list EntryScanRow) :
  Permutation (sorted entries) entries ->
  let rows := contentRowsOf sorted entries in
  NoDup (map crId rows) /\
  (forall r, In r rows -> exists e, In e entries /\ r = contentRowOf e) /\
  (forall e, In e entries -> In (entryId e) (map crId rows)) /\
  (NoDup (map entryId entries) ->
   Permutation rows (map contentRowOf entries)) /\
  (forall r, In r rows ->
             (crExcluded r = true /\ crWillAdd r = false /\
              crAlreadyOk r = false) \/
             (crExcluded r = false /\ crWillAdd r = negb (crAlreadyOk r))) /\
  actionableRows (map asDialogRow rows) = filter willAdd (map asDialogRow rows).
Proof.
  intros Hperm rows. unfold rows, contentRowsOf.
  destruct (firstOfEachId_spec (map contentRowOf (sorted entries)) [])
    as [H1 [H2 [H3 H4]]].
  assert (Hfrom : forall r,
             In r (firstOfEachId [] (map contentRowOf (sorted entries))) ->
             exists e, In e entries /\ r = contentRowOf e).
  { intros r Hr. destruct (H2 r Hr) as [Hin _].
    apply in_map_iff in Hin. destruct Hin as [e [<- He]].
    exists e. split; [| reflexivity].
    now apply (Permutation_in _ Hperm). }
  split; [exact H1 | split; [exact Hfrom | split; [| split; [| split]]]].
  - intros e He.
    destruct (H3 (contentRowOf e)) as [[] | H]; [| exact H].
    apply in_map. now apply (Permutation_in _ (Permutation_sym Hperm)).
  - intros Hnd. rewrite H4.
    + now apply Permutation_map.
    + rewrite map_map. simpl.
      apply (Permutation_NoDup (l := map entryId entries)); [| exact Hnd].
      apply Permutation_map. now apply Permutation_sym.
    + intros r _ [].
  - intros r Hr. destruct (Hfrom r Hr) as [e [_ ->]]. simpl.
    destruct (entryExcluded e); [left; auto | right].
    split; [reflexivity |]. simpl.
    now destruct (List.length (entryMissingTagIds e)).
  - unfold actionableRows.
    generalize (firstOfEachId [] (map contentRowOf (sorted entries))) Hfrom.
    intros l Hl. induction l as [| r l IH]; [reflexivity |].
    simpl. rewrite IH by (intros x Hx; apply Hl; now right).
    destruct (Hl r (or_introl eq_refl)) as [e [_ ->]]. simpl.
    now destruct (entryExcluded e).
Qed.

Lemma contentRowsOf_lists_each_record_once_witness :
  map crId (contentRowsOf (@rev EntryScanRow) sampleScanRows) = ["R2"; "R1"] /\
  Permutation (contentRowsOf (@rev EntryScanRow) sampleScanRows)
              (map contentRowOf sampleScanRows).
Proof.
  split; [reflexivity |].
  refine (proj1 (proj2 (proj2 (proj2
            (contentRowsOf_lists_each_record_once (@rev EntryScanRow)
               sampleScanRows _)))) _).
  - apply Permutation_sym, Permutation_rev.
  - simpl. repeat constructor; simpl; intuition discriminate.
Defined.
